(** * bad_package: the forward and reverse differentiation drivers

    A shallow embedding of [src/bad_package/interface.py] (classes
    [AutoDiff] and [ReverseAD]).  Python floats are modelled by exact
    rationals [Q]; Python exceptions by the sum type [res]; the objects
    of class [ReverseMode], which the driver shares and mutates, by an
    explicit store of nodes addressed by index.  A user function is the
    expression it returns, evaluated against either kernel.

    The kernels [bad_package/fad.py] and [bad_package/rad.py] are not
    among the sources; their operations follow sections 3 and 4 of the
    specification and are marked as such.

    The file has four parts: the model; the lemmas about it (the shape
    of the forward results, the invariants of the store, and a relation
    between two runs of one pass in different stores); the claims; and
    further properties of the two drivers, among them that the
    gradients of the reverse pass are the tangents of the forward
    kernel, and what each entry of the forward Jacobian is. *)

From Stdlib Require Import QArith String Lia.
From stdpp Require Import base list.

Local Open Scope Q_scope.

(** ** Exceptions and results *)

Inductive exn : Type :=
| TypeError (msg : string)
| AttributeError
| IndexError
| ZeroDivisionError
| DomainError
| NotImplementedError (msg : string)
| Stuck.
(* [Stuck] belongs to the model only: a lookup of an address outside the
   store, or a recursion that exhausted its fuel.  No run of a driver
   from a well-formed store produces it (lemma [init_not_stuck]). *)

Definition res (A : Type) : Type := (exn + A)%type.

Definition raise {A} (e : exn) : res A := inl e.
Definition ok {A} (a : A) : res A := inr a.

Definition rbind {A B} (c : res A) (k : A -> res B) : res B :=
  match c with
  | inl e => inl e
  | inr a => k a
  end.

Notation "'let*' x ':=' c 'in' k" := (rbind c (fun x => k))
  (at level 10, x pattern, c at level 100, k at level 200).

(** The loop [for x in xs: out.append(body(x))], stopping at the first
    exception. *)
Fixpoint rmap {A B} (body : A -> res B) (xs : list A) : res (list B) :=
  match xs with
  | [] => ok []
  | x :: xs' =>
      let* y := body x in
      let* ys := rmap body xs' in
      ok (y :: ys)
  end.

(** ** Arithmetic shared by the two kernels *)

(** An elementary function of the external library, given by its value,
    its derivative and its domain. *)
Record elemfun : Type := {
  ef_val : Q -> Q;
  ef_der : Q -> Q;
  ef_dom : Q -> bool
}.

Inductive binop : Type := OAdd | OSub | OMul | ODiv.
Inductive unop : Type := ONeg | OPow (n : nat) | OElem (u : elemfun).

(** Modelled from the spec: the kernels [bad_package/fad.py] and
    [bad_package/rad.py] are not part of the sources at hand.  Section
    4.1 and 4.2 fix every operation by the real function it computes on
    the primals and by its local partial derivatives at the inputs'
    primals, and ask for a [DomainError] at an invalid point.
    [local2 op a b] is the value and the two partials of a binary
    operation, [local1 op a] the value and the partial of a unary one.
    The numbers are exact rationals: the model has no rounding, no
    overflow, no infinity and no NaN, so nothing here speaks about
    them.  Of the operations of section 4.1 the power is taken at a
    natural exponent only, and the elementary functions are left
    abstract ([elemfun]). *)
Definition local2 (op : binop) (a b : Q) : res (Q * Q * Q) :=
  match op with
  | OAdd => ok (a + b, 1, 1)
  | OSub => ok (a - b, 1, - (1))
  | OMul => ok (a * b, b, a)
  | ODiv => if Qeq_bool b 0 then raise DomainError
            else ok (a / b, 1 / b, - a / (b * b))
  end.

Definition local1 (op : unop) (a : Q) : res (Q * Q) :=
  match op with
  | ONeg => ok (- a, - (1))
  | OPow n => ok (a ^ Z.of_nat n, inject_Z (Z.of_nat n) * a ^ Z.of_nat (pred n))
  | OElem u => if ef_dom u a then ok (ef_val u a, ef_der u a)
               else raise DomainError
  end.

(** Python's own arithmetic on two plain numbers. *)
Definition native2 (op : binop) (a b : Q) : res Q :=
  match op with
  | OAdd => ok (a + b)
  | OSub => ok (a - b)
  | OMul => ok (a * b)
  | ODiv => if Qeq_bool b 0 then raise ZeroDivisionError else ok (a / b)
  end.

Definition native1 (op : unop) (a : Q) : res Q :=
  let* vp := local1 op a in ok (fst vp).

(** ** Values and user functions *)

(** What an expression of a user function evaluates to: a plain Python
    number, or a value of the kernel at hand (a [DualNumber], or the
    address of a [ReverseMode] node). *)
Inductive val (K : Type) : Type :=
| VNum (q : Q)
| VKer (k : K).
Arguments VNum {K} q.
Arguments VKer {K} k.

(** What the driver passes to a user function: one kernel value
    ([f(self.trace[0])], [f(x)]) or the list of them ([f(self.trace)]). *)
Inductive arg (K : Type) : Type :=
| AOne (k : K)
| AMany (l : list K).
Arguments AOne {K} k.
Arguments AMany {K} l.

(** The body of a user function [def f(x): return <expr>]: arithmetic
    over the argument [x] (used as a number, [Arg], or subscripted,
    [Idx i] for [x[i]]) and constants.  [Un (OPow n) a] is [a ** n]. *)
Inductive expr : Type :=
| Arg
| Idx (i : nat)
| Const (c : Q)
| Bin (op : binop) (a b : expr)
| Un (op : unop) (a : expr).

Definition not_subscriptable : string := "object is not subscriptable"%string.
Definition unsupported_operand : string := "unsupported operand type(s)"%string.

(** The argument read by a body.  A body that uses the argument the way
    the driver passes it (as a number when there is one variable,
    subscripted when there are several) reads the kernel value, and an
    index past the end raises [IndexError] as in Python.  For a body
    that does not, the model raises [TypeError] at the use of the
    argument.  Python raises there too for a number subscripted and for
    most arithmetic on the list ([x - 1], [x / 2], [4*x + 3]), but list
    repetition and concatenation ([4*x], [x + x]) succeed and the driver
    fails later with [AttributeError], at [value.real]: for such bodies
    the model gives the fact that the constructor raises, not the class
    of the exception.  The message of [not_subscriptable] leaves out the
    class name that Python puts in front ('DualNumber', 'ReverseMode'),
    so the two kernels raise equal exceptions in the model where
    Python's messages differ in that name. *)
Definition read_arg {K} (x : arg K) : res K :=
  match x with
  | AOne k => ok k
  | AMany _ => raise (TypeError unsupported_operand)
  end.

Definition read_idx {K} (x : arg K) (i : nat) : res K :=
  match x with
  | AOne _ => raise (TypeError not_subscriptable)
  | AMany l => match l !! i with
               | Some k => ok k
               | None => raise IndexError
               end
  end.

(** ** The forward kernel *)

Module fad.

(** Modelled from the spec: the class [DualNumber] of
    [bad_package/fad.py] is missing.  Section 3: a primal and a tangent,
    which the driver reads as [.real] and [.dual]; never mutated. *)
Record DualNumber : Type := { real : Q; dual : Q }.

(** Modelled from the spec: the operators of [DualNumber] are missing.
    Section 4.1: a plain constant combined with a [DualNumber] has
    tangent 0. *)
Definition lift (v : val DualNumber) : DualNumber :=
  match v with
  | VNum q => {| real := q; dual := 0 |}
  | VKer d => d
  end.

(** Modelled from the spec: the operators of [DualNumber] are missing.
    Section 4.1: the result's primal is the real function of the inputs'
    primals, its tangent the sum over the inputs of the partial
    derivative times that input's tangent. *)
Definition apply2 (op : binop) (a b : DualNumber) : res DualNumber :=
  let* (v, pa, pb) := local2 op (real a) (real b) in
  ok {| real := v; dual := pa * dual a + pb * dual b |}.

Definition apply1 (op : unop) (a : DualNumber) : res DualNumber :=
  let* (v, pa) := local1 op (real a) in
  ok {| real := v; dual := pa * dual a |}.

(** An operator applied to two values: Python's own arithmetic on two
    plain numbers, the kernel's as soon as one is a [DualNumber]. *)
Definition bin (op : binop) (a b : val DualNumber) : res (val DualNumber) :=
  match a, b with
  | VNum x, VNum y => let* v := native2 op x y in ok (VNum v)
  | _, _ => let* d := apply2 op (lift a) (lift b) in ok (VKer d)
  end.

Definition un (op : unop) (a : val DualNumber) : res (val DualNumber) :=
  match a with
  | VNum x => let* v := native1 op x in ok (VNum v)
  | VKer d => let* r := apply1 op d in ok (VKer r)
  end.

(** [call e x]: the user function with body [e] applied to [x]. *)
Fixpoint call (e : expr) (x : arg DualNumber) : res (val DualNumber) :=
  match e with
  | Arg => let* d := read_arg x in ok (VKer d)
  | Idx i => let* d := read_idx x i in ok (VKer d)
  | Const c => ok (VNum c)
  | Bin op a b =>
      let* va := call a x in
      let* vb := call b x in
      bin op va vb
  | Un op a =>
      let* va := call a x in
      un op va
  end.

(** The attributes [.real] and [.dual] read by the driver: every Python
    number has [.real], only a [DualNumber] has [.dual]. *)
Definition get_real (v : val DualNumber) : res Q :=
  match v with
  | VNum q => ok q
  | VKer d => ok (real d)
  end.

Definition get_dual (v : val DualNumber) : res Q :=
  match v with
  | VNum _ => raise AttributeError
  | VKer d => ok (dual d)
  end.

End fad.

(** ** Arguments of the drivers *)

(** The first argument of either driver: a bare callable, or a list or
    ndarray of callables. *)
Inductive pyfun : Type :=
| FunBare (e : expr)
| FunSeq (l : list expr).

(** The second argument: a single int or float, or a list or ndarray of
    numbers. *)
Inductive pyvars : Type :=
| VarsNum (q : Q)
| VarsSeq (l : list Q).

(** An element of [self.jacobian]: a number, or the list of partials of
    one function. *)
Inductive jentry : Type :=
| JNum (q : Q)
| JRow (l : list Q).

(** ** The forward driver *)

Module AutoDiff.
Import fad.

Record t : Type := {
  f : list expr;
  var_list : list Q;
  len_var_list : nat;
  jacobian : list jentry;
  primal : list Q;
  trace : list DualNumber
}.

Definition append_result (self : t) (p : Q) (j : jentry) : t :=
  {| f := f self; var_list := var_list self;
     len_var_list := len_var_list self;
     jacobian := jacobian self ++ [j];
     primal := primal self ++ [p];
     trace := trace self |}.

(** The body of [for i in range(self.len_var_list)] in [_compute]:
    [y = [DualNumber(0, 0)]*n; y[i] = self.trace[i]; dp = f(y).dual],
    then [DualNumber(value.real, dp)] whose [.dual] is kept. *)
Definition partial_at (self : t) (e : expr) (value : val DualNumber)
    (i : nat) : res Q :=
  match trace self !! i with
  | None => raise IndexError
  | Some x =>
      let y := <[i := x]> (replicate (len_var_list self)
                             {| real := 0; dual := 0 |}) in
      let* fy := call e (AMany y) in
      let* dp := get_dual fy in
      let* r := get_real value in
      let updatedDual := {| real := r; dual := dp |} in
      ok (dual updatedDual)
  end.

(** One turn of [for f in self.f] in [_compute]. *)
Definition compute_one (self : t) (e : expr) : res t :=
  if Nat.eqb (len_var_list self) 1 then
    match trace self with
    | [] => raise IndexError
    | x0 :: _ =>
        let* value := call e (AOne x0) in
        let* p := get_real value in
        let* d := get_dual value in
        ok (append_result self p (JNum d))
    end
  else
    let* value := call e (AMany (trace self)) in
    let* tangent := rmap (partial_at self e value) (seq 0 (len_var_list self)) in
    let* p := get_real value in
    ok (append_result self p (JRow tangent)).

Fixpoint compute_loop (self : t) (fs : list expr) : res t :=
  match fs with
  | [] => ok self
  | e :: fs' =>
      let* self' := compute_one self e in
      compute_loop self' fs'
  end.

Definition _compute (self : t) : res t := compute_loop self (f self).

(** [AutoDiff(f, var_list)]: both arguments are normalised to arrays,
    every variable is wrapped as [DualNumber(float(variable), 1)], and
    the computation runs at once. *)
Definition __init__ (fn : pyfun) (vars : pyvars) : res t :=
  let var_list :=
    match vars with
    | VarsSeq l => l
    | VarsNum q => [q]
    end in
  let f :=
    match fn with
    | FunSeq l => l
    | FunBare e => [e]
    end in
  _compute {| f := f; var_list := var_list;
              len_var_list := length var_list;
              jacobian := []; primal := [];
              trace := map (fun v => {| real := v; dual := 1 |}) var_list |}.

Definition get_primal (self : t) : list Q := primal self.
Definition get_jacobian (self : t) : list jentry := jacobian self.
Definition get_var_list (self : t) : list Q := var_list self.
Definition get_f (self : t) : list expr := f self.

End AutoDiff.

(** ** The reverse kernel *)

Module rad.

(** Modelled from the spec: the class [ReverseMode] of
    [bad_package/rad.py] is missing; the driver uses its attributes
    [child] and [gradient] and its method [grad].  Section 3: a node of
    the computational graph.  [child] lists, in the order they were
    recorded, the pairs (local partial, address of the node that
    consumed this one); [gradient] is [None] while unset. *)
Record ReverseMode : Type := {
  real : Q;
  child : list (Q * nat);
  gradient : option Q
}.

(** The objects of class [ReverseMode] alive in the interpreter, by
    address.  A new object takes the next address. *)
Abbreviation store := (list ReverseMode).

(** Computations that read and mutate the store and may raise. *)
Definition M (A : Type) : Type := store -> res (A * store).

Definition ret {A} (a : A) : M A := fun h => ok (a, h).
Definition fail {A} (e : exn) : M A := fun _ => raise e.
Definition bind {A B} (c : M A) (k : A -> M B) : M B :=
  fun h => match c h with
           | inl e => inl e
           | inr (a, h') => k a h'
           end.
Definition lift_res {A} (r : res A) : M A :=
  fun h => match r with
           | inl e => inl e
           | inr a => ok (a, h)
           end.

Notation "'let!' x ':=' c 'in' k" := (bind c (fun x => k))
  (at level 10, x pattern, c at level 100, k at level 200).

(** [for x in xs: out.append(body(x))] in the store. *)
Fixpoint mapM {A B} (body : A -> M B) (xs : list A) : M (list B) :=
  match xs with
  | [] => ret []
  | x :: xs' =>
      let! y := body x in
      let! ys := mapM body xs' in
      ret (y :: ys)
  end.

(** Modelled from the spec: the constructor of [ReverseMode] is missing.
    Section 4.2: [ReverseMode(v)] is a seed node, no edge, gradient
    unset.  The new object takes the next address. *)
Definition fresh (v : Q) : ReverseMode :=
  {| real := v; child := []; gradient := None |}.

Definition new (v : Q) : M nat :=
  fun h => ok (length h, h ++ [fresh v]).

Definition get (r : nat) : M ReverseMode :=
  fun h => match h !! r with
           | Some nd => ok (nd, h)
           | None => raise Stuck
           end.

Definition update (r : nat) (g : ReverseMode -> ReverseMode) : M unit :=
  fun h => match h !! r with
           | Some nd => ok (tt, <[r := g nd]> h)
           | None => raise Stuck
           end.

(** [self.child.append((w, c))] *)
Definition add_child (r : nat) (w : Q) (c : nat) : M unit :=
  update r (fun nd => {| real := real nd; child := child nd ++ [(w, c)];
                         gradient := gradient nd |}).

(** [self.gradient = g] *)
Definition set_gradient (r : nat) (g : option Q) : M unit :=
  update r (fun nd => {| real := real nd; child := child nd; gradient := g |}).

(** [self.child = []] *)
Definition clear_child (r : nat) : M unit :=
  update r (fun nd => {| real := real nd; child := []; gradient := gradient nd |}).

(** Modelled from the spec: the operators of [ReverseMode] are missing.
    Section 4.2: an operation computes the result's primal as the real
    function does, creates the result node, and appends to each input
    node's edge list the pair (local partial at the inputs' primals, the
    result node).  A plain constant is no node and gets no edge. *)
Definition apply2 (op : binop) (a b : val nat) : M (val nat) :=
  match a, b with
  | VNum x, VNum y =>
      let! v := lift_res (native2 op x y) in ret (VNum v)
  | VKer ra, VNum y =>
      let! na := get ra in
      let! (v, pa, _) := lift_res (local2 op (real na) y) in
      let! z := new v in
      let! _ := add_child ra pa z in
      ret (VKer z)
  | VNum x, VKer rb =>
      let! nb := get rb in
      let! (v, _, pb) := lift_res (local2 op x (real nb)) in
      let! z := new v in
      let! _ := add_child rb pb z in
      ret (VKer z)
  | VKer ra, VKer rb =>
      let! na := get ra in
      let! nb := get rb in
      let! (v, pa, pb) := lift_res (local2 op (real na) (real nb)) in
      let! z := new v in
      let! _ := add_child ra pa z in
      let! _ := add_child rb pb z in
      ret (VKer z)
  end.

Definition apply1 (op : unop) (a : val nat) : M (val nat) :=
  match a with
  | VNum x =>
      let! v := lift_res (native1 op x) in ret (VNum v)
  | VKer ra =>
      let! na := get ra in
      let! (v, pa) := lift_res (local1 op (real na)) in
      let! z := new v in
      let! _ := add_child ra pa z in
      ret (VKer z)
  end.

(** [call e x]: the user function with body [e] applied to [x]; the
    left operand is evaluated before the right one. *)
Fixpoint call (e : expr) (x : arg nat) : M (val nat) :=
  match e with
  | Arg => let! r := lift_res (read_arg x) in ret (VKer r)
  | Idx i => let! r := lift_res (read_idx x i) in ret (VKer r)
  | Const c => ret (VNum c)
  | Bin op a b =>
      let! va := call a x in
      let! vb := call b x in
      apply2 op va vb
  | Un op a =>
      let! va := call a x in
      apply1 op va
  end.

(** [sum(w * c.grad() for (w, c) in edges)], from 0, in the order of
    the list; [rec] is [grad] on the children. *)
Fixpoint sum_edges (rec : nat -> M Q) (edges : list (Q * nat)) (acc : Q) : M Q :=
  match edges with
  | [] => ret acc
  | (w, c) :: edges' =>
      let! g := rec c in
      sum_edges rec edges' (acc + w * g)
  end.

(** Modelled from the spec: [ReverseMode.grad] is missing.  Section 4.2:
    a set gradient is returned as it is (the root's seed, or a cached
    value); an unset one is computed as the sum over the node's edges of
    local partial times [grad] of the child, cached, and returned.  With
    no edge the sum is 0.  [fuel] bounds the depth of the recursion. *)
Fixpoint grad (fuel : nat) (r : nat) : M Q :=
  match fuel with
  | O => fail Stuck
  | S k =>
      let! nd := get r in
      match gradient nd with
      | Some g => ret g
      | None =>
          let! s := sum_edges (grad k) (child nd) 0 in
          let! _ := set_gradient r (Some s) in
          ret s
      end
  end.

(** [x.grad()] as the driver calls it: a path of the graph visits
    addresses in increasing order, so the size of the store bounds the
    depth. *)
Definition grad_top (r : nat) : M Q :=
  fun h => grad (length h) r h.

(** [z.gradient = 1.0]: a plain number has no such attribute. *)
Definition seed (z : val nat) : M unit :=
  match z with
  | VNum _ => fail AttributeError
  | VKer r => set_gradient r (Some 1)
  end.

End rad.

(** ** The reverse driver *)

(** What [ReverseAD.get_jacobian] returns: a float, or a flat list. *)
Inductive pyres : Type :=
| RNum (q : Q)
| RList (l : list Q).

Definition no_len : string := "object of type 'function' has no len()"%string.
Definition multiple_functions : string :=
  "For multiple functions, variable(s) must be input as numpy array"%string.
Definition empty_variables : string := "Variable list cannot be empty!"%string.
Definition no_primal : string := "Reverse AutoDiff does not track primal trace."%string.

Module ReverseAD.
Import rad.

(** [self.trace] is only assigned when there are several variables. *)
Record t : Type := {
  f : pyfun;
  var_list : pyvars;
  jacobian : list jentry;
  jacobian_single : Q;
  len_var_list : nat;
  trace : option (list nat)
}.

Definition set_jacobian (self : t) (j : list jentry) : t :=
  {| f := f self; var_list := var_list self; jacobian := j;
     jacobian_single := jacobian_single self;
     len_var_list := len_var_list self; trace := trace self |}.

Definition set_jacobian_single (self : t) (g : Q) : t :=
  {| f := f self; var_list := var_list self; jacobian := jacobian self;
     jacobian_single := g;
     len_var_list := len_var_list self; trace := trace self |}.

(** [len(self.f)]: a function object has no length. *)
Definition len_f (fn : pyfun) : res nat :=
  match fn with
  | FunBare _ => raise (TypeError no_len)
  | FunSeq l => ok (length l)
  end.

(** [self.f[i]] for [i] in [range(len(self.f))] *)
Definition funs (fn : pyfun) : res (list expr) :=
  match fn with
  | FunBare _ => raise (TypeError no_len)
  | FunSeq l => ok l
  end.

(** The four lines shared by the branches for a plain number and for a
    one-element list: [x = ReverseMode(float(v)); z = f(x);
    z.gradient = 1.0; x.grad()]. *)
Definition scalar_pass (v : Q) (e : expr) : M Q :=
  let! x := new v in
  let! z := call e (AOne x) in
  let! _ := seed z in
  grad_top x.

(** One turn of the loop of the branch [self.len_var_list == 1]. *)
Definition row_single (v : Q) (e : expr) : M jentry :=
  let! g := scalar_pass v e in
  ret (JNum g).

(** [trace.child = []; trace.gradient = None] *)
Definition reset (r : nat) : M unit :=
  let! _ := clear_child r in
  set_gradient r None.

(** One turn of the loop of the branch [self.len_var_list > 1]. *)
Definition row_multi (tr : list nat) (e : expr) : M jentry :=
  let! z := call e (AMany tr) in
  let! _ := seed z in
  let! row := mapM grad_top tr in
  let! _ := mapM reset tr in
  ret (JRow row).

Definition _compute (self : t) : M t :=
  match var_list self with
  | VarsNum v =>
      let! n := lift_res (len_f (f self)) in
      if Nat.eqb n 1 then
        match f self with
        | FunSeq (e :: _) =>
            let! g := scalar_pass v e in
            ret (set_jacobian_single self g)
        | _ => fail IndexError
        end
      else fail (TypeError multiple_functions)
  | VarsSeq l =>
      if Nat.eqb (len_var_list self) 1 then
        let! fs := lift_res (funs (f self)) in
        match l with
        | v :: _ =>
            let! rows := mapM (row_single v) fs in
            ret (set_jacobian self (jacobian self ++ rows))
        | [] => match fs with
                | [] => ret self
                | _ :: _ => fail IndexError
                end
        end
      else if Nat.ltb 1 (len_var_list self) then
        let! fs := lift_res (funs (f self)) in
        match trace self with
        | Some tr =>
            let! rows := mapM (row_multi tr) fs in
            ret (set_jacobian self (jacobian self ++ rows))
        | None => match fs with
                  | [] => ret self
                  | _ :: _ => fail AttributeError
                  end
        end
      else fail (TypeError empty_variables)
  end.

(** [ReverseAD(f, var_list)]: nothing is normalised; [len(var_list)]
    is 1 for a number; seed nodes are created here only when there are
    several variables; the computation runs at once. *)
Definition __init__ (fn : pyfun) (vars : pyvars) : M t :=
  let len_var_list :=
    match vars with
    | VarsNum _ => 1%nat
    | VarsSeq l => length l
    end in
  let! trace :=
    if Nat.ltb 1 len_var_list then
      match vars with
      | VarsSeq l => let! tr := mapM new l in ret (Some tr)
      | VarsNum _ => ret None
      end
    else ret None in
  _compute {| f := fn; var_list := vars; jacobian := [];
              jacobian_single := 0; len_var_list := len_var_list;
              trace := trace |}.

Definition get_primal (self : t) : res (list Q) :=
  raise (NotImplementedError no_primal).

(** [np.array(self.jacobian).flatten().tolist()] *)
Definition flatten (j : list jentry) : list Q :=
  concat (map (fun e => match e with JNum q => [q] | JRow l => l end) j).

(** [get_jacobian] returns its result and leaves the flattened list in
    [self.jacobian]. *)
Definition get_jacobian (self : t) : pyres * t :=
  match var_list self with
  | VarsNum _ => (RNum (jacobian_single self), self)
  | VarsSeq _ =>
      let temp := flatten (jacobian self) in
      (RList temp, set_jacobian self (map JNum temp))
  end.

End ReverseAD.

(** ** Observations and the functions of the test suite *)

(** [ReverseAD(f, var_list).get_jacobian()] run in store [h]. *)
Definition reverse_jacobian (fn : pyfun) (vars : pyvars) (h : rad.store) : res pyres :=
  let* (self, _) := ReverseAD.__init__ fn vars h in
  ok (fst (ReverseAD.get_jacobian self)).

(** [ReverseAD(f, var_list).get_primal()] run in store [h]. *)
Definition reverse_primal (fn : pyfun) (vars : pyvars) (h : rad.store) : res (list Q) :=
  let* (self, _) := ReverseAD.__init__ fn vars h in
  ReverseAD.get_primal self.

(** [AutoDiff(f, var_list).get_jacobian()] and [.get_primal()]. *)
Definition forward_jacobian (fn : pyfun) (vars : pyvars) : res (list jentry) :=
  let* self := AutoDiff.__init__ fn vars in ok (AutoDiff.get_jacobian self).

Definition forward_primal (fn : pyfun) (vars : pyvars) : res (list Q) :=
  let* self := AutoDiff.__init__ fn vars in ok (AutoDiff.get_primal self).

(** [4*x + 3] *)
Definition scalar_fun : expr :=
  Bin OAdd (Bin OMul (Const 4) Arg) (Const 3).

(** [x[0]**2 + 3*x[1] + 5] *)
Definition vector_fun : expr :=
  Bin OAdd (Bin OAdd (Un (OPow 2) (Idx 0)) (Bin OMul (Const 3) (Idx 1))) (Const 5).

(** [(5*x[0] + 50)/(2*x[1]**2)] and [10 + 2*x[1]] *)
Definition func1 : expr :=
  Bin ODiv (Bin OAdd (Bin OMul (Const 5) (Idx 0)) (Const 50))
           (Bin OMul (Const 2) (Un (OPow 2) (Idx 1))).
Definition func2 : expr := Bin OAdd (Const 10) (Bin OMul (Const 2) (Idx 1)).

(** [x[0]*x[1]], a function whose partials depend on the other variable. *)
Definition prod_fun : expr := Bin OMul (Idx 0) (Idx 1).

(** The partial derivative as the specification describes it: one pass
    with coordinate [i]'s tangent 1, every other tangent 0, and every
    primal at the supplied point. *)
Definition one_hot (pt : list Q) (i : nat) : list fad.DualNumber :=
  imap (fun k v => {| fad.real := v;
                      fad.dual := if Nat.eqb k i then 1 else 0 |}) pt.

Definition spec_partial (e : expr) (pt : list Q) (i : nat) : res Q :=
  let* v := fad.call e (AMany (one_hot pt i)) in
  fad.get_dual v.

Definition spec_row (e : expr) (pt : list Q) : res (list Q) :=
  rmap (spec_partial e pt) (seq 0 (length pt)).

(** The point at which the forward driver takes the partial in
    coordinate [i]: coordinate [i] of the supplied point, 0 elsewhere. *)
Definition zeroed (pt : list Q) (i : nat) : list Q :=
  <[i := default 0 (pt !! i)]> (replicate (length pt) 0).

(** The shape of a Jacobian with [m] rows and [n] columns. *)
Definition is_row (n : nat) (j : jentry) : Prop :=
  match j with
  | JRow l => length l = n
  | JNum _ => False
  end.

Definition is_matrix (m n : nat) (j : list jentry) : Prop :=
  length j = m /\ Forall (is_row n) j.

Definition is_num (j : jentry) : Prop :=
  match j with
  | JNum _ => True
  | JRow _ => False
  end.

(** ** Invariants of the store *)

(** Edges point forward: a node is consumed by nodes created after it,
    and every recorded address is in the store. *)
Definition wf (h : rad.store) : Prop :=
  forall i nd, h !! i = Some nd ->
    Forall (fun wc => (i < snd wc < length h)%nat) (rad.child nd).

(** The primals of the nodes, by address; they never change. *)
Definition reals (h : rad.store) : list Q := rad.real <$> h.

(** A node with no edge and no gradient. *)
Definition cleared (h : rad.store) (r : nat) : Prop :=
  exists nd, h !! r = Some nd /\ rad.child nd = [] /\ rad.gradient nd = None.

(** The seed nodes of the variables [vs] sit at addresses [s], [s+1],
    ... and are as [ReverseMode(v)] makes them: no edge, no gradient. *)
Definition seeds_at (h : rad.store) (s : nat) (vs : list Q) : Prop :=
  forall i v, vs !! i = Some v -> h !! (s + i)%nat = Some (rad.fresh v).

Definition valid_val (h : rad.store) (v : val nat) : Prop :=
  match v with
  | VNum _ => True
  | VKer r => (r < length h)%nat
  end.

Definition valid_arg (h : rad.store) (x : arg nat) : Prop :=
  match x with
  | AOne r => (r < length h)%nat
  | AMany l => Forall (fun r => (r < length h)%nat) l
  end.

(** What a computation may do to the store: keep it well formed, add
    nodes at the end, and leave every primal as it is. *)
Definition extends (h h' : rad.store) : Prop :=
  wf h' /\ reals h `prefix_of` reals h'.

(** [safe c h post]: from store [h] the computation [c] is not stuck,
    and if it returns, the result and the final store satisfy [post]. *)
Definition safe {A} (c : rad.M A) (h : rad.store)
    (post : A -> rad.store -> Prop) : Prop :=
  match c h with
  | inl e => e <> Stuck
  | inr (a, h') => post a h'
  end.

(** [related cA cB hA hB post]: [cA] from [hA] and [cB] from [hB] raise
    the same exception, or both return, with results and final stores
    related by [post]. *)
Definition related {A B} (cA : rad.M A) (cB : rad.M B) (hA hB : rad.store)
    (post : A -> rad.store -> B -> rad.store -> Prop) : Prop :=
  match cA hA, cB hB with
  | inl e, inl e' => e = e'
  | inr (a, hA'), inr (b, hB') => post a hA' b hB'
  | _, _ => False
  end.

(** Two runs of the same pass in two stores build the same graph at
    different addresses.  A layout names, for each run, where the seed
    nodes are ([sa], [sb], [sn] of them) and where the nodes created by
    the pass start ([fa], [fb]); [rn] maps an address of the first run
    to the one of the second. *)
Record layout : Type := { sa : nat; sb : nat; sn : nat; fa : nat; fb : nat }.

Definition layout_ok (L : layout) : Prop :=
  (sa L + sn L <= fa L)%nat /\ (sb L + sn L <= fb L)%nat.

Definition rn (L : layout) (i : nat) : nat :=
  if Nat.ltb i (fa L) then (sb L + (i - sa L))%nat else (fb L + (i - fa L))%nat.

Definition live (L : layout) (len : nat) (i : nat) : Prop :=
  (sa L <= i < sa L + sn L)%nat \/ (fa L <= i < len)%nat.

Definition rn_node (L : layout) (nd : rad.ReverseMode) : rad.ReverseMode :=
  {| rad.real := rad.real nd;
     rad.child := map (fun wc => (fst wc, rn L (snd wc))) (rad.child nd);
     rad.gradient := rad.gradient nd |}.

Definition rn_val (L : layout) (v : val nat) : val nat :=
  match v with
  | VNum q => VNum q
  | VKer r => VKer (rn L r)
  end.

Definition rn_arg (L : layout) (x : arg nat) : arg nat :=
  match x with
  | AOne r => AOne (rn L r)
  | AMany l => AMany (rn L <$> l)
  end.

Definition live_val (L : layout) (len : nat) (v : val nat) : Prop :=
  match v with
  | VNum _ => True
  | VKer r => live L len r
  end.

Definition live_arg (L : layout) (len : nat) (x : arg nat) : Prop :=
  match x with
  | AOne r => live L len r
  | AMany l => Forall (live L len) l
  end.

(** The part of the first store the pass can reach is, up to renaming,
    the part of the second store the second run can reach. *)
Record sim (L : layout) (hA hB : rad.store) : Prop := {
  sim_fa : (fa L <= length hA)%nat;
  sim_fb : (fb L <= length hB)%nat;
  sim_len : (length hA - fa L = length hB - fb L)%nat;
  sim_node : forall i, live L (length hA) i ->
    exists nd, hA !! i = Some nd /\
               hB !! rn L i = Some (rn_node L nd) /\
               Forall (fun wc => live L (length hA) (snd wc)) (rad.child nd)
}.

(** What an operation returns in the two runs: the same number, or the
    same node up to renaming. *)
Definition post_val (L : layout) (len : nat) (u : val nat) (hA' : rad.store)
    (u' : val nat) (hB' : rad.store) : Prop :=
  u' = rn_val L u /\ live_val L (length hA') u /\ sim L hA' hB' /\
  (len <= length hA')%nat.

(** What [grad] returns in the two runs: the same number; the stores
    stay related and keep their size. *)
Definition post_grad (L : layout) (hA : rad.store) (a : Q) (hA' : rad.store)
    (b : Q) (hB' : rad.store) : Prop :=
  a = b /\ sim L hA' hB' /\ length hA' = length hA.

(** No node of the store is reachable before a scalar pass starts. *)
Definition scalar_layout (hA hB : rad.store) : layout :=
  {| sa := length hA; sb := length hB; sn := 0;
     fa := length hA; fb := length hB |}.

(** Before a pass over several variables only the seed nodes are
    reachable. *)
Definition seed_layout (s s' n : nat) (hA hB : rad.store) : layout :=
  {| sa := s; sb := s'; sn := n; fa := length hA; fb := length hB |}.

(** The result of a run without its final store. *)
Definition result {A} (r : res (A * rad.store)) : res A :=
  let* p := r in ok (fst p).

(** The field [jacobian] of the object a construction returns. *)
Definition jacobian_field (r : res (ReverseAD.t * rad.store)) : res (list jentry) :=
  let* p := r in ok (ReverseAD.jacobian (fst p)).

(** The Jacobian entry of one function for the variables [l], computed
    in a store that holds nothing but the seed nodes. *)
Definition canon_row (l : list Q) (e : expr) : res jentry :=
  match l with
  | [v] => result (ReverseAD.row_single v e [])
  | _ => result (ReverseAD.row_multi (seq 0 (length l)) e (rad.fresh <$> l))
  end.

(** The argument the forward driver passes to every function for the
    variables [l], and the evaluation of a function at the supplied
    point by the reverse driver, from seed nodes in an empty store. *)
Definition forward_arg (l : list Q) : arg fad.DualNumber :=
  match l with
  | [v] => AOne {| fad.real := v; fad.dual := 1 |}
  | _ => AMany (map (fun v => {| fad.real := v; fad.dual := 1 |}) l)
  end.




(** A store as an earlier invocation may leave it: nodes with edges and
    gradients that nothing resets. *)
Definition stale_store : rad.store :=
  [ {| rad.real := 7; rad.child := [(3, 1%nat)]; rad.gradient := Some 3 |};
    {| rad.real := 21; rad.child := []; rad.gradient := Some 1 |} ].

(** ** Definitions for the further properties *)

(** A body that never reads its argument, and the plain number it
    evaluates to (Python's own arithmetic, no kernel value involved). *)
Fixpoint closed (e : expr) : bool :=
  match e with
  | Arg | Idx _ => false
  | Const _ => true
  | Bin _ a b => closed a && closed b
  | Un _ a => closed a
  end.

Definition plain (e : expr) : res Q :=
  let* v := fad.call e (AMany []) in fad.get_real v.

(** The arrays [AutoDiff.__init__] stores for its two arguments. *)
Definition array_of_funs (fn : pyfun) : list expr :=
  match fn with
  | FunSeq l => l
  | FunBare e => [e]
  end.

Definition array_of_vars (vars : pyvars) : list Q :=
  match vars with
  | VarsSeq l => l
  | VarsNum q => [q]
  end.

(** ** Adjoints *)

(** The sum [grad] forms over the edges of a node, from 0 and in the
    order of the list, when the gradient of the node at [c] is [A c]. *)
Definition edge_sum (A : nat -> Q) (edges : list (Q * nat)) : Q :=
  fold_left (fun acc wc => acc + fst wc * A (snd wc)) edges 0.

Definition node_sum (A : nat -> Q) (G : rad.store) (u : nat) : Q :=
  match G !! u with
  | Some nd => edge_sum A (rad.child nd)
  | None => 0
  end.

(** What [grad] returns for the node at [u] of the store [G], computed
    without the cache: a set gradient as it is, an unset one as the sum
    over the edges. *)
Fixpoint adj (fuel : nat) (G : rad.store) (u : nat) : Q :=
  match fuel with
  | O => 0
  | S k =>
      match G !! u with
      | None => 0
      | Some nd =>
          match rad.gradient nd with
          | Some g => g
          | None => edge_sum (adj k G) (rad.child nd)
          end
      end
  end.

Definition adjoint (G : rad.store) (u : nat) : Q := adj (length G) G u.

(** [memo G0 G]: the store [G] is [G0] with some of the gradients that
    [grad] computes already cached. *)
Definition memo (G0 G : rad.store) : Prop :=
  length G = length G0 /\
  forall u nd0, G0 !! u = Some nd0 ->
    exists nd, G !! u = Some nd /\ rad.real nd = rad.real nd0 /\
               rad.child nd = rad.child nd0 /\
               (rad.gradient nd = rad.gradient nd0 \/
                rad.gradient nd = Some (adjoint G0 u)).

(** The store [G] with the edges [E u] appended to the node at [u]. *)
Definition with_edges (E : nat -> list (Q * nat)) (G : rad.store) : rad.store :=
  imap (fun u nd => {| rad.real := rad.real nd;
                       rad.child := rad.child nd ++ E u;
                       rad.gradient := rad.gradient nd |}) G.

(** The edge an operation records at the node [u] for its operand [v]
    with local partial [p], when the result is the node [z]. *)
Definition link (v : val nat) (p : Q) (z u : nat) : list (Q * nat) :=
  match v with
  | VKer r => if Nat.eqb r u then [(p, z)] else []
  | VNum _ => []
  end.

(** One of the two operands is a node. *)
Definition some_node (va vb : val nat) : Prop :=
  match va, vb with
  | VNum _, VNum _ => False
  | _, _ => True
  end.

(** The tangent of the seed at [r] in the forward pass that tracks the
    seed at [s]. *)
Definition tan (s r : nat) : Q := if Nat.eqb r s then 1 else 0.

(** The seed node at [r] and the dual number the forward pass is given
    in its place. *)
Definition seed_pair (s : nat) (G : rad.store) (r : nat)
    (d : fad.DualNumber) : Prop :=
  exists nd, G !! r = Some nd /\ rad.real nd = fad.real d /\
             fad.dual d = tan s r.

Definition in_arg (x : arg nat) (r : nat) : Prop :=
  match x with
  | AOne r0 => r = r0
  | AMany tr => r ∈ tr
  end.

Definition args_pair (s : nat) (G : rad.store) (x : arg nat)
    (xf : arg fad.DualNumber) : Prop :=
  match x, xf with
  | AOne r, AOne d => seed_pair s G r d
  | AMany tr, AMany ds => Forall2 (seed_pair s G) tr ds
  | _, _ => False
  end.

(** What the evaluation of a function does to the store: primals and
    gradients stay, the nodes below [n0] other than the arguments are
    untouched, and the nodes from [n0] on have no gradient. *)
Definition keeps (G G' : rad.store) : Prop :=
  forall u nd, G !! u = Some nd ->
    exists nd', G' !! u = Some nd' /\ rad.real nd' = rad.real nd /\
                rad.gradient nd' = rad.gradient nd.

Definition grows (n0 : nat) (x : arg nat) (G G' : rad.store) : Prop :=
  keeps G G' /\
  (forall u, (u < n0)%nat -> ~ in_arg x u -> G' !! u = G !! u) /\
  (forall u nd, (n0 <= u)%nat -> G' !! u = Some nd -> rad.gradient nd = None).

(** The forward value [fv] and the reverse value [v] of the same
    expression, evaluated from the store [G] to the store [G']: the same
    number; or an argument; or a new node, the last of the store, with
    the primal of [fv] and no edge yet, such that for any gradients [A]
    that satisfy the equation of [grad] at the other new nodes, the
    edges added to the tracked seed [s] sum to the tangent of [fv] times
    the gradient of the new node. *)
Definition accounted (s : nat) (x : arg nat) (G : rad.store)
    (fv : val fad.DualNumber) (v : val nat) (G' : rad.store) : Prop :=
  match fv, v with
  | VNum q, VNum q' => q = q' /\ G' = G
  | VKer d, VKer r =>
      (G' = G /\ in_arg x r /\ seed_pair s G r d) \/
      ((length G <= r)%nat /\ S r = length G' /\
       G' !! r = Some {| rad.real := fad.real d; rad.child := [];
                         rad.gradient := None |} /\
       grows (length G) x G G' /\
       forall A : nat -> Q,
         (forall u nd, (length G <= u < r)%nat -> G' !! u = Some nd ->
                       A u == edge_sum A (rad.child nd)) ->
         node_sum A G' s == node_sum A G s + fad.dual d * A r)
  | _, _ => False
  end.

(** * Properties *)

(** ** The shape of the forward Jacobian *)

Lemma rmap_ext {A B} (g1 g2 : A -> res B) (xs : list A) :
  (forall x, g1 x = g2 x) -> rmap g1 xs = rmap g2 xs.
Proof.
  intros Hg. induction xs as [|x xs IH]; simpl; [done|].
  by rewrite Hg, IH.
Qed.

Lemma rmap_length {A B} (g : A -> res B) (xs : list A) (ys : list B) :
  rmap g xs = ok ys -> length ys = length xs.
Proof.
  revert ys. induction xs as [|x xs IH]; simpl; intros ys Hys.
  - by inversion Hys.
  - destruct (g x) as [?|y]; simpl in Hys; [done|].
    destruct (rmap g xs) as [?|ys']; simpl in Hys; [done|].
    inversion Hys; subst. simpl. f_equal. by apply IH.
Qed.

(** One turn of the loop appends one primal and one Jacobian entry: a
    number when there is one variable, a row of [len_var_list] partials
    otherwise.  The entry depends on the object only through its trace
    and its number of variables. *)
Lemma compute_one_frame (self1 self2 : AutoDiff.t) (e : expr) :
  AutoDiff.len_var_list self1 = AutoDiff.len_var_list self2 ->
  AutoDiff.trace self1 = AutoDiff.trace self2 ->
  match AutoDiff.compute_one self1 e with
  | inl x => AutoDiff.compute_one self2 e = inl x
  | inr s1 =>
      exists p j,
        s1 = AutoDiff.append_result self1 p j /\
        AutoDiff.compute_one self2 e = ok (AutoDiff.append_result self2 p j) /\
        (AutoDiff.len_var_list self1 = 1%nat -> is_num j) /\
        (AutoDiff.len_var_list self1 <> 1%nat ->
         is_row (AutoDiff.len_var_list self1) j)
  end.
Proof.
  intros Hn Ht. unfold AutoDiff.compute_one. rewrite <- Hn, <- Ht.
  destruct (Nat.eqb_spec (AutoDiff.len_var_list self1) 1) as [H1|H1].
  - destruct (AutoDiff.trace self1) as [|x0 tr]; [done|].
    destruct (fad.call e (AOne x0)) as [?|value]; simpl; [done|].
    destruct value as [q|d]; simpl; [done|].
    eexists _, _. repeat split; done.
  - destruct (fad.call e (AMany (AutoDiff.trace self1))) as [?|value];
      simpl; [done|].
    rewrite (rmap_ext (AutoDiff.partial_at self2 e value)
                      (AutoDiff.partial_at self1 e value)).
    2:{ intros i. unfold AutoDiff.partial_at. by rewrite Hn, Ht. }
    destruct (rmap _ _) as [?|tangent] eqn:Htan; simpl; [done|].
    apply rmap_length in Htan. rewrite length_seq in Htan.
    destruct value as [q|d]; simpl; eexists _, _; repeat split; done.
Qed.

Lemma compute_loop_spec (fs : list expr) (self self' : AutoDiff.t) :
  AutoDiff.compute_loop self fs = ok self' ->
  AutoDiff.len_var_list self' = AutoDiff.len_var_list self /\
  AutoDiff.trace self' = AutoDiff.trace self /\
  exists js,
    AutoDiff.jacobian self' = AutoDiff.jacobian self ++ js /\
    length js = length fs /\
    (AutoDiff.len_var_list self = 1%nat -> Forall is_num js) /\
    (AutoDiff.len_var_list self <> 1%nat ->
     Forall (is_row (AutoDiff.len_var_list self)) js) /\
    forall k e self0,
      fs !! k = Some e ->
      AutoDiff.len_var_list self0 = AutoDiff.len_var_list self ->
      AutoDiff.trace self0 = AutoDiff.trace self ->
      exists p jk,
        AutoDiff.compute_one self0 e = ok (AutoDiff.append_result self0 p jk) /\
        js !! k = Some jk.
Proof.
  revert self. induction fs as [|e fs IH]; intros self Hrun; simpl in Hrun.
  - inversion Hrun; subst. repeat split; [].
    exists []. rewrite app_nil_r. repeat split; try done.
  - pose proof (compute_one_frame self self e eq_refl eq_refl) as Hone.
    destruct (AutoDiff.compute_one self e) as [?|s1] eqn:Hs1; simpl in Hrun;
      [done|].
    destruct Hone as (p & j & -> & _ & Hnum & Hrow).
    apply IH in Hrun as (Hlen & Htr & js & Hjs & Hlen_js & Hnums & Hrows & Hk).
    simpl in Hlen, Htr, Hjs, Hnums, Hrows, Hk.
    repeat split; [done..|].
    exists (j :: js). rewrite <- app_assoc in Hjs. simpl in Hjs.
    repeat split; [done|simpl; lia|by constructor; auto|by constructor; auto|].
    intros [|k] e0 self0 He0 Hn0 Ht0; simpl in He0.
    + inversion He0; subst e0.
      pose proof (compute_one_frame self self0 e (eq_sym Hn0) (eq_sym Ht0)) as H0.
      rewrite Hs1 in H0. destruct H0 as (p' & j' & Heq & H0 & _).
      assert (j' = j /\ p' = p) as [-> ->].
      { apply (f_equal AutoDiff.jacobian) in Heq as Hj.
        apply (f_equal AutoDiff.primal) in Heq as Hp. simpl in Hj, Hp.
        apply app_inv_head in Hj. apply app_inv_head in Hp.
        by inversion Hj; inversion Hp. }
      by exists p, j.
    + by apply (Hk k e0 self0).
Qed.

Lemma compute_loop_primal (fs : list expr) (self self' : AutoDiff.t) :
  AutoDiff.compute_loop self fs = ok self' ->
  exists ps,
    AutoDiff.primal self' = AutoDiff.primal self ++ ps /\
    length ps = length fs /\
    forall k e self0,
      fs !! k = Some e ->
      AutoDiff.len_var_list self0 = AutoDiff.len_var_list self ->
      AutoDiff.trace self0 = AutoDiff.trace self ->
      exists p jk,
        AutoDiff.compute_one self0 e = ok (AutoDiff.append_result self0 p jk) /\
        ps !! k = Some p.
Proof.
  revert self. induction fs as [|e fs IH]; intros self Hrun; simpl in Hrun.
  - inversion Hrun; subst. exists []. rewrite app_nil_r. by repeat split.
  - pose proof (compute_one_frame self self e eq_refl eq_refl) as Hone.
    destruct (AutoDiff.compute_one self e) as [?|s1] eqn:Hs1; simpl in Hrun;
      [done|].
    destruct Hone as (p & j & -> & _ & _ & _).
    apply IH in Hrun as (ps & Hps & Hlen & Hk). simpl in Hps, Hk.
    exists (p :: ps). rewrite <- app_assoc in Hps. simpl in Hps.
    split; [done|]. split; [simpl; lia|].
    intros [|k] e0 self0 He0 Hn0 Ht0; simpl in He0.
    + inversion He0; subst e0.
      pose proof (compute_one_frame self self0 e (eq_sym Hn0) (eq_sym Ht0)) as H0.
      rewrite Hs1 in H0. destruct H0 as (p' & j' & Heq & H0 & _).
      assert (j' = j /\ p' = p) as [-> ->].
      { apply (f_equal AutoDiff.jacobian) in Heq as Hj.
        apply (f_equal AutoDiff.primal) in Heq as Hp. simpl in Hj, Hp.
        apply app_inv_head in Hj. apply app_inv_head in Hp.
        by inversion Hj; inversion Hp. }
      by exists p, j.
    + by apply (Hk k e0 self0).
Qed.

(** In the forward driver the results of the functions handled earlier
    do not reach the later ones: entry [k] of the primal and of the
    Jacobian are what function [k] gives in a driver of its own. *)
Lemma forward_entries_alone (fs : list expr) (vars : pyvars)
    (ad : AutoDiff.t) (k : nat) (e : expr) :
  AutoDiff.__init__ (FunSeq fs) vars = ok ad -> fs !! k = Some e ->
  exists pk jk,
    AutoDiff.get_primal ad !! k = Some pk /\
    AutoDiff.get_jacobian ad !! k = Some jk /\
    forward_primal (FunSeq [e]) vars = ok [pk] /\
    forward_jacobian (FunSeq [e]) vars = ok [jk].
Proof.
  unfold forward_primal, forward_jacobian, AutoDiff.__init__, AutoDiff._compute.
  simpl. set (l := match vars with VarsNum q => [q] | VarsSeq l => l end).
  set (self0 := {| AutoDiff.f := fs |}). intros Hrun He.
  pose proof (compute_loop_spec _ _ _ Hrun) as (_ & _ & js & Hjs & _ & _ & _ & Hj).
  pose proof (compute_loop_primal _ _ _ Hrun) as (ps & Hps & _ & Hp).
  set (self1 := {| AutoDiff.f := [e] |}).
  destruct (Hj k e self1 He eq_refl eq_refl) as (p & jk & Hone & Hjk).
  destruct (Hp k e self1 He eq_refl eq_refl) as (pk & j' & Hone' & Hpk).
  rewrite Hone in Hone'. assert (pk = p) as -> by (by inversion Hone').
  exists p, jk. unfold AutoDiff.get_primal, AutoDiff.get_jacobian.
  rewrite Hps, Hjs. simpl. rewrite Hone. simpl. done.
Qed.

Lemma rmap_ext_in {A B} (g1 g2 : A -> res B) (xs : list A) :
  (forall x, x ∈ xs -> g1 x = g2 x) -> rmap g1 xs = rmap g2 xs.
Proof.
  induction xs as [|x xs IH]; intros Hg; simpl; [done|].
  rewrite Hg by left. rewrite IH; [done|]. intros y Hy. apply Hg. by right.
Qed.

(** The list [y] that [_compute] builds for coordinate [i] is the
    one-hot seeding of the point whose other coordinates are 0. *)
Lemma one_hot_zeroed (pt : list Q) (i : nat) (x : Q) :
  pt !! i = Some x ->
  one_hot (zeroed pt i) i =
  <[i := {| fad.real := x; fad.dual := 1 |}]>
    (replicate (length pt) {| fad.real := 0; fad.dual := 0 |}).
Proof.
  intros Hi. pose proof (lookup_lt_Some _ _ _ Hi) as Hlt.
  apply list_eq. intros k. unfold one_hot, zeroed.
  rewrite list_lookup_imap, Hi. simpl.
  destruct (decide (k = i)) as [->|Hne].
  - rewrite !list_lookup_insert_eq by (by rewrite length_replicate).
    simpl. by rewrite Nat.eqb_refl.
  - rewrite !list_lookup_insert_ne by done.
    destruct (decide (k < length pt)%nat) as [Hk|Hk].
    + rewrite !lookup_replicate_2 by done. simpl.
      by destruct (Nat.eqb_spec k i).
    + by rewrite !(proj1 (lookup_replicate_None _ _ _)) by lia.
Qed.

(** With a number of variables other than one, the row the forward
    driver computes for a function is the row of its one-hot partials,
    each taken at the point whose other coordinates are 0. *)
Lemma forward_row_at_zeroed_points (e : expr) (l : list Q) :
  length l <> 1%nat ->
  forward_jacobian (FunSeq [e]) (VarsSeq l) =
  let* _ := fad.call e (forward_arg l) in
  let* row := rmap (fun i => spec_partial e (zeroed l i) i) (seq 0 (length l)) in
  ok [JRow row].
Proof.
  intros Hl. unfold forward_jacobian, AutoDiff.__init__, AutoDiff._compute.
  simpl. unfold AutoDiff.compute_one. simpl.
  destruct (Nat.eqb_spec (length l) 1) as [|_]; [done|].
  assert (forward_arg l =
          AMany (map (fun v => {| fad.real := v; fad.dual := 1 |}) l)) as ->.
  { by destruct l as [|v [|v' l]]. }
  destruct (fad.call e (AMany _)) as [?|value]; simpl; [done|].
  set (self0 := {| AutoDiff.f := [e] |}).
  rewrite (rmap_ext_in (AutoDiff.partial_at self0 e value)
                       (fun i => spec_partial e (zeroed l i) i)).
  { destruct (rmap _ (seq 0 (length l))) as [?|row]; simpl; [done|].
    by destruct value. }
  intros i Hi. apply elem_of_seq in Hi as [_ Hi]. simpl in Hi.
  destruct (lookup_lt_is_Some_2 l i Hi) as [x Hx].
  unfold AutoDiff.partial_at, spec_partial. simpl.
  rewrite list_lookup_fmap, Hx. simpl.
  rewrite (one_hot_zeroed l i x Hx).
  destruct (fad.call e (AMany _)) as [?|fy]; simpl; [done|].
  destruct (fad.get_dual fy); simpl; [done|]. by destruct value.
Qed.

(** Creating the seed nodes never fails: the new nodes take the next
    addresses, in order. *)
Lemma mapM_new_ok (l : list Q) (h : rad.store) :
  rad.mapM rad.new l h = ok (seq (length h) (length l), h ++ (rad.fresh <$> l)).
Proof.
  revert h. induction l as [|v l IH]; intros h; simpl.
  - unfold rad.ret. by rewrite app_nil_r.
  - unfold rad.bind at 1. unfold rad.new at 1. simpl.
    unfold rad.bind at 1. rewrite IH. unfold rad.ret. simpl.
    rewrite length_app. simpl. rewrite Nat.add_1_r.
    by rewrite <- app_assoc.
Qed.

(** ** The store: one run *)

Section Safe.
Import rad.

Lemma safe_ret {A} (a : A) (h : store) (post : A -> store -> Prop) :
  post a h -> safe (ret a) h post.
Proof. done. Qed.

Lemma safe_fail {A} (e : exn) (h : store) (post : A -> store -> Prop) :
  e <> Stuck -> safe (fail e) h post.
Proof. done. Qed.

Lemma safe_bind {A B} (c : M A) (k : A -> M B) (h : store)
    (post : B -> store -> Prop) :
  safe c h (fun a h' => safe (k a) h' post) -> safe (bind c k) h post.
Proof. unfold safe, bind. by destruct (c h) as [e|[a h']]. Qed.

Lemma safe_mono {A} (c : M A) (h : store) (P Q : A -> store -> Prop) :
  safe c h P -> (forall a h', P a h' -> Q a h') -> safe c h Q.
Proof. unfold safe. destruct (c h) as [e|[a h']]; auto. Qed.

Lemma safe_lift_res {A} (r : res A) (h : store) (post : A -> store -> Prop) :
  r <> raise Stuck -> (forall a, r = ok a -> post a h) ->
  safe (lift_res r) h post.
Proof.
  unfold safe, lift_res. destruct r as [e|a]; simpl; [|by auto].
  intros He _ ->. by apply He.
Qed.

Lemma safe_new (v : Q) (h : store) (post : nat -> store -> Prop) :
  post (length h) (h ++ [fresh v]) -> safe (new v) h post.
Proof. done. Qed.

Lemma safe_get (r : nat) (nd : ReverseMode) (h : store)
    (post : ReverseMode -> store -> Prop) :
  h !! r = Some nd -> post nd h -> safe (get r) h post.
Proof. unfold safe, get. by intros ->. Qed.

Lemma safe_update (r : nat) (g : ReverseMode -> ReverseMode)
    (nd : ReverseMode) (h : store) (post : unit -> store -> Prop) :
  h !! r = Some nd -> post tt (<[r := g nd]> h) -> safe (update r g) h post.
Proof. unfold safe, update. by intros ->. Qed.

Lemma local2_not_stuck op a b : local2 op a b <> raise Stuck.
Proof. destruct op; simpl; try done. by destruct (Qeq_bool b 0). Qed.

Lemma local1_not_stuck op a : local1 op a <> raise Stuck.
Proof. destruct op; simpl; try done. by destruct (ef_dom u a). Qed.

Lemma native2_not_stuck op a b : native2 op a b <> raise Stuck.
Proof. destruct op; simpl; try done. by destruct (Qeq_bool b 0). Qed.

Lemma native1_not_stuck op a : native1 op a <> raise Stuck.
Proof.
  unfold native1. pose proof (local1_not_stuck op a).
  by destruct (local1 op a) as [[]|].
Qed.

(** *** Well-formedness and primals under the primitive updates *)

Lemma wf_nil : wf [].
Proof. intros i nd Hi. by destruct i. Qed.

Lemma extends_refl h : wf h -> extends h h.
Proof. by split. Qed.

Lemma extends_trans h1 h2 h3 : extends h1 h2 -> extends h2 h3 -> extends h1 h3.
Proof. intros [_ H12] [? H23]. split; [done|]. by etrans. Qed.

Lemma extends_length h h' : extends h h' -> (length h <= length h')%nat.
Proof.
  intros [_ Hp]. apply prefix_length in Hp.
  unfold reals in Hp. by rewrite !length_fmap in Hp.
Qed.

Lemma extends_real h h' r nd :
  extends h h' -> h !! r = Some nd ->
  exists nd', h' !! r = Some nd' /\ real nd' = real nd.
Proof.
  intros [_ Hp] Hr.
  assert (reals h' !! r = Some (real nd)) as Hr'.
  { eapply prefix_lookup_Some; [|done]. unfold reals.
    by rewrite list_lookup_fmap, Hr. }
  unfold reals in Hr'. rewrite list_lookup_fmap in Hr'.
  destruct (h' !! r) as [nd'|]; simpl in Hr'; [|done].
  exists nd'. split; [done|]. by inversion Hr'.
Qed.

Lemma wf_app_fresh h v : wf h -> wf (h ++ [fresh v]).
Proof.
  intros Hwf i nd Hi. rewrite length_app. simpl.
  apply lookup_app_Some in Hi as [Hi|[_ Hi]].
  - eapply Forall_impl; [by apply (Hwf i nd)|]. simpl. lia.
  - apply list_lookup_singleton_Some in Hi as [_ <-]. constructor.
Qed.

Lemma extends_app_fresh h v : wf h -> extends h (h ++ [fresh v]).
Proof.
  intros Hwf. split; [by apply wf_app_fresh|].
  unfold reals. rewrite fmap_app. by apply prefix_app_r.
Qed.

Lemma wf_insert h r nd' :
  wf h ->
  Forall (fun wc => (r < snd wc < length h)%nat) (child nd') ->
  wf (<[r := nd']> h).
Proof.
  intros Hwf Hch i nd Hi. rewrite length_insert.
  destruct (decide (r = i)) as [->|Hne].
  - apply list_lookup_insert_Some in Hi as [(_ & <- & _)|[? _]]; done.
  - rewrite list_lookup_insert_ne in Hi by done. by apply (Hwf i nd).
Qed.

Lemma extends_insert h r nd nd' :
  wf h -> h !! r = Some nd -> real nd' = real nd ->
  Forall (fun wc => (r < snd wc < length h)%nat) (child nd') ->
  extends h (<[r := nd']> h).
Proof.
  intros Hwf Hr Hreal Hch. split; [by apply wf_insert|].
  unfold reals. rewrite list_fmap_insert, Hreal.
  rewrite list_insert_id; [done|]. by rewrite list_lookup_fmap, Hr.
Qed.

Lemma valid_val_mono h h' v :
  (length h <= length h')%nat -> valid_val h v -> valid_val h' v.
Proof. destruct v; simpl; [done|lia]. Qed.

Lemma valid_arg_mono h h' x :
  (length h <= length h')%nat -> valid_arg h x -> valid_arg h' x.
Proof.
  intros Hle. destruct x; simpl; [lia|].
  intros Hl. eapply Forall_impl; [done|]. simpl. intros; lia.
Qed.

Lemma safe_add_child h r w z :
  wf h -> (r < z < length h)%nat ->
  safe (add_child r w z) h
       (fun _ h' => extends h h' /\ length h' = length h).
Proof.
  intros Hwf [Hrz Hz].
  destruct (lookup_lt_is_Some_2 h r) as [nd Hnd]; [lia|].
  eapply safe_update; [done|]. split; [|by rewrite length_insert].
  eapply extends_insert; [done..|]. simpl.
  apply Forall_app. split; [by apply (Hwf r nd)|].
  by repeat constructor.
Qed.

Lemma safe_set_gradient h r g :
  wf h -> (r < length h)%nat ->
  safe (set_gradient r g) h
       (fun _ h' => extends h h' /\ length h' = length h /\
          exists nd, h !! r = Some nd /\
            h' = <[r := {| real := real nd; child := child nd;
                           gradient := g |}]> h).
Proof.
  intros Hwf Hr.
  destruct (lookup_lt_is_Some_2 h r) as [nd Hnd]; [lia|].
  eapply safe_update; [done|].
  split; [|split; [by rewrite length_insert|by exists nd]].
  eapply extends_insert; [done..|]. by apply (Hwf r nd).
Qed.

Lemma safe_clear_child h r :
  wf h -> (r < length h)%nat ->
  safe (clear_child r) h
       (fun _ h' => extends h h' /\ length h' = length h /\
          exists nd, h !! r = Some nd /\
            h' = <[r := {| real := real nd; child := [];
                           gradient := gradient nd |}]> h).
Proof.
  intros Hwf Hr.
  destruct (lookup_lt_is_Some_2 h r) as [nd Hnd]; [lia|].
  eapply safe_update; [done|].
  split; [|split; [by rewrite length_insert|by exists nd]].
  eapply extends_insert; [done..|]. constructor.
Qed.

(** The result node of an operation on one input node. *)
Lemma safe_new_edge h r w v :
  wf h -> (r < length h)%nat ->
  safe (bind (new v) (fun z => bind (add_child r w z) (fun _ => ret (VKer z)))) h
       (fun u h' => extends h h' /\ valid_val h' u).
Proof.
  intros Hwf Hr. apply safe_bind, safe_new, safe_bind.
  eapply safe_mono.
  { apply safe_add_child; [by apply wf_app_fresh|].
    rewrite length_app. simpl. lia. }
  intros [] h1 [Hext Hlen]. apply safe_ret. split.
  - eapply extends_trans; [by apply extends_app_fresh|done].
  - simpl. rewrite Hlen, length_app. simpl. lia.
Qed.

Lemma safe_apply2 op a b h :
  wf h -> valid_val h a -> valid_val h b ->
  safe (apply2 op a b) h (fun v h' => extends h h' /\ valid_val h' v).
Proof.
  intros Hwf Ha Hb. destruct a as [x|ra], b as [y|rb]; simpl in *.
  - apply safe_bind, safe_lift_res; [apply native2_not_stuck|].
    intros v _. apply safe_ret. split; [by apply extends_refl|done].
  - destruct (lookup_lt_is_Some_2 h rb) as [nb Hnb]; [lia|].
    apply safe_bind. eapply safe_get; [done|].
    apply safe_bind, safe_lift_res; [apply local2_not_stuck|].
    intros [[v pa] pb] _. by apply safe_new_edge.
  - destruct (lookup_lt_is_Some_2 h ra) as [na Hna]; [lia|].
    apply safe_bind. eapply safe_get; [done|].
    apply safe_bind, safe_lift_res; [apply local2_not_stuck|].
    intros [[v pa] pb] _. by apply safe_new_edge.
  - destruct (lookup_lt_is_Some_2 h ra) as [na Hna]; [lia|].
    destruct (lookup_lt_is_Some_2 h rb) as [nb Hnb]; [lia|].
    apply safe_bind. eapply safe_get; [done|].
    apply safe_bind. eapply safe_get; [done|].
    apply safe_bind, safe_lift_res; [apply local2_not_stuck|].
    intros [[v pa] pb] _. apply safe_bind, safe_new, safe_bind.
    assert (length (h ++ [fresh v]) = S (length h)) as Hlen0.
    { rewrite length_app. simpl. lia. }
    eapply safe_mono.
    { apply safe_add_child; [by apply wf_app_fresh|]. lia. }
    intros [] h1 [Hext1 Hlen1]. apply safe_bind.
    eapply safe_mono.
    { apply safe_add_child; [by destruct Hext1|]. lia. }
    intros [] h2 [Hext2 Hlen2]. apply safe_ret. split.
    + eapply extends_trans; [by apply extends_app_fresh|].
      by eapply extends_trans.
    + simpl. lia.
Qed.

Lemma safe_apply1 op a h :
  wf h -> valid_val h a ->
  safe (apply1 op a) h (fun v h' => extends h h' /\ valid_val h' v).
Proof.
  intros Hwf Ha. destruct a as [x|ra]; simpl in *.
  - apply safe_bind, safe_lift_res; [apply native1_not_stuck|].
    intros v _. apply safe_ret. split; [by apply extends_refl|done].
  - destruct (lookup_lt_is_Some_2 h ra) as [na Hna]; [lia|].
    apply safe_bind. eapply safe_get; [done|].
    apply safe_bind, safe_lift_res; [apply local1_not_stuck|].
    intros [v pa] _. by apply safe_new_edge.
Qed.

Lemma safe_call e x : forall h,
  wf h -> valid_arg h x ->
  safe (call e x) h (fun v h' => extends h h' /\ valid_val h' v).
Proof.
  induction e as [|i|c|op a IHa b IHb|op a IHa]; intros h Hwf Hx; simpl.
  - apply safe_bind, safe_lift_res; [by destruct x|].
    intros r Hr. apply safe_ret. split; [by apply extends_refl|].
    destruct x; simpl in *; [|done]. by inversion Hr; subst.
  - apply safe_bind, safe_lift_res.
    { destruct x as [|l]; simpl; [done|]. by destruct (l !! i). }
    intros r Hr. apply safe_ret. split; [by apply extends_refl|].
    destruct x as [|l]; simpl in *; [done|].
    destruct (l !! i) as [r'|] eqn:Hi; [|done]. inversion Hr; subst.
    by eapply Forall_lookup_1 in Hx.
  - apply safe_ret. split; [by apply extends_refl|done].
  - apply safe_bind. eapply safe_mono; [by apply IHa|].
    intros va h1 [Hext1 Hva]. apply safe_bind.
    pose proof (extends_length _ _ Hext1) as Hle1.
    eapply safe_mono.
    { apply IHb; [by destruct Hext1|by eapply valid_arg_mono]. }
    intros vb h2 [Hext2 Hvb].
    pose proof (extends_length _ _ Hext2) as Hle2.
    eapply safe_mono.
    { apply safe_apply2; [by destruct Hext2| |done].
      by eapply valid_val_mono. }
    intros v h3 [Hext3 Hv]. split; [|done].
    eapply extends_trans; [done|]. by eapply extends_trans.
  - apply safe_bind. eapply safe_mono; [by apply IHa|].
    intros va h1 [Hext1 Hva].
    eapply safe_mono; [apply safe_apply1; [by destruct Hext1|done]|].
    intros v h2 [Hext2 Hv]. split; [|done]. by eapply extends_trans.
Qed.

Lemma safe_seed z h :
  wf h -> valid_val h z ->
  safe (seed z) h (fun _ h' => extends h h' /\ length h' = length h).
Proof.
  intros Hwf Hz. destruct z as [q|r]; simpl; [done|].
  eapply safe_mono; [by apply safe_set_gradient|].
  by intros [] h' (? & ? & _).
Qed.

(** *** [grad]: enough fuel *)

Lemma safe_sum_edges (rec : nat -> M Q) (n : nat) (P : nat -> Prop) :
  (forall c h, wf h -> length h = n -> P c ->
     safe (rec c) h (fun _ h' => extends h h' /\ length h' = length h)) ->
  forall l acc h, wf h -> length h = n -> Forall (fun wc => P (snd wc)) l ->
    safe (sum_edges rec l acc) h
         (fun _ h' => extends h h' /\ length h' = length h).
Proof.
  intros Hrec. induction l as [|[w c] l IH]; intros acc h Hwf Hn Hl; simpl.
  - apply safe_ret. split; [by apply extends_refl|done].
  - inversion Hl as [|? ? Hc Hl']; subst. simpl in Hc.
    apply safe_bind. eapply safe_mono; [by apply Hrec|].
    intros g h1 [Hext1 Hlen1]. simpl.
    eapply safe_mono; [apply IH; [by destruct Hext1|done..]|].
    intros s h2 [Hext2 Hlen2]. split; [by eapply extends_trans|lia].
Qed.

Lemma safe_grad k : forall r h,
  wf h -> (r < length h)%nat -> (length h - r <= k)%nat ->
  safe (grad k r) h (fun _ h' => extends h h' /\ length h' = length h).
Proof.
  induction k as [|k IH]; intros r h Hwf Hr Hk; [lia|]. simpl.
  destruct (lookup_lt_is_Some_2 h r) as [nd Hnd]; [lia|].
  apply safe_bind. eapply safe_get; [done|].
  destruct (gradient nd) as [g|].
  { apply safe_ret. split; [by apply extends_refl|done]. }
  apply safe_bind. eapply safe_mono.
  { apply (safe_sum_edges (grad k) (length h)
             (fun c => (r < c < length h)%nat)); [|done..|by apply (Hwf r nd)].
    intros c h1 Hwf1 Hlen1 Hc. apply IH; [done|lia..]. }
  intros s h1 [Hext1 Hlen1]. apply safe_bind.
  eapply safe_mono; [apply safe_set_gradient; [by destruct Hext1|lia]|].
  intros [] h2 (Hext2 & Hlen2 & _). apply safe_ret.
  split; [by eapply extends_trans|lia].
Qed.

Lemma safe_grad_top r h :
  wf h -> (r < length h)%nat ->
  safe (grad_top r) h (fun _ h' => extends h h' /\ length h' = length h).
Proof. intros Hwf Hr. unfold grad_top. apply (safe_grad (length h)); [done..|lia]. Qed.

Lemma sum_edges_mono (rec rec' : nat -> M Q) :
  (forall c h x, rec c h = ok x -> rec' c h = ok x) ->
  forall l acc h x, sum_edges rec l acc h = ok x -> sum_edges rec' l acc h = ok x.
Proof.
  intros Hrec. induction l as [|[w c] l IH]; intros acc h x; simpl; [done|].
  unfold bind. destruct (rec c h) as [?|[g h1]] eqn:Hc; [done|].
  rewrite (Hrec _ _ _ Hc). apply IH.
Qed.

Lemma grad_fuel_S k : forall r h x,
  grad k r h = ok x -> grad (S k) r h = ok x.
Proof.
  induction k as [|k IH]; intros r h x; [done|].
  intros Hg. change (grad (S k) r h) with
    (bind (get r) (fun nd => match gradient nd with
       | Some g => ret g
       | None => bind (sum_edges (grad k) (child nd) 0)
                   (fun s => bind (set_gradient r (Some s)) (fun _ => ret s))
       end) h) in Hg.
  change (grad (S (S k)) r h) with
    (bind (get r) (fun nd => match gradient nd with
       | Some g => ret g
       | None => bind (sum_edges (grad (S k)) (child nd) 0)
                   (fun s => bind (set_gradient r (Some s)) (fun _ => ret s))
       end) h).
  unfold bind at 1 in Hg. unfold bind at 1.
  destruct (get r h) as [?|[nd h0]]; [done|].
  destruct (gradient nd); [done|].
  unfold bind at 1 in Hg. unfold bind at 1.
  destruct (sum_edges (grad k) (child nd) 0 h0) as [?|[s h1]] eqn:Hs; [done|].
  by rewrite (sum_edges_mono _ _ IH _ _ _ _ Hs).
Qed.

Lemma grad_fuel_le k k' r h x :
  (k <= k')%nat -> grad k r h = ok x -> grad k' r h = ok x.
Proof. induction 1; [done|]. intros. by apply grad_fuel_S, IHle. Qed.

End Safe.

Section OnlyStuck.
Import rad.

(** [grad] itself raises nothing but the model's [Stuck], so with enough
    fuel it returns. *)
Lemma sum_edges_only_stuck (rec : nat -> M Q) :
  (forall c h e, rec c h = inl e -> e = Stuck) ->
  forall l acc h e, sum_edges rec l acc h = inl e -> e = Stuck.
Proof.
  intros Hrec. induction l as [|[w c] l IH]; intros acc h e; simpl; [done|].
  unfold bind. destruct (rec c h) as [e'|[g h1]] eqn:Hc.
  - intros [= <-]. by eapply Hrec.
  - apply IH.
Qed.

Lemma grad_only_stuck k : forall r h e, grad k r h = inl e -> e = Stuck.
Proof.
  induction k as [|k IH]; intros r h e; simpl.
  - by intros [= <-].
  - unfold bind at 1. unfold get at 1.
    destruct (h !! r) as [nd|]; [|by intros [= <-]]. simpl.
    destruct (gradient nd); [done|].
    unfold bind at 1.
    destruct (sum_edges (grad k) (child nd) 0 h) as [e'|[s h1]] eqn:Hs.
    + intros [= <-]. by eapply sum_edges_only_stuck.
    + unfold bind, set_gradient, update.
      destruct (h1 !! r); [done|]. by intros [= <-].
Qed.

Lemma grad_ok k r h :
  wf h -> (r < length h)%nat -> (length h - r <= k)%nat ->
  exists g h', grad k r h = ok (g, h') /\ extends h h' /\ length h' = length h.
Proof.
  intros Hwf Hr Hk. pose proof (safe_grad k r h Hwf Hr Hk) as Hsafe.
  unfold safe in Hsafe. destruct (grad k r h) as [e|[g h']] eqn:Hg.
  - by apply grad_only_stuck in Hg.
  - by exists g, h'.
Qed.

End OnlyStuck.

(** ** The store: two runs of one pass *)

Section Related.
Import rad.

Lemma related_ret {A B} (a : A) (b : B) hA hB
    (post : A -> store -> B -> store -> Prop) :
  post a hA b hB -> related (ret a) (ret b) hA hB post.
Proof. done. Qed.

Lemma related_fail {A B} (e : exn) hA hB
    (post : A -> store -> B -> store -> Prop) :
  related (fail e) (fail e) hA hB post.
Proof. done. Qed.

Lemma related_bind {A A' B B'} (cA : M A) (kA : A -> M A')
    (cB : M B) (kB : B -> M B') hA hB
    (post : A' -> store -> B' -> store -> Prop) :
  related cA cB hA hB (fun a hA' b hB' => related (kA a) (kB b) hA' hB' post) ->
  related (bind cA kA) (bind cB kB) hA hB post.
Proof.
  unfold related, bind.
  by destruct (cA hA) as [?|[a hA']], (cB hB) as [?|[b hB']].
Qed.

Lemma related_mono {A B} (cA : M A) (cB : M B) hA hB
    (P Q : A -> store -> B -> store -> Prop) :
  related cA cB hA hB P ->
  (forall a hA' b hB', P a hA' b hB' -> Q a hA' b hB') ->
  related cA cB hA hB Q.
Proof.
  unfold related.
  destruct (cA hA) as [?|[a hA']], (cB hB) as [?|[b hB']]; auto.
Qed.

Lemma related_lift_res {A} (r : res A) hA hB
    (post : A -> store -> A -> store -> Prop) :
  (forall a, r = ok a -> post a hA a hB) ->
  related (lift_res r) (lift_res r) hA hB post.
Proof. unfold related, lift_res. destruct r; simpl; auto. Qed.

Lemma related_safe {A B} (cA : M A) (cB : M B) hA hB
    (P : A -> store -> Prop) (Q : B -> store -> Prop)
    (R : A -> store -> B -> store -> Prop) :
  safe cA hA P -> safe cB hB Q -> related cA cB hA hB R ->
  related cA cB hA hB (fun a hA' b hB' => P a hA' /\ Q b hB' /\ R a hA' b hB').
Proof.
  unfold safe, related.
  destruct (cA hA) as [?|[a hA']], (cB hB) as [?|[b hB']]; auto.
Qed.

Variable L : layout.
Hypothesis HL : layout_ok L.

Lemma live_mono len len' i : (len <= len')%nat -> live L len i -> live L len' i.
Proof. unfold live. lia. Qed.

Lemma rn_inj len i j : live L len i -> live L len j -> rn L i = rn L j -> i = j.
Proof.
  destruct HL. unfold live, rn.
  destruct (Nat.ltb_spec i (fa L)), (Nat.ltb_spec j (fa L)); lia.
Qed.

Lemma sim_lt hA hB i :
  sim L hA hB -> live L (length hA) i ->
  (i < length hA)%nat /\ (rn L i < length hB)%nat.
Proof.
  intros Hsim Hi. destruct (sim_node _ _ _ Hsim i Hi) as (nd & HA & HB & _).
  split; by eapply lookup_lt_Some.
Qed.

Lemma sim_rn_length hA hB : sim L hA hB -> rn L (length hA) = length hB.
Proof.
  intros [Hfa Hfb Hlen _]. unfold rn.
  destruct (Nat.ltb_spec (length hA) (fa L)); lia.
Qed.

Lemma rn_node_fresh v : rn_node L (fresh v) = fresh v.
Proof. done. Qed.

Lemma sim_app_fresh hA hB v :
  sim L hA hB -> sim L (hA ++ [fresh v]) (hB ++ [fresh v]).
Proof.
  intros Hsim. pose proof (sim_rn_length _ _ Hsim) as Hrn.
  destruct Hsim as [Hfa Hfb Hlen Hnode].
  split; rewrite ?length_app; simpl; [lia..|].
  intros i Hi.
  destruct (decide (i = length hA)) as [->|Hne].
  - exists (fresh v). rewrite Hrn.
    split; [|split; [|constructor]].
    + rewrite lookup_app_r by lia. by rewrite Nat.sub_diag.
    + rewrite lookup_app_r by lia. by rewrite Nat.sub_diag.
  - assert (live L (length hA) i) as Hi' by (unfold live in *; lia).
    destruct (Hnode i Hi') as (nd & HA & HB & Hch).
    exists nd. split; [by apply lookup_app_l_Some|].
    split; [by apply lookup_app_l_Some|].
    eapply Forall_impl; [done|]. simpl. intros wc. apply live_mono. lia.
Qed.

Lemma sim_insert hA hB r nd' :
  sim L hA hB -> live L (length hA) r ->
  Forall (fun wc => live L (length hA) (snd wc)) (child nd') ->
  sim L (<[r := nd']> hA) (<[rn L r := rn_node L nd']> hB).
Proof.
  intros Hsim Hr Hch. pose proof (sim_lt _ _ _ Hsim Hr) as [HrA HrB].
  destruct Hsim as [Hfa Hfb Hlen Hnode].
  split; rewrite ?length_insert; [done..|].
  intros i Hi. destruct (decide (i = r)) as [->|Hne].
  - exists nd'. by rewrite !list_lookup_insert_eq.
  - destruct (Hnode i Hi) as (nd & HA & HB & Hnd).
    exists nd. rewrite !list_lookup_insert_ne; [done| |done].
    intros Heq. by apply (rn_inj _ _ _ Hr Hi) in Heq.
Qed.

Lemma related_new v hA hB (post : nat -> store -> nat -> store -> Prop) :
  post (length hA) (hA ++ [fresh v]) (length hB) (hB ++ [fresh v]) ->
  related (new v) (new v) hA hB post.
Proof. done. Qed.

Lemma related_get r hA hB
    (post : ReverseMode -> store -> ReverseMode -> store -> Prop) :
  sim L hA hB -> live L (length hA) r ->
  (forall nd, hA !! r = Some nd ->
     Forall (fun wc => live L (length hA) (snd wc)) (child nd) ->
     post nd hA (rn_node L nd) hB) ->
  related (get r) (get (rn L r)) hA hB post.
Proof.
  intros Hsim Hr Hpost.
  destruct (sim_node _ _ _ Hsim r Hr) as (nd & HA & HB & Hch).
  unfold related, get. rewrite HA, HB. by apply Hpost.
Qed.

Lemma related_update r gA gB hA hB :
  sim L hA hB -> live L (length hA) r ->
  (forall nd, hA !! r = Some nd ->
     Forall (fun wc => live L (length hA) (snd wc)) (child nd) ->
     gB (rn_node L nd) = rn_node L (gA nd) /\
     Forall (fun wc => live L (length hA) (snd wc)) (child (gA nd))) ->
  related (update r gA) (update (rn L r) gB) hA hB
          (fun _ hA' _ hB' => sim L hA' hB' /\ length hA' = length hA).
Proof.
  intros Hsim Hr Hg.
  destruct (sim_node _ _ _ Hsim r Hr) as (nd & HA & HB & Hch).
  destruct (Hg nd HA Hch) as [HgB HgA].
  unfold related, update. rewrite HA, HB, HgB. simpl.
  split; [by apply sim_insert|by rewrite length_insert].
Qed.

Lemma related_add_child r w z hA hB :
  sim L hA hB -> live L (length hA) r -> live L (length hA) z ->
  related (add_child r w z) (add_child (rn L r) w (rn L z)) hA hB
          (fun _ hA' _ hB' => sim L hA' hB' /\ length hA' = length hA).
Proof.
  intros Hsim Hr Hz. apply related_update; [done..|].
  intros nd _ Hch. split.
  - unfold rn_node. simpl. by rewrite map_app.
  - simpl. apply Forall_app. split; [done|].
    constructor; [done|constructor].
Qed.

Lemma related_set_gradient r g hA hB :
  sim L hA hB -> live L (length hA) r ->
  related (set_gradient r g) (set_gradient (rn L r) g) hA hB
          (fun _ hA' _ hB' => sim L hA' hB' /\ length hA' = length hA).
Proof. intros Hsim Hr. apply related_update; [done..|]. by intros nd _ Hch. Qed.

Lemma related_clear_child r hA hB :
  sim L hA hB -> live L (length hA) r ->
  related (clear_child r) (clear_child (rn L r)) hA hB
          (fun _ hA' _ hB' => sim L hA' hB' /\ length hA' = length hA).
Proof.
  intros Hsim Hr. apply related_update; [done..|].
  intros nd _ Hch. split; [done|constructor].
Qed.

Lemma related_lift_res2 {A B} (rA : res A) (rB : res B) hA hB
    (post : A -> store -> B -> store -> Prop) :
  match rA, rB with
  | inl e, inl e' => e = e'
  | inr a, inr b => post a hA b hB
  | _, _ => False
  end ->
  related (lift_res rA) (lift_res rB) hA hB post.
Proof. unfold related, lift_res. by destruct rA, rB. Qed.

Lemma live_val_mono len len' v :
  (len <= len')%nat -> live_val L len v -> live_val L len' v.
Proof. destruct v; simpl; [done|]. apply live_mono. Qed.

Lemma live_arg_mono len len' x :
  (len <= len')%nat -> live_arg L len x -> live_arg L len' x.
Proof.
  intros Hle. destruct x; simpl; [by apply live_mono|].
  intros Hl. eapply Forall_impl; [done|]. intros r. by apply live_mono.
Qed.

Lemma related_new_edge r w v hA hB :
  sim L hA hB -> live L (length hA) r ->
  related
    (bind (new v) (fun z => bind (add_child r w z) (fun _ => ret (VKer z))))
    (bind (new v) (fun z => bind (add_child (rn L r) w z) (fun _ => ret (VKer z))))
    hA hB (post_val L (length hA)).
Proof.
  intros Hsim Hr. apply related_bind, related_new, related_bind.
  rewrite <- (sim_rn_length _ _ Hsim).
  assert (length (hA ++ [fresh v]) = S (length hA)) as Hlen.
  { rewrite length_app. simpl. lia. }
  assert (live L (length (hA ++ [fresh v])) (length hA)) as Hz.
  { right. destruct Hsim. lia. }
  eapply related_mono.
  { apply related_add_child; [by apply sim_app_fresh| |done].
    eapply live_mono; [|done]. lia. }
  intros [] hA1 [] hB1 [Hsim1 Hlen1]. apply related_ret.
  split; [done|]. split; [by rewrite Hlen1|]. split; [done|lia].
Qed.

Lemma related_apply2 op a b hA hB :
  sim L hA hB -> live_val L (length hA) a -> live_val L (length hA) b ->
  related (apply2 op a b) (apply2 op (rn_val L a) (rn_val L b)) hA hB
          (post_val L (length hA)).
Proof.
  intros Hsim Ha Hb. destruct a as [x|ra], b as [y|rb]; simpl in *.
  - apply related_bind, related_lift_res. intros v _. by apply related_ret.
  - apply related_bind, related_get; [done..|]. intros nb _ _. simpl.
    apply related_bind, related_lift_res. intros [[v pa] pb] _.
    by apply related_new_edge.
  - apply related_bind, related_get; [done..|]. intros na _ _. simpl.
    apply related_bind, related_lift_res. intros [[v pa] pb] _.
    by apply related_new_edge.
  - apply related_bind, related_get; [done..|]. intros na _ _.
    apply related_bind, related_get; [done..|]. intros nb _ _. simpl.
    apply related_bind, related_lift_res. intros [[v pa] pb] _.
    apply related_bind, related_new, related_bind.
    rewrite <- (sim_rn_length _ _ Hsim).
    assert (length (hA ++ [fresh v]) = S (length hA)) as Hlen.
    { rewrite length_app. simpl. lia. }
    assert (live L (length (hA ++ [fresh v])) (length hA)) as Hz.
    { right. destruct Hsim. lia. }
    eapply related_mono.
    { apply related_add_child; [by apply sim_app_fresh| |done].
      eapply live_mono; [|done]. lia. }
    intros [] hA1 [] hB1 [Hsim1 Hlen1]. apply related_bind.
    eapply related_mono.
    { apply related_add_child; [done|..]; rewrite Hlen1; [|done].
      eapply live_mono; [|done]. lia. }
    intros [] hA2 [] hB2 [Hsim2 Hlen2]. apply related_ret.
    split; [done|]. split; [by rewrite Hlen2, Hlen1|]. split; [done|lia].
Qed.

Lemma related_apply1 op a hA hB :
  sim L hA hB -> live_val L (length hA) a ->
  related (apply1 op a) (apply1 op (rn_val L a)) hA hB (post_val L (length hA)).
Proof.
  intros Hsim Ha. destruct a as [x|ra]; simpl in *.
  - apply related_bind, related_lift_res. intros v _. by apply related_ret.
  - apply related_bind, related_get; [done..|]. intros na _ _. simpl.
    apply related_bind, related_lift_res. intros [v pa] _.
    by apply related_new_edge.
Qed.

Lemma related_call e x : forall hA hB,
  sim L hA hB -> live_arg L (length hA) x ->
  related (call e x) (call e (rn_arg L x)) hA hB (post_val L (length hA)).
Proof.
  induction e as [|i|c|op a IHa b IHb|op a IHa]; intros hA hB Hsim Hx; simpl.
  - apply related_bind, related_lift_res2.
    destruct x as [r|l]; simpl; [|done]. by apply related_ret.
  - apply related_bind, related_lift_res2.
    destruct x as [r|l]; simpl; [done|].
    rewrite list_lookup_fmap.
    destruct (l !! i) as [r|] eqn:Hi; simpl; [|done].
    apply related_ret. split; [done|]. split; [|done].
    simpl in Hx. by eapply Forall_lookup_1 in Hx.
  - by apply related_ret.
  - apply related_bind. eapply related_mono; [by apply IHa|].
    intros va hA1 vb hB1 (-> & Hva & Hsim1 & Hle1).
    apply related_bind. eapply related_mono.
    { apply IHb; [done|]. by eapply live_arg_mono. }
    intros va' hA2 vb' hB2 (-> & Hvb & Hsim2 & Hle2).
    eapply related_mono.
    { apply related_apply2; [done| |done]. by eapply live_val_mono. }
    intros v hA3 v' hB3 (-> & Hv & Hsim3 & Hle3).
    split; [done|]. split; [done|]. split; [done|lia].
  - apply related_bind. eapply related_mono; [by apply IHa|].
    intros va hA1 vb hB1 (-> & Hva & Hsim1 & Hle1).
    eapply related_mono; [by apply related_apply1|].
    intros v hA2 v' hB2 (-> & Hv & Hsim2 & Hle2).
    split; [done|]. split; [done|]. split; [done|lia].
Qed.

Lemma related_seed z hA hB :
  sim L hA hB -> live_val L (length hA) z ->
  related (seed z) (seed (rn_val L z)) hA hB
          (fun _ hA' _ hB' => sim L hA' hB' /\ length hA' = length hA).
Proof.
  intros Hsim Hz. destruct z as [q|r]; simpl; [done|].
  by apply related_set_gradient.
Qed.

(** *** [grad] in the two runs, at equal fuel *)

Lemma related_sum_edges (recA recB : nat -> M Q) (len : nat) :
  (forall c hA hB, sim L hA hB -> length hA = len -> live L len c ->
     related (recA c) (recB (rn L c)) hA hB (post_grad L hA)) ->
  forall l acc hA hB,
    sim L hA hB -> length hA = len ->
    Forall (fun wc => live L len (snd wc)) l ->
    related (sum_edges recA l acc)
            (sum_edges recB (map (fun wc => (fst wc, rn L (snd wc))) l) acc)
            hA hB (post_grad L hA).
Proof.
  intros Hrec. induction l as [|[w c] l IH]; intros acc hA hB Hsim Hlen Hl; simpl.
  - by apply related_ret.
  - inversion Hl as [|? ? Hc Hl']; subst. simpl in Hc.
    apply related_bind. eapply related_mono; [by apply Hrec|].
    intros g hA1 g' hB1 (<- & Hsim1 & Hlen1).
    eapply related_mono; [by apply IH|].
    intros s hA2 s' hB2 (<- & Hsim2 & Hlen2).
    split; [done|]. split; [done|lia].
Qed.

Lemma related_grad k : forall r hA hB,
  sim L hA hB -> live L (length hA) r ->
  related (grad k r) (grad k (rn L r)) hA hB (post_grad L hA).
Proof.
  induction k as [|k IH]; intros r hA hB Hsim Hr; [done|]. simpl.
  apply related_bind, related_get; [done..|]. intros nd _ Hch. simpl.
  destruct (gradient nd) as [g|]; [by apply related_ret|].
  apply related_bind. eapply related_mono.
  { apply (related_sum_edges (grad k) (grad k) (length hA)); [|done..].
    intros c hA1 hB1 Hsim1 Hlen1 Hc. rewrite <- Hlen1 in Hc.
    eapply related_mono; [by apply IH|].
    by intros g hA2 g' hB2 (<- & Hsim2 & Hlen2). }
  intros s hA1 s' hB1 (<- & Hsim1 & Hlen1).
  apply related_bind. eapply related_mono.
  { apply related_set_gradient; [done|by rewrite Hlen1]. }
  intros [] hA2 [] hB2 [Hsim2 Hlen2]. apply related_ret.
  split; [done|]. split; [done|lia].
Qed.

Lemma related_grad_top r hA hB :
  sim L hA hB -> wf hA -> wf hB -> live L (length hA) r ->
  related (grad_top r) (grad_top (rn L r)) hA hB (post_grad L hA).
Proof.
  intros Hsim HwfA HwfB Hr.
  destruct (sim_lt _ _ _ Hsim Hr) as [HrA HrB].
  destruct (grad_ok (length hA) r hA) as (g & hA1 & HgA & _); [done..|lia|].
  destruct (grad_ok (length hB) (rn L r) hB) as (g' & hB1 & HgB & _);
    [done..|lia|].
  pose proof (related_grad (length hA + length hB) r hA hB Hsim Hr) as Hrel.
  unfold related in Hrel.
  assert (length hA <= length hA + length hB)%nat as HleA by lia.
  assert (length hB <= length hA + length hB)%nat as HleB by lia.
  rewrite (grad_fuel_le _ _ _ _ _ HleA HgA) in Hrel.
  rewrite (grad_fuel_le _ _ _ _ _ HleB HgB) in Hrel.
  unfold related, grad_top. by rewrite HgA, HgB.
Qed.

End Related.

(** ** The passes of the reverse driver: one run *)

Section SafeRows.
Import rad ReverseAD.

Lemma safe_mapM {X Y} (body : X -> M Y) (I : store -> Prop) (P : X -> Prop) :
  (forall x h, I h -> P x -> safe (body x) h (fun _ h' => I h')) ->
  forall xs h, I h -> Forall P xs -> safe (mapM body xs) h (fun _ h' => I h').
Proof.
  intros Hbody. induction xs as [|x xs IH]; intros h Hh Hxs; simpl.
  - by apply safe_ret.
  - inversion Hxs; subst. apply safe_bind.
    eapply safe_mono; [by apply Hbody|]. intros y h1 Hh1. simpl.
    apply safe_bind. eapply safe_mono; [by apply IH|].
    intros ys h2 Hh2. by apply safe_ret.
Qed.

Lemma cleared_insert_ne h r r' nd :
  r <> r' -> cleared h r' -> cleared (<[r := nd]> h) r'.
Proof.
  intros Hne (nd' & Hr' & ?). exists nd'.
  by rewrite list_lookup_insert_ne.
Qed.

Lemma safe_reset r h :
  wf h -> (r < length h)%nat ->
  safe (reset r) h
       (fun _ h' => extends h h' /\ length h' = length h /\
          forall r', (r' = r \/ cleared h r') -> cleared h' r').
Proof.
  intros Hwf Hr. unfold reset. apply safe_bind.
  eapply safe_mono; [by apply safe_clear_child|].
  intros [] h1 (Hext1 & Hlen1 & nd & Hnd & ->).
  eapply safe_mono.
  { apply safe_set_gradient; [by destruct Hext1|by rewrite length_insert]. }
  intros [] h2 (Hext2 & Hlen2 & nd2 & Hnd2 & ->).
  rewrite list_lookup_insert_eq in Hnd2 by done. inversion Hnd2; subst nd2.
  simpl. split; [by eapply extends_trans|].
  split; [by rewrite !length_insert|].
  intros r' Hr'. destruct (decide (r = r')) as [<-|Hne].
  - eexists. rewrite list_lookup_insert_eq; [done|].
    by rewrite length_insert.
  - destruct Hr' as [->|Hcl]; [done|].
    apply cleared_insert_ne; [done|]. by apply cleared_insert_ne.
Qed.

Lemma safe_mapM_reset tr : forall h,
  wf h -> Forall (fun r => (r < length h)%nat) tr ->
  safe (mapM reset tr) h
       (fun _ h' => extends h h' /\ length h' = length h /\
          forall r', (r' ∈ tr \/ cleared h r') -> cleared h' r').
Proof.
  induction tr as [|r tr IH]; intros h Hwf Htr; simpl.
  - apply safe_ret. split; [by apply extends_refl|]. split; [done|].
    intros r' [Hin|?]; [|done]. by apply elem_of_nil in Hin.
  - inversion Htr; subst. apply safe_bind.
    eapply safe_mono; [by apply safe_reset|].
    intros [] h1 (Hext1 & Hlen1 & Hcl1). simpl. apply safe_bind.
    eapply safe_mono.
    { apply IH; [by destruct Hext1|by rewrite Hlen1]. }
    intros ys h2 (Hext2 & Hlen2 & Hcl2). apply safe_ret.
    split; [by eapply extends_trans|]. split; [lia|].
    intros r' Hr'. apply Hcl2.
    destruct Hr' as [[->|Hin]%elem_of_cons|Hcl]; auto.
Qed.

Lemma safe_mapM_grad_top tr : forall h,
  wf h -> Forall (fun r => (r < length h)%nat) tr ->
  safe (mapM grad_top tr) h
       (fun _ h' => extends h h' /\ length h' = length h).
Proof.
  intros h Hwf Htr.
  apply (safe_mapM grad_top
           (fun h' => extends h h' /\ length h' = length h)
           (fun r => (r < length h)%nat)); [|by split; [apply extends_refl|]|done].
  intros r h1 [Hext1 Hlen1] Hr.
  eapply safe_mono; [apply safe_grad_top; [by destruct Hext1|lia]|].
  intros g h2 [Hext2 Hlen2]. split; [by eapply extends_trans|lia].
Qed.

Lemma safe_row_multi tr e h :
  wf h -> Forall (fun r => (r < length h)%nat) tr ->
  safe (row_multi tr e) h
       (fun _ h' => extends h h' /\ forall r, r ∈ tr -> cleared h' r).
Proof.
  intros Hwf Htr. unfold row_multi. apply safe_bind.
  eapply safe_mono; [by apply safe_call|].
  intros z h1 [Hext1 Hz]. pose proof (extends_length _ _ Hext1) as Hle1.
  apply safe_bind. eapply safe_mono; [apply safe_seed; [by destruct Hext1|done]|].
  intros [] h2 [Hext2 Hlen2]. apply safe_bind.
  assert (Forall (fun r => (r < length h2)%nat) tr) as Htr2.
  { eapply Forall_impl; [done|]. simpl. intros; lia. }
  eapply safe_mono; [apply safe_mapM_grad_top; [by destruct Hext2|done]|].
  intros row h3 [Hext3 Hlen3]. apply safe_bind.
  eapply safe_mono.
  { apply safe_mapM_reset; [by destruct Hext3|by rewrite Hlen3]. }
  intros us h4 (Hext4 & Hlen4 & Hcl). apply safe_ret. split.
  - eapply extends_trans; [done|]. eapply extends_trans; [done|].
    by eapply extends_trans.
  - intros r Hr. apply Hcl. by left.
Qed.

Lemma safe_scalar_pass v e h :
  wf h -> safe (scalar_pass v e) h (fun _ h' => extends h h').
Proof.
  intros Hwf. unfold scalar_pass. apply safe_bind, safe_new.
  assert (length (h ++ [fresh v]) = S (length h)) as Hlen0.
  { rewrite length_app. simpl. lia. }
  apply safe_bind. eapply safe_mono.
  { apply safe_call; [by apply wf_app_fresh|]. simpl. lia. }
  intros z h1 [Hext1 Hz]. pose proof (extends_length _ _ Hext1) as Hle1.
  apply safe_bind. eapply safe_mono; [apply safe_seed; [by destruct Hext1|done]|].
  intros [] h2 [Hext2 Hlen2].
  eapply safe_mono; [apply safe_grad_top; [by destruct Hext2|lia]|].
  intros g h3 [Hext3 Hlen3].
  eapply extends_trans; [by apply extends_app_fresh|].
  eapply extends_trans; [done|]. by eapply extends_trans.
Qed.

Lemma safe_row_single v e h :
  wf h -> safe (row_single v e) h (fun _ h' => extends h h').
Proof.
  intros Hwf. unfold row_single. apply safe_bind.
  eapply safe_mono; [by apply safe_scalar_pass|]. intros g h1 Hext1.
  by apply safe_ret.
Qed.

End SafeRows.

(** ** The passes of the reverse driver: two runs *)

Section RelatedRows.
Import rad ReverseAD.

Variable L : layout.
Hypothesis HL : layout_ok L.

Lemma related_mapM {X X' Y} (bodyA : X -> M Y) (bodyB : X' -> M Y)
    (ρ : X -> X') (I : store -> store -> Prop) (P : X -> Prop) :
  (forall x hA hB, I hA hB -> P x ->
     related (bodyA x) (bodyB (ρ x)) hA hB
             (fun a hA' b hB' => a = b /\ I hA' hB')) ->
  forall xs hA hB, I hA hB -> Forall P xs ->
    related (mapM bodyA xs) (mapM bodyB (ρ <$> xs)) hA hB
            (fun a hA' b hB' => a = b /\ I hA' hB').
Proof.
  intros Hbody. induction xs as [|x xs IH]; intros hA hB Hh Hxs; simpl.
  - by apply related_ret.
  - inversion Hxs; subst. apply related_bind.
    eapply related_mono; [by apply Hbody|].
    intros y hA1 y' hB1 [<- Hh1]. apply related_bind.
    eapply related_mono; [by apply IH|].
    intros ys hA2 ys' hB2 [<- Hh2]. by apply related_ret.
Qed.

Lemma related_reset r hA hB :
  sim L hA hB -> live L (length hA) r ->
  related (reset r) (reset (rn L r)) hA hB
          (fun _ hA' _ hB' => sim L hA' hB' /\ length hA' = length hA).
Proof.
  intros Hsim Hr. unfold reset. apply related_bind.
  eapply related_mono; [by apply related_clear_child|].
  intros [] hA1 [] hB1 [Hsim1 Hlen1].
  eapply related_mono; [apply related_set_gradient; [done..|by rewrite Hlen1]|].
  intros [] hA2 [] hB2 [Hsim2 Hlen2]. split; [done|lia].
Qed.

Lemma sim_valid_arg hA hB x :
  sim L hA hB -> live_arg L (length hA) x ->
  valid_arg hA x /\ valid_arg hB (rn_arg L x).
Proof.
  intros Hsim Hx. destruct x as [r|l]; simpl in *.
  - by apply sim_lt.
  - split.
    + eapply Forall_impl; [done|]. intros r Hr. by eapply sim_lt.
    + apply Forall_fmap. eapply Forall_impl; [done|].
      intros r Hr. simpl. by eapply sim_lt.
Qed.

Lemma sim_valid_val hA hB v :
  sim L hA hB -> live_val L (length hA) v ->
  valid_val hA v /\ valid_val hB (rn_val L v).
Proof. intros Hsim Hv. destruct v; simpl in *; [done|]. by apply sim_lt. Qed.

(** The part shared by the two kinds of pass: call the function, seed
    the output. *)
Lemma related_call_seed e x hA hB :
  sim L hA hB -> wf hA -> wf hB -> live_arg L (length hA) x ->
  related (bind (call e x) seed) (bind (call e (rn_arg L x)) seed) hA hB
          (fun _ hA' _ hB' => sim L hA' hB' /\ wf hA' /\ wf hB' /\
                              (length hA <= length hA')%nat).
Proof.
  intros Hsim HwfA HwfB Hx.
  destruct (sim_valid_arg _ _ _ Hsim Hx) as [HxA HxB].
  apply related_bind. eapply related_mono.
  { apply related_safe;
      [by apply safe_call|by apply safe_call|by apply related_call]. }
  intros z hA1 z' hB1 ([[HwfA1 _] _] & [[HwfB1 _] _] & -> & Hz & Hsim1 & Hle1).
  destruct (sim_valid_val _ _ _ Hsim1 Hz) as [HzA HzB].
  eapply related_mono.
  { apply related_safe;
      [by apply safe_seed|by apply safe_seed|by apply related_seed]. }
  intros [] hA2 [] hB2 ([[HwfA2 _] _] & [[HwfB2 _] _] & Hsim2 & Hlen2).
  split; [done|]. split; [done|]. split; [done|lia].
Qed.

Lemma related_grad_top_wf r hA hB :
  sim L hA hB -> wf hA -> wf hB -> live L (length hA) r ->
  related (grad_top r) (grad_top (rn L r)) hA hB
          (fun a hA' b hB' => a = b /\ sim L hA' hB' /\ wf hA' /\ wf hB' /\
                              length hA' = length hA).
Proof.
  intros Hsim HwfA HwfB Hr. destruct (sim_lt _ _ _ _ Hsim Hr) as [HrA HrB].
  eapply related_mono.
  { apply related_safe;
      [by apply safe_grad_top|by apply safe_grad_top|by apply related_grad_top]. }
  intros g hA1 g' hB1 ([[? _] _] & [[? _] _] & <- & Hsim1 & Hlen1). done.
Qed.

Lemma related_ext {A B} (cA cA' : M A) (cB cB' : M B) hA hB
    (post : A -> store -> B -> store -> Prop) :
  cA hA = cA' hA -> cB hB = cB' hB ->
  related cA' cB' hA hB post -> related cA cB hA hB post.
Proof. unfold related. by intros -> ->. Qed.

Lemma bind_assoc {A B C} (c : M A) (k1 : A -> M B) (k2 : B -> M C) h :
  bind c (fun a => bind (k1 a) k2) h = bind (bind c k1) k2 h.
Proof. unfold bind. by destruct (c h) as [?|[a h1]]. Qed.

Lemma related_mapM_grad_top tr hA hB :
  sim L hA hB -> wf hA -> wf hB -> Forall (live L (length hA)) tr ->
  related (mapM grad_top tr) (mapM grad_top (rn L <$> tr)) hA hB
          (fun a hA' b hB' => a = b /\ sim L hA' hB' /\ wf hA' /\ wf hB' /\
                              length hA' = length hA).
Proof.
  intros Hsim HwfA HwfB Htr.
  apply (related_mapM grad_top grad_top (rn L)
    (fun hA' hB' => sim L hA' hB' /\ wf hA' /\ wf hB' /\ length hA' = length hA)
    (live L (length hA))); [|done..].
  intros r hA1 hB1 (Hsim1 & HwfA1 & HwfB1 & Hlen1) Hr. rewrite <- Hlen1 in Hr.
  eapply related_mono; [by apply related_grad_top_wf|].
  intros g hA2 g' hB2 (<- & ? & ? & ? & ?).
  split; [done|]. split; [done|]. split; [done|]. split; [done|lia].
Qed.

Lemma related_mapM_reset tr hA hB :
  sim L hA hB -> Forall (live L (length hA)) tr ->
  related (mapM reset tr) (mapM reset (rn L <$> tr)) hA hB
          (fun a hA' b hB' => a = b /\ sim L hA' hB' /\ length hA' = length hA).
Proof.
  intros Hsim Htr.
  apply (related_mapM reset reset (rn L)
    (fun hA' hB' => sim L hA' hB' /\ length hA' = length hA)
    (live L (length hA))); [|done..].
  intros r hA1 hB1 (Hsim1 & Hlen1) Hr. rewrite <- Hlen1 in Hr.
  eapply related_mono; [by apply related_reset|].
  intros [] hA2 [] hB2 (? & ?). split; [done|]. split; [done|lia].
Qed.

Lemma related_row_multi tr e hA hB :
  sim L hA hB -> wf hA -> wf hB -> Forall (live L (length hA)) tr ->
  related (row_multi tr e) (row_multi (rn L <$> tr) e) hA hB
          (fun a hA' b hB' => a = b /\ sim L hA' hB').
Proof.
  intros Hsim HwfA HwfB Htr. unfold row_multi.
  eapply related_ext; [apply bind_assoc|apply bind_assoc|].
  apply related_bind. eapply related_mono.
  { by apply (related_call_seed e (AMany tr)). }
  intros [] hA2 [] hB2 (Hsim2 & HwfA2 & HwfB2 & Hle2).
  assert (Forall (live L (length hA2)) tr) as Htr2.
  { eapply Forall_impl; [done|]. intros r. by apply live_mono. }
  apply related_bind. eapply related_mono; [by apply related_mapM_grad_top|].
  intros row hA3 row' hB3 (<- & Hsim3 & HwfA3 & HwfB3 & Hlen3).
  apply related_bind. eapply related_mono.
  { apply related_mapM_reset; [done|by rewrite Hlen3]. }
  intros us hA4 us' hB4 (_ & Hsim4 & _). by apply related_ret.
Qed.

Lemma related_scalar_pass v e hA hB :
  sim L hA hB -> wf hA -> wf hB ->
  related (scalar_pass v e) (scalar_pass v e) hA hB
          (fun a hA' b hB' => a = b /\ sim L hA' hB').
Proof.
  intros Hsim HwfA HwfB. unfold scalar_pass.
  apply related_bind, related_new.
  rewrite <- (sim_rn_length _ _ _ Hsim).
  assert (length (hA ++ [fresh v]) = S (length hA)) as Hlen.
  { rewrite length_app. simpl. lia. }
  assert (live L (length (hA ++ [fresh v])) (length hA)) as Hx.
  { right. destruct Hsim. lia. }
  eapply related_ext; [apply bind_assoc|apply bind_assoc|].
  apply related_bind. eapply related_mono.
  { apply (related_call_seed e (AOne (length hA)));
      [by apply sim_app_fresh|by apply wf_app_fresh..|done]. }
  intros [] hA2 [] hB2 (Hsim2 & HwfA2 & HwfB2 & Hle2).
  eapply related_mono.
  { apply related_grad_top_wf; [done..|]. eapply live_mono; [|done]. lia. }
  by intros g hA3 g' hB3 (<- & ? & _).
Qed.

End RelatedRows.

(** ** The reverse driver in any store *)

Section Canonical.
Import rad ReverseAD.

Lemma related_result {A} (cA cB : M A) hA hB
    (post : A -> store -> A -> store -> Prop) :
  related cA cB hA hB post ->
  (forall a hA' b hB', post a hA' b hB' -> a = b) ->
  result (cA hA) = result (cB hB).
Proof.
  unfold related. intros Hrel Hpost.
  destruct (cA hA) as [?|[a hA']], (cB hB) as [?|[b hB']]; simpl; try done.
  - by subst.
  - f_equal. by eapply Hpost.
Qed.

Lemma result_bind_ret {A B} (c : M A) (F : A -> B) h :
  result (bind c (fun a => ret (F a)) h) = let* a := result (c h) in ok (F a).
Proof. unfold bind, result. by destruct (c h) as [?|[a h1]]. Qed.

Lemma wf_app_seeds h (l : list Q) : wf h -> wf (h ++ (fresh <$> l)).
Proof.
  intros Hwf i nd Hi. rewrite length_app.
  apply lookup_app_Some in Hi as [Hi|[_ Hi]].
  - eapply Forall_impl; [by apply (Hwf i nd)|]. simpl. lia.
  - rewrite list_lookup_fmap in Hi.
    destruct (l !! _); simpl in Hi; [|done]. inversion Hi; subst. constructor.
Qed.

Lemma seeds_at_app h (l : list Q) : seeds_at (h ++ (fresh <$> l)) (length h) l.
Proof.
  intros i v Hi. rewrite lookup_app_r by lia.
  replace (length h + i - length h)%nat with i by lia.
  by rewrite list_lookup_fmap, Hi.
Qed.

Lemma seeds_at_length h s vs :
  seeds_at h s vs -> vs <> [] -> (s + length vs <= length h)%nat.
Proof.
  intros Hs Hvs.
  destruct (lookup_lt_is_Some_2 vs (length vs - 1)) as [v Hv].
  { destruct vs; [done|]. simpl. lia. }
  apply Hs, lookup_lt_Some in Hv.
  destruct vs; [done|]. simpl in *. lia.
Qed.

Lemma sim_scalar hA hB : sim (scalar_layout hA hB) hA hB.
Proof.
  split; simpl; [lia..|]. intros i [Hi|Hi]; simpl in Hi; lia.
Qed.

Lemma scalar_pass_any_store v e hA hB :
  wf hA -> wf hB ->
  result (scalar_pass v e hA) = result (scalar_pass v e hB).
Proof.
  intros HwfA HwfB. eapply related_result.
  - apply (related_scalar_pass (scalar_layout hA hB));
      [split; simpl; lia|apply sim_scalar|done..].
  - by intros a hA' b hB' [-> _].
Qed.

Lemma row_single_any_store v e hA hB :
  wf hA -> wf hB ->
  result (row_single v e hA) = result (row_single v e hB).
Proof.
  intros HwfA HwfB. unfold row_single.
  by rewrite !result_bind_ret, (scalar_pass_any_store v e hA hB).
Qed.

Lemma sim_seeds s s' vs hA hB :
  seeds_at hA s vs -> seeds_at hB s' vs ->
  (s + length vs <= length hA)%nat -> (s' + length vs <= length hB)%nat ->
  sim (seed_layout s s' (length vs) hA hB) hA hB.
Proof.
  intros HsA HsB HlA HlB. split; simpl; [lia..|].
  intros i [Hi|Hi]; simpl in Hi; [|lia].
  destruct (lookup_lt_is_Some_2 vs (i - s)) as [v Hv]; [lia|].
  exists (fresh v). split; [|split; [|constructor]].
  - replace i with (s + (i - s))%nat at 1 by lia. by apply HsA.
  - unfold rn. simpl. destruct (Nat.ltb_spec i (length hA)); [|lia].
    by apply HsB.
Qed.

Lemma rn_seq L n : forall s s',
  (forall i, (s <= i < s + n)%nat -> rn L i = (s' + (i - s))%nat) ->
  rn L <$> seq s n = seq s' n.
Proof.
  induction n as [|n IH]; intros s s' Hrn; simpl; [done|].
  rewrite Hrn by lia. f_equal; [lia|].
  apply IH. intros i Hi. rewrite Hrn by lia. lia.
Qed.

Lemma seeds_after_pass h h' s vs :
  seeds_at h s vs -> extends h h' ->
  (forall r, r ∈ seq s (length vs) -> cleared h' r) ->
  seeds_at h' s vs.
Proof.
  intros Hs Hext Hcl i v Hv.
  destruct (extends_real _ _ _ _ Hext (Hs i v Hv)) as (nd' & Hnd' & Hreal).
  destruct (Hcl (s + i)%nat) as (nd & Hnd & Hch & Hgr).
  { apply elem_of_seq. apply lookup_lt_Some in Hv. lia. }
  rewrite Hnd' in Hnd. inversion Hnd; subst nd.
  rewrite Hnd'. f_equal. destruct nd'; simpl in *. by subst.
Qed.

(** One pass over several variables gives the same row in any two
    stores that hold clean seed nodes for the same variables, and leaves
    the seed nodes clean. *)
Lemma pass_multi s s' vs e hA hB :
  wf hA -> wf hB -> seeds_at hA s vs -> seeds_at hB s' vs ->
  (s + length vs <= length hA)%nat -> (s' + length vs <= length hB)%nat ->
  related (row_multi (seq s (length vs)) e) (row_multi (seq s' (length vs)) e)
          hA hB
          (fun a hA' b hB' => a = b /\ wf hA' /\ seeds_at hA' s vs /\
                              (s + length vs <= length hA')%nat).
Proof.
  intros HwfA HwfB HsA HsB HlA HlB.
  set (L := seed_layout s s' (length vs) hA hB).
  assert (layout_ok L) as HL by (split; simpl; lia).
  assert (Forall (fun r => (r < length hA)%nat) (seq s (length vs))) as HtrA.
  { apply Forall_seq. intros; lia. }
  assert (Forall (fun r => (r < length hB)%nat) (seq s' (length vs))) as HtrB.
  { apply Forall_seq. intros; lia. }
  eapply related_mono.
  { apply related_safe;
      [by apply safe_row_multi|by apply safe_row_multi|].
    rewrite <- (rn_seq L (length vs) s s').
    - apply (related_row_multi L HL); [by apply sim_seeds|done..|].
      apply Forall_seq. intros j Hj. left. simpl. lia.
    - intros i Hi. unfold rn. simpl.
      destruct (Nat.ltb_spec i (length hA)); [done|lia]. }
  intros a hA' b hB' ([HextA HclA] & _ & <- & _).
  split; [done|]. split; [by destruct HextA|].
  split; [by eapply seeds_after_pass|].
  apply extends_length in HextA. lia.
Qed.

Lemma loop_multi s vs fs : forall h,
  wf h -> seeds_at h s vs -> (s + length vs <= length h)%nat ->
  result (mapM (row_multi (seq s (length vs))) fs h) =
  rmap (fun e => result (row_multi (seq 0 (length vs)) e (fresh <$> vs))) fs.
Proof.
  induction fs as [|e fs IH]; intros h Hwf Hs Hl; simpl; [done|].
  pose proof (pass_multi s 0 vs e h (fresh <$> vs) Hwf
                (wf_app_seeds [] vs wf_nil) Hs (seeds_at_app [] vs) Hl) as Hrel.
  rewrite length_fmap in Hrel. specialize (Hrel ltac:(simpl; lia)).
  unfold related in Hrel. unfold bind at 1.
  destruct (row_multi (seq s (length vs)) e h) as [?|[y h1]],
           (row_multi (seq 0 (length vs)) e (fresh <$> vs)) as [?|[y' h1']];
    simpl; try done.
  - by subst.
  - destruct Hrel as (<- & Hwf1 & Hs1 & Hl1).
    rewrite result_bind_ret. by rewrite IH.
Qed.

Lemma loop_single v fs : forall h,
  wf h ->
  result (mapM (row_single v) fs h) =
  rmap (fun e => result (row_single v e [])) fs.
Proof.
  induction fs as [|e fs IH]; intros h Hwf; simpl; [done|].
  pose proof (row_single_any_store v e h [] Hwf wf_nil) as Hrow.
  pose proof (safe_row_single v e h Hwf) as Hsafe.
  unfold safe in Hsafe. unfold bind at 1.
  destruct (row_single v e h) as [?|[y h1]]; simpl in *.
  - by rewrite <- Hrow.
  - rewrite <- Hrow. simpl. rewrite result_bind_ret.
    rewrite IH; [done|by destruct Hsafe].
Qed.

End Canonical.

Section Driver.
Import rad ReverseAD.

Lemma jacobian_field_set (c : M (list jentry)) (self : t) h :
  jacobian_field (bind c (fun rows => ret (set_jacobian self rows)) h) =
  result (c h).
Proof. unfold bind, jacobian_field, result. by destruct (c h) as [?|[a h1]]. Qed.

Lemma init_seq_jacobian h fs l :
  wf h -> l <> [] ->
  jacobian_field (__init__ (FunSeq fs) (VarsSeq l) h) = rmap (canon_row l) fs.
Proof.
  intros Hwf Hl. destruct l as [|v1 [|v2 l]]; [done| |].
  - unfold __init__, _compute. simpl. unfold bind at 1 2. simpl.
    rewrite jacobian_field_set. by apply loop_single.
  - set (vs := v1 :: v2 :: l).
    assert (Nat.ltb 1 (length vs) = true) as Hlt by done.
    assert (Nat.eqb (length vs) 1 = false) as Hne by done.
    assert (forall e, canon_row vs e =
              result (row_multi (seq 0 (length vs)) e (fresh <$> vs))) as Hcanon
      by done.
    clearbody vs. rewrite (rmap_ext _ _ _ Hcanon).
    unfold __init__. rewrite Hlt. unfold bind at 1 2. rewrite mapM_new_ok.
    unfold ret at 1. simpl. unfold _compute. simpl. rewrite Hne, Hlt.
    unfold bind at 1. simpl. rewrite jacobian_field_set.
    apply loop_multi; [by apply wf_app_seeds|by apply seeds_at_app|].
    rewrite length_app, length_fmap. lia.
Qed.

(** The fields that a construction copies from its arguments. *)
Lemma compute_var_list self h self' h' :
  _compute self h = ok (self', h') -> var_list self' = var_list self.
Proof.
  unfold _compute, bind, ret, fail, lift_res. intros H.
  repeat case_match; simplify_eq; done.
Qed.

Lemma init_var_list fn vars h self h' :
  __init__ fn vars h = ok (self, h') -> var_list self = vars.
Proof.
  unfold __init__. unfold bind at 1. intros H.
  repeat case_match; simplify_eq; by apply compute_var_list in H.
Qed.

Lemma reverse_jacobian_seq fn l h :
  reverse_jacobian fn (VarsSeq l) h =
  let* j := jacobian_field (__init__ fn (VarsSeq l) h) in ok (RList (flatten j)).
Proof.
  unfold reverse_jacobian, jacobian_field.
  destruct (__init__ fn (VarsSeq l) h) as [?|[self h']] eqn:Hinit; simpl; [done|].
  apply init_var_list in Hinit. unfold get_jacobian. by rewrite Hinit.
Qed.

Lemma init_bare e vars h :
  __init__ (FunBare e) vars h =
    raise (TypeError (match vars with
                      | VarsSeq [] => empty_variables
                      | _ => no_len
                      end)).
Proof.
  destruct vars as [q|[|v1 [|v2 l]]]; try reflexivity.
  unfold __init__. cbn [length Nat.ltb Nat.leb].
  unfold bind at 1. unfold bind at 1.
  rewrite mapM_new_ok. reflexivity.
Qed.

Lemma reverse_jacobian_num e v h :
  reverse_jacobian (FunSeq [e]) (VarsNum v) h =
  let* g := result (scalar_pass v e h) in ok (RNum g).
Proof.
  unfold reverse_jacobian, __init__, _compute. simpl.
  unfold bind, ret, result. simpl.
  by destruct (scalar_pass v e h) as [?|[g h1]].
Qed.

(** The Jacobian the reverse driver returns does not depend on the
    store it starts from. *)
Lemma reverse_any_store fn vars h :
  wf h -> reverse_jacobian fn vars h = reverse_jacobian fn vars [].
Proof.
  intros Hwf. destruct fn as [e|fs].
  { unfold reverse_jacobian. by rewrite !init_bare. }
  destruct vars as [v|l].
  - destruct fs as [|e [|e' fs]]; [done| |done].
    by rewrite !reverse_jacobian_num, (scalar_pass_any_store v e h []) by
      (done || apply wf_nil).
  - destruct (decide (l = [])) as [->|Hl]; [done|].
    rewrite !reverse_jacobian_seq.
    by rewrite !init_seq_jacobian by (done || apply wf_nil).
Qed.

(** A construction is never stuck and leaves the store well formed. *)
Lemma safe_compute self h :
  wf h ->
  (forall tr, trace self = Some tr -> Forall (fun r => (r < length h)%nat) tr) ->
  safe (_compute self) h (fun _ h' => wf h').
Proof.
  intros Hwf Htr. unfold _compute. destruct (var_list self) as [v|l].
  - apply safe_bind, safe_lift_res; [by destruct (f self)|].
    intros n Hn. destruct (Nat.eqb n 1); [|done].
    destruct (f self) as [|[|e fs]]; try done.
    apply safe_bind. eapply safe_mono; [by apply safe_scalar_pass|].
    intros g h1 [Hwf1 _]. by apply safe_ret.
  - destruct (Nat.eqb (len_var_list self) 1).
    { apply safe_bind, safe_lift_res; [by destruct (f self)|].
      intros fs _. destruct l as [|v l].
      - by destruct fs.
      - apply safe_bind. eapply safe_mono.
        { apply (safe_mapM (row_single v) wf (fun _ => True)); [|done|].
          - intros e h1 Hwf1 _. eapply safe_mono; [by apply safe_row_single|].
            by intros j h2 [? _].
          - by apply Forall_true. }
        intros rows h1 Hwf1. by apply safe_ret. }
    destruct (Nat.ltb 1 (len_var_list self)); [|done].
    apply safe_bind, safe_lift_res; [by destruct (f self)|].
    intros fs _. destruct (trace self) as [tr|]; [|by destruct fs].
    specialize (Htr tr eq_refl).
    apply safe_bind. eapply safe_mono.
    { apply (safe_mapM (row_multi tr)
               (fun h' => wf h' /\ (length h <= length h')%nat)
               (fun _ => True)); [|done|by apply Forall_true].
      intros e h1 [Hwf1 Hle1] _. eapply safe_mono.
      { apply safe_row_multi; [done|].
        eapply Forall_impl; [done|]. simpl. intros; lia. }
      intros j h2 [Hext2 _]. split; [by destruct Hext2|].
      apply extends_length in Hext2. lia. }
    intros rows h1 [Hwf1 _]. by apply safe_ret.
Qed.

Lemma safe_init fn vars h :
  wf h -> safe (__init__ fn vars) h (fun _ h' => wf h').
Proof.
  intros Hwf. unfold __init__. apply safe_bind.
  destruct vars as [v|l]; simpl.
  - apply safe_ret. by apply safe_compute.
  - destruct (Nat.ltb 1 (length l)).
    + apply safe_bind. unfold safe at 1. rewrite mapM_new_ok.
      apply safe_ret, safe_compute; [by apply wf_app_seeds|].
      simpl. intros tr [= <-]. apply Forall_seq. intros j Hj.
      rewrite length_app, length_fmap. lia.
    + apply safe_ret. by apply safe_compute.
Qed.

Lemma init_not_stuck fn vars h : wf h -> __init__ fn vars h <> raise Stuck.
Proof.
  intros Hwf Hs. pose proof (safe_init fn vars h Hwf) as Hsafe.
  unfold safe in Hsafe. by rewrite Hs in Hsafe.
Qed.

Lemma init_wf fn vars h self h' :
  wf h -> __init__ fn vars h = ok (self, h') -> wf h'.
Proof.
  intros Hwf Hi. pose proof (safe_init fn vars h Hwf) as Hsafe.
  unfold safe in Hsafe. by rewrite Hi in Hsafe.
Qed.

End Driver.

(** ** Exceptions of the functions *)








(** ** Repeated reads and lists of functions *)

Lemma flatten_JNum (l : list Q) : ReverseAD.flatten (map JNum l) = l.
Proof.
  induction l as [|q l IH]; [done|].
  unfold ReverseAD.flatten in *. simpl. by f_equal.
Qed.

Lemma get_jacobian_twice (self : ReverseAD.t) :
  ReverseAD.get_jacobian (snd (ReverseAD.get_jacobian self)) =
  (fst (ReverseAD.get_jacobian self), snd (ReverseAD.get_jacobian self)).
Proof.
  unfold ReverseAD.get_jacobian. destruct (ReverseAD.var_list self) eqn:Hv; simpl.
  - by rewrite Hv.
  - rewrite Hv. by rewrite flatten_JNum.
Qed.

Lemma wf_stale_store : wf stale_store.
Proof.
  intros i nd Hi. destruct i as [|[|i]]; simpl in Hi; [| |done];
    inversion Hi; subst; simpl; repeat constructor; simpl; lia.
Qed.

Lemma rmap_singletons {A B} (g : A -> res B) (xs : list A) :
  rmap g xs =
  let* ys := rmap (fun x => let* y := g x in ok [y]) xs in ok (concat ys).
Proof.
  induction xs as [|x xs IH]; simpl; [done|].
  destruct (g x) as [?|y]; simpl; [done|]. rewrite IH.
  by destruct (rmap (fun x0 => let* y0 := g x0 in ok [y0]) xs).
Qed.

(** * The claims *)

(** ** Concrete scenarios *)

(** C1: on [x0*x1] at (1, 2) the forward driver returns the row [0, 0]
    (each partial is taken with the other coordinate's primal at 0),
    while one-hot seeding at the supplied point gives [2, 1]. *)
Theorem forward_partials_at_zeroed_point :
  forward_jacobian (FunBare prod_fun) (VarsSeq [1; 2]) = ok [JRow [0; 0]] /\
  forward_primal (FunBare prod_fun) (VarsSeq [1; 2]) = ok [2] /\
  spec_row prod_fun [1; 2] = ok [2; 1].
Proof. repeat split; vm_compute; reflexivity. Qed.

(** C2: on [x0*x1] at (1, 2) the two drivers return different
    derivatives: forward [[0, 0]], reverse [2, 1]. *)
Theorem forward_reverse_disagree :
  forward_jacobian (FunSeq [prod_fun]) (VarsSeq [1; 2]) = ok [JRow [0; 0]] /\
  reverse_jacobian (FunSeq [prod_fun]) (VarsSeq [1; 2]) [] = ok (RList [2; 1]).
Proof. split; vm_compute; reflexivity. Qed.

(** C3: the reverse driver on the two functions of the test
    [test_vector_get_jacobian_RM] at (1, 2) returns the flat list
    [0.625, -6.875, 0, 2].  In the second function's pass the seed node
    of [x0] has no edge and no gradient, and its [grad()] is 0. *)
Theorem reverse_two_functions_jacobian :
  (exists J,
      reverse_jacobian (FunSeq [func1; func2]) (VarsSeq [1; 2]) [] = ok (RList J) /\
      Forall2 Qeq J [0.625; -6.875; 0; 2]) /\
  (exists tr h0 row1 h1 h2 h3,
      rad.mapM rad.new [1; 2] [] = ok (tr, h0) /\
      ReverseAD.row_multi tr func1 h0 = ok (row1, h1) /\
      rad.bind (rad.call func2 (AMany tr)) rad.seed h1 = ok (tt, h2) /\
      h2 !! 0%nat = Some {| rad.real := 1; rad.child := []; rad.gradient := None |} /\
      rad.grad_top 0 h2 = ok (0, h3)).
Proof.
  split.
  - eexists. split; [vm_compute; reflexivity|].
    repeat constructor.
  - do 6 eexists. repeat split; vm_compute; reflexivity.
Qed.

(** C6, as stated, fails: the reverse driver has no primal to report. *)
Lemma reverse_primal_not_11 :
  reverse_primal (FunSeq [scalar_fun]) (VarsSeq [2]) [] <> ok [11].
Proof. vm_compute. discriminate. Qed.

(** C6, amended: for [4*x + 3] at 2 the forward driver reports primal
    [11] and derivative [4]; the reverse driver reports derivative [4]
    (4.0 for a plain number argument) and its [get_primal] raises
    [NotImplementedError]. *)
Theorem scalar_fun_both_engines :
  forward_primal (FunBare scalar_fun) (VarsSeq [2]) = ok [11] /\
  forward_jacobian (FunBare scalar_fun) (VarsSeq [2]) = ok [JNum 4] /\
  forward_primal (FunBare scalar_fun) (VarsNum 2) = ok [11] /\
  forward_jacobian (FunBare scalar_fun) (VarsNum 2) = ok [JNum 4] /\
  reverse_jacobian (FunSeq [scalar_fun]) (VarsSeq [2]) [] = ok (RList [4]) /\
  reverse_jacobian (FunSeq [scalar_fun]) (VarsNum 2) [] = ok (RNum 4) /\
  reverse_primal (FunSeq [scalar_fun]) (VarsSeq [2]) [] =
    raise (NotImplementedError no_primal) /\
  reverse_primal (FunSeq [scalar_fun]) (VarsNum 2) [] =
    raise (NotImplementedError no_primal).
Proof. repeat split; vm_compute; reflexivity. Qed.

(** C7: with one variable the forward driver returns the flat list [4]
    for the one function [4*x + 3] at [[2]], not the 1 x 1 matrix
    [[4]] that the docstrings of [AutoDiff] and of [get_jacobian] show
    and that the branch for several variables would build: the branch
    [self.len_var_list == 1] appends [value.dual] itself, not a row. *)
Lemma forward_single_variable_not_matrix :
  exists j, forward_jacobian (FunSeq [scalar_fun]) (VarsSeq [2]) = ok j /\
            j = [JNum 4] /\ ~ is_matrix 1 1 j.
Proof.
  eexists. split; [vm_compute; reflexivity|]. split; [reflexivity|].
  intros [_ H]. inversion H as [|? ? Hrow _]. exact Hrow.
Qed.

(** ** The store between invocations and between functions *)

(** C4: what the reverse driver returns for a function and a point does
    not depend on the store the invocation starts from, whatever earlier
    invocations left there (edges, gradients, nodes); an invocation is
    never stuck and leaves a well-formed store for the next one; and
    [get_jacobian] called again on the same object returns the same
    value and leaves the object as the first call left it.  The forward
    driver reads and writes no store at all ([AutoDiff.__init__] is a
    function of its two arguments), and inside one forward driver the
    functions handled earlier leave nothing behind for the later ones:
    entry [k] of its primal and of its Jacobian are what function [k]
    gives in a driver of its own. *)
Theorem reverse_idempotent (h : rad.store) (fn : pyfun) (vars : pyvars)
    (self : ReverseAD.t) :
  wf h ->
  reverse_jacobian fn vars h = reverse_jacobian fn vars [] /\
  reverse_primal fn vars h = reverse_primal fn vars [] /\
  ReverseAD.__init__ fn vars h <> raise Stuck /\
  (forall self' h', ReverseAD.__init__ fn vars h = ok (self', h') -> wf h') /\
  ReverseAD.get_jacobian (snd (ReverseAD.get_jacobian self)) =
    (fst (ReverseAD.get_jacobian self), snd (ReverseAD.get_jacobian self)) /\
  (forall fs ad k e,
     AutoDiff.__init__ (FunSeq fs) vars = ok ad -> fs !! k = Some e ->
     exists pk jk,
       AutoDiff.get_primal ad !! k = Some pk /\
       AutoDiff.get_jacobian ad !! k = Some jk /\
       forward_primal (FunSeq [e]) vars = ok [pk] /\
       forward_jacobian (FunSeq [e]) vars = ok [jk]).
Proof.
  intros Hwf. split; [by apply reverse_any_store|].
  split.
  { pose proof (reverse_any_store fn vars h Hwf) as Hj.
    unfold reverse_jacobian, reverse_primal in *.
    destruct (ReverseAD.__init__ fn vars h) as [?|[s1 h1]],
             (ReverseAD.__init__ fn vars []) as [?|[s2 h2]]; simpl in *; try done.
    by inversion Hj. }
  split; [by apply init_not_stuck|].
  split; [intros self' h'; by apply init_wf|].
  split; [apply get_jacobian_twice|].
  intros fs ad k e. apply forward_entries_alone.
Qed.

Lemma reverse_idempotent_witness :
  wf stale_store /\
  reverse_jacobian (FunSeq [func1; func2]) (VarsSeq [1; 2]) stale_store =
  reverse_jacobian (FunSeq [func1; func2]) (VarsSeq [1; 2]) [].
Proof.
  split; [exact wf_stale_store|].
  apply (reverse_idempotent stale_store (FunSeq [func1; func2]) (VarsSeq [1; 2])
           {| ReverseAD.f := FunSeq []; ReverseAD.var_list := VarsSeq [];
              ReverseAD.jacobian := []; ReverseAD.jacobian_single := 0;
              ReverseAD.len_var_list := 0; ReverseAD.trace := None |}
           wf_stale_store).
Defined.

(** C5: for a non-empty variable list the Jacobian of [n] functions is
    the concatenation of the Jacobians the functions give when each is
    passed alone to a driver of its own, in a store of its own; and a
    pass over several variables that returns leaves every seed node as
    [ReverseMode(v)] made it (no edge, gradient unset) and the store
    well formed, ready for the next function. *)
Theorem reverse_rows_independent (h : rad.store) (fs : list expr) (l : list Q) :
  wf h -> l <> [] ->
  jacobian_field (ReverseAD.__init__ (FunSeq fs) (VarsSeq l) h) =
    (let* js := rmap (fun e =>
        jacobian_field (ReverseAD.__init__ (FunSeq [e]) (VarsSeq l) [])) fs in
     ok (concat js)) /\
  forall e s row h',
    seeds_at h s l ->
    ReverseAD.row_multi (seq s (length l)) e h = ok (row, h') ->
    seeds_at h' s l /\ wf h'.
Proof.
  intros Hwf Hl. split.
  - rewrite init_seq_jacobian by done. rewrite rmap_singletons.
    f_equal. apply rmap_ext. intros e.
    rewrite init_seq_jacobian by (done || apply wf_nil). simpl.
    by destruct (canon_row l e).
  - intros e s row h' Hs Hrow.
    pose proof (seeds_at_length _ _ _ Hs Hl) as Hlen.
    pose proof (pass_multi s s l e h h Hwf Hwf Hs Hs Hlen Hlen) as Hrel.
    unfold related in Hrel. rewrite Hrow in Hrel.
    by destruct Hrel as (_ & ? & ? & _).
Qed.

Lemma reverse_rows_independent_witness :
  jacobian_field (ReverseAD.__init__ (FunSeq [func1; func2]) (VarsSeq [1; 2]) stale_store)
  = ok [JRow [5 # 8; -440 # 64]; JRow [0; 2]].
Proof.
  assert (Hne : [1; 2] <> ([] : list Q)) by discriminate.
  rewrite (proj1 (reverse_rows_independent stale_store [func1; func2] [1; 2]
                    wf_stale_store Hne)).
  vm_compute. reflexivity.
Defined.

(** ** Arguments the reverse driver refuses *)

(** C9: an empty variable list makes [ReverseAD] raise
    [TypeError('Variable list cannot be empty!')], whatever the
    functions and the store; no object, hence no Jacobian, results. *)
Theorem reverse_empty_variables (fn : pyfun) (h : rad.store) :
  ReverseAD.__init__ fn (VarsSeq []) h = raise (TypeError empty_variables) /\
  reverse_jacobian fn (VarsSeq []) h = raise (TypeError empty_variables).
Proof. split; reflexivity. Qed.

(** C10: a bare callable is wrapped by [AutoDiff] and handled like the
    one-element list ([4*x + 3] passed bare is accepted); [ReverseAD]
    passes it on as it is and raises [TypeError]: from [len(self.f)]
    for every non-empty variable argument, and the empty-variables one
    otherwise ([4*x + 3] is refused bare and accepted in a list).
    [ReverseAD] returns normally only for a list of callables. *)
Theorem reverse_bare_callable (e : expr) (vars : pyvars) (h : rad.store) :
  ReverseAD.__init__ (FunBare e) vars h =
    raise (TypeError (match vars with
                      | VarsSeq [] => empty_variables
                      | _ => no_len
                      end)) /\
  AutoDiff.__init__ (FunBare e) vars = AutoDiff.__init__ (FunSeq [e]) vars /\
  forward_jacobian (FunBare scalar_fun) (VarsSeq [2]) = ok [JNum 4] /\
  reverse_jacobian (FunBare scalar_fun) (VarsSeq [2]) h = raise (TypeError no_len) /\
  reverse_jacobian (FunSeq [scalar_fun]) (VarsSeq [2]) [] = ok (RList [4]) /\
  forall fn, (exists l, fn = FunSeq l) \/
             exists msg, ReverseAD.__init__ fn vars h = raise (TypeError msg).
Proof.
  split; [apply init_bare|]. split; [reflexivity|].
  split; [vm_compute; reflexivity|].
  split; [unfold reverse_jacobian; by rewrite init_bare|].
  split; [vm_compute; reflexivity|].
  intros [e'|l]; [right|left; by eexists].
  rewrite init_bare. by eexists.
Qed.

(** * Further properties of the drivers *)

(** ** The size of the reverse Jacobian *)

Section ReverseShape.
Import rad ReverseAD.

Lemma mapM_length {A B} (body : A -> M B) (xs : list A) : forall h ys h',
  mapM body xs h = ok (ys, h') -> length ys = length xs.
Proof.
  induction xs as [|x xs IH]; intros h ys h'; simpl.
  - by intros [= <- _].
  - unfold bind at 1. destruct (body x h) as [?|[y h1]]; [done|].
    unfold bind at 1. destruct (mapM body xs h1) as [?|[ys' h2]] eqn:Hxs; [done|].
    intros [= <- _]. simpl. f_equal. by eapply IH.
Qed.

Lemma mapM_Forall {A B} (body : A -> M B) (P : B -> Prop) (xs : list A) :
  (forall x h y h', body x h = ok (y, h') -> P y) ->
  forall h ys h', mapM body xs h = ok (ys, h') -> Forall P ys.
Proof.
  intros Hbody. induction xs as [|x xs IH]; intros h ys h'; simpl.
  - intros [= <- _]. constructor.
  - unfold bind at 1. destruct (body x h) as [?|[y h1]] eqn:Hx; [done|].
    unfold bind at 1. destruct (mapM body xs h1) as [?|[ys' h2]] eqn:Hxs; [done|].
    intros [= <- _]. constructor; [by eapply Hbody|by eapply IH].
Qed.

Lemma row_multi_is_row tr e h j h' :
  row_multi tr e h = ok (j, h') -> is_row (length tr) j.
Proof.
  unfold row_multi. unfold bind at 1.
  destruct (call e (AMany tr) h) as [?|[z h1]]; [done|].
  unfold bind at 1. destruct (seed z h1) as [?|[[] h2]]; [done|].
  unfold bind at 1.
  destruct (mapM grad_top tr h2) as [?|[row h3]] eqn:Hrow; [done|].
  unfold bind at 1. destruct (mapM reset tr h3) as [?|[us h4]]; [done|].
  intros [= <- _]. simpl. by eapply mapM_length.
Qed.

Lemma row_single_is_num v e h j h' :
  row_single v e h = ok (j, h') -> is_num j.
Proof.
  unfold row_single. unfold bind at 1.
  destruct (scalar_pass v e h) as [?|[g h1]]; [done|]. by intros [= <- _].
Qed.

Lemma flatten_rows n (js : list jentry) :
  Forall (is_row n) js -> length (flatten js) = (length js * n)%nat.
Proof.
  unfold flatten. induction 1 as [|j js Hj _ IH]; simpl; [done|].
  rewrite length_app, IH. destruct j as [|row]; [done|]. simpl in Hj. lia.
Qed.

Lemma flatten_nums (js : list jentry) :
  Forall is_num js -> length (flatten js) = length js.
Proof.
  unfold flatten. induction 1 as [|j js Hj _ IH]; simpl; [done|].
  rewrite length_app, IH. by destruct j.
Qed.

Lemma init_run_single fs v h :
  jacobian_field (__init__ (FunSeq fs) (VarsSeq [v]) h) =
  result (mapM (row_single v) fs h).
Proof.
  unfold __init__, _compute. simpl. unfold bind at 1 2. simpl.
  by rewrite jacobian_field_set.
Qed.

Lemma init_run_multi fs l h :
  (2 <= length l)%nat ->
  jacobian_field (__init__ (FunSeq fs) (VarsSeq l) h) =
  result (mapM (row_multi (seq (length h) (length l))) fs (h ++ (fresh <$> l))).
Proof.
  intros Hl.
  assert (Nat.ltb 1 (length l) = true) as Hlt by (apply Nat.ltb_lt; lia).
  assert (Nat.eqb (length l) 1 = false) as Hne by (apply Nat.eqb_neq; lia).
  unfold __init__. rewrite Hlt. unfold bind at 1 2. rewrite mapM_new_ok.
  unfold ret at 1. simpl. unfold _compute. simpl. rewrite Hne, Hlt.
  unfold bind at 1. simpl. by rewrite jacobian_field_set.
Qed.

End ReverseShape.

(** X1: when [ReverseAD] is given [m] functions and a list of [n]
    variables and returns, [get_jacobian] returns a flat list of exactly
    [m * n] numbers (the rows of the functions one after the other);
    given a plain number it returns a single number, not a list. *)
Theorem reverse_jacobian_size (fs : list expr) (l : list Q) (h : rad.store)
    (r : pyres) :
  reverse_jacobian (FunSeq fs) (VarsSeq l) h = ok r ->
  (exists J, r = RList J /\ length J = (length fs * length l)%nat) /\
  (forall v r', reverse_jacobian (FunSeq fs) (VarsNum v) h = ok r' ->
     exists g, r' = RNum g).
Proof.
  intros Hr. split.
  - rewrite reverse_jacobian_seq in Hr.
    destruct (jacobian_field _) as [?|js] eqn:Hjs; simpl in Hr; [done|].
    injection Hr as <-. eexists. split; [done|].
    destruct l as [|v1 [|v2 l]].
    + by destruct fs.
    + rewrite init_run_single in Hjs. unfold result in Hjs.
      destruct (rad.mapM _ fs h) as [?|[rows h1]] eqn:Hrows; simpl in Hjs; [done|].
      injection Hjs as <-. rewrite flatten_nums.
      * apply mapM_length in Hrows. simpl. lia.
      * eapply mapM_Forall; [|done]. intros e h0 j h0'. apply row_single_is_num.
    + rewrite init_run_multi in Hjs by (simpl; lia). unfold result in Hjs.
      destruct (rad.mapM _ fs _) as [?|[rows h1]] eqn:Hrows; simpl in Hjs; [done|].
      injection Hjs as <-. rewrite (flatten_rows (length (v1 :: v2 :: l))).
      * apply mapM_length in Hrows. by rewrite Hrows.
      * eapply mapM_Forall; [|done]. intros e h0 j h0' Hrow.
        apply row_multi_is_row in Hrow. by rewrite length_seq in Hrow.
  - intros v r'. unfold reverse_jacobian.
    destruct (ReverseAD.__init__ _ _ h) as [?|[self h1]] eqn:Hinit; simpl; [done|].
    apply init_var_list in Hinit. unfold ReverseAD.get_jacobian. rewrite Hinit.
    intros [= <-]. by eexists.
Qed.

Lemma reverse_jacobian_size_witness :
  exists J, reverse_jacobian (FunSeq [func1; func2]) (VarsSeq [1; 2]) stale_store
            = ok (RList J) /\ length J = 4%nat.
Proof.
  assert (H : reverse_jacobian (FunSeq [func1; func2]) (VarsSeq [1; 2]) stale_store
              = ok (RList [5 # 8; -440 # 64; 0; 2])) by (vm_compute; reflexivity).
  destruct (proj1 (reverse_jacobian_size _ _ _ _ H)) as (J & HJ & Hlen).
  exists J. split; [by rewrite H, HJ|exact Hlen].
Defined.

(** ** The primal and the stored arguments of the forward driver *)

Lemma compute_loop_fields (fs : list expr) (self self' : AutoDiff.t) :
  AutoDiff.compute_loop self fs = ok self' ->
  AutoDiff.f self' = AutoDiff.f self /\
  AutoDiff.var_list self' = AutoDiff.var_list self.
Proof.
  revert self. induction fs as [|e fs IH]; intros self Hrun; simpl in Hrun.
  - by inversion Hrun.
  - pose proof (compute_one_frame self self e eq_refl eq_refl) as Hone.
    destruct (AutoDiff.compute_one self e) as [?|s1]; simpl in Hrun; [done|].
    destruct Hone as (p & j & -> & _). by apply IH in Hrun.
Qed.

Lemma forward_arg_many (l : list Q) :
  length l <> 1%nat ->
  forward_arg l = AMany (map (fun v => {| fad.real := v; fad.dual := 1 |}) l).
Proof. by destruct l as [|v [|v' l]]. Qed.

(** What one turn of the loop evaluates and stores as the primal. *)
Lemma compute_one_primal (self : AutoDiff.t) (l : list Q) (e : expr) p j :
  AutoDiff.len_var_list self = length l ->
  AutoDiff.trace self = map (fun v => {| fad.real := v; fad.dual := 1 |}) l ->
  AutoDiff.compute_one self e = ok (AutoDiff.append_result self p j) ->
  exists v, fad.call e (forward_arg l) = ok v /\ fad.get_real v = ok p.
Proof.
  intros Hn Ht. unfold AutoDiff.compute_one. rewrite Hn, Ht.
  destruct (Nat.eqb_spec (length l) 1) as [H1|H1].
  - destruct l as [|x [|x' l]]; try done. simpl.
    destruct (fad.call e (AOne _)) as [?|value]; simpl; [done|].
    destruct (fad.get_real value) as [?|p'] eqn:Hp; simpl; [done|].
    destruct (fad.get_dual value) as [?|d]; simpl; [done|].
    intros [= _ Hpr]. apply app_inv_head in Hpr. injection Hpr as ->.
    by exists value.
  - rewrite forward_arg_many by done.
    destruct (fad.call e (AMany _)) as [?|value]; simpl; [done|].
    destruct (rmap _ _) as [?|tangent]; simpl; [done|].
    destruct (fad.get_real value) as [?|p'] eqn:Hp; simpl; [done|].
    intros [= _ Hpr]. apply app_inv_head in Hpr. injection Hpr as ->.
    by exists value.
Qed.

(** X2: the primal the forward driver returns has one entry per
    function, and entry [k] is the value of function [k] at the
    supplied point, all coordinates at their supplied values (also with
    several variables, where the partials are taken elsewhere). *)
Theorem forward_primal_values (fn : pyfun) (vars : pyvars) (ps : list Q) :
  forward_primal fn vars = ok ps ->
  length ps = length (array_of_funs fn) /\
  forall k e, array_of_funs fn !! k = Some e ->
    exists v p, fad.call e (forward_arg (array_of_vars vars)) = ok v /\
                fad.get_real v = ok p /\ ps !! k = Some p.
Proof.
  unfold forward_primal, AutoDiff.__init__, AutoDiff._compute. simpl.
  fold (array_of_funs fn). fold (array_of_vars vars).
  set (self0 := {| AutoDiff.f := array_of_funs fn |}).
  destruct (AutoDiff.compute_loop self0 _) as [?|ad] eqn:Hrun; simpl; [done|].
  intros [= <-].
  destruct (compute_loop_primal _ _ _ Hrun) as (ps & Hps & Hlen & Hk).
  unfold AutoDiff.get_primal. rewrite Hps. simpl. split; [done|].
  intros k e He.
  destruct (Hk k e self0 He eq_refl eq_refl) as (p & jk & Hone & Hp).
  apply (compute_one_primal self0 (array_of_vars vars)) in Hone as (v & Hv & Hr);
    [|by rewrite ?length_map..].
  by exists v, p.
Qed.

Lemma forward_primal_values_witness :
  forward_primal (FunSeq [prod_fun]) (VarsSeq [3; 4]) = ok [3 * 4] /\
  exists v p, fad.call prod_fun (forward_arg [3; 4]) = ok v /\
              fad.get_real v = ok p /\ [3 * 4] !! 0%nat = Some p.
Proof.
  assert (H : forward_primal (FunSeq [prod_fun]) (VarsSeq [3; 4]) = ok [3 * 4])
    by reflexivity.
  split; [exact H|].
  exact (proj2 (forward_primal_values _ _ _ H) 0%nat prod_fun eq_refl).
Defined.

(** X3: the object the forward driver builds holds its two arguments
    as arrays (a bare function and a bare number become one-element
    arrays), whatever the computation appended, and its primal and its
    Jacobian have one entry per function. *)
Theorem forward_object_fields (fn : pyfun) (vars : pyvars) (ad : AutoDiff.t) :
  AutoDiff.__init__ fn vars = ok ad ->
  AutoDiff.get_f ad = array_of_funs fn /\
  AutoDiff.get_var_list ad = array_of_vars vars /\
  length (AutoDiff.get_primal ad) = length (array_of_funs fn) /\
  length (AutoDiff.get_jacobian ad) = length (array_of_funs fn).
Proof.
  unfold AutoDiff.__init__, AutoDiff._compute. simpl.
  fold (array_of_funs fn). fold (array_of_vars vars). intros Hrun.
  destruct (compute_loop_fields _ _ _ Hrun) as [Hf Hv].
  destruct (compute_loop_primal _ _ _ Hrun) as (ps & Hps & Hlen & _).
  destruct (compute_loop_spec _ _ _ Hrun) as (_ & _ & js & Hjs & Hlenj & _).
  unfold AutoDiff.get_f, AutoDiff.get_var_list, AutoDiff.get_primal,
    AutoDiff.get_jacobian.
  rewrite Hf, Hv, Hps, Hjs. by simpl.
Qed.

Lemma forward_object_fields_witness :
  exists ad, AutoDiff.__init__ (FunBare scalar_fun) (VarsNum 2) = ok ad /\
             AutoDiff.get_f ad = [scalar_fun] /\
             AutoDiff.get_var_list ad = [2].
Proof.
  destruct (AutoDiff.__init__ (FunBare scalar_fun) (VarsNum 2)) as [err|ad] eqn:H.
  - vm_compute in H. discriminate H.
  - exists ad. split; [reflexivity|].
    destruct (forward_object_fields _ _ _ H) as (Hf & Hv & _). by split.
Defined.

(** ** Functions that do not use their argument *)

Lemma fad_call_closed (e : expr) (x : arg fad.DualNumber) :
  closed e = true ->
  fad.call e x = let* q := plain e in ok (VNum q).
Proof.
  unfold plain. revert x.
  induction e as [| |c|op a IHa b IHb|op a IHa]; intros x Hc; simpl in Hc;
    try done.
  - apply andb_true_iff in Hc as [Ha Hb]. simpl.
    rewrite (IHa x Ha), (IHb x Hb), (IHa (AMany []) Ha), (IHb (AMany []) Hb).
    destruct (fad.call a (AMany [])) as [?|va]; simpl; [done|].
    destruct (fad.get_real va) as [?|qa]; simpl; [done|].
    destruct (fad.call b (AMany [])) as [?|vb]; simpl; [done|].
    destruct (fad.get_real vb) as [?|qb]; simpl; [done|].
    by destruct (native2 op qa qb).
  - simpl. rewrite (IHa x Hc), (IHa (AMany []) Hc).
    destruct (fad.call a (AMany [])) as [?|va]; simpl; [done|].
    destruct (fad.get_real va) as [?|qa]; simpl; [done|].
    by destruct (native1 op qa).
Qed.

Lemma plain_bin (op : binop) (a b : expr) :
  closed a = true -> closed b = true ->
  plain (Bin op a b) =
  let* qa := plain a in let* qb := plain b in native2 op qa qb.
Proof.
  intros Ha Hb. unfold plain at 1. simpl.
  rewrite (fad_call_closed a _ Ha), (fad_call_closed b _ Hb).
  destruct (plain a) as [?|qa]; simpl; [done|].
  destruct (plain b) as [?|qb]; simpl; [done|].
  by destruct (native2 op qa qb).
Qed.

Lemma plain_un (op : unop) (a : expr) :
  closed a = true ->
  plain (Un op a) = let* qa := plain a in native1 op qa.
Proof.
  intros Ha. unfold plain at 1. simpl. rewrite (fad_call_closed a _ Ha).
  destruct (plain a) as [?|qa]; simpl; [done|].
  by destruct (native1 op qa).
Qed.

Lemma rad_call_closed (e : expr) (x : arg nat) (h : rad.store) :
  closed e = true ->
  rad.call e x h = rad.lift_res (let* q := plain e in ok (VNum q)) h.
Proof.
  induction e as [| |c|op a IHa b IHb|op a IHa]; intros Hc; simpl in Hc;
    try done.
  - apply andb_true_iff in Hc as [Ha Hb]. rewrite (plain_bin op a b Ha Hb).
    simpl. unfold rad.bind at 1. rewrite (IHa Ha). unfold rad.lift_res at 1.
    destruct (plain a) as [?|qa]; simpl; [done|].
    unfold rad.bind at 1. rewrite (IHb Hb). unfold rad.lift_res at 1.
    destruct (plain b) as [?|qb]; simpl; [done|].
    unfold rad.bind, rad.lift_res, rad.ret.
    by destruct (native2 op qa qb).
  - rewrite (plain_un op a Hc).
    simpl. unfold rad.bind at 1. rewrite (IHa Hc). unfold rad.lift_res at 1.
    destruct (plain a) as [?|qa]; simpl; [done|].
    unfold rad.bind, rad.lift_res, rad.ret.
    by destruct (native1 op qa).
Qed.

Lemma call_empty_closed (e : expr) (v : val fad.DualNumber) :
  fad.call e (AMany []) = ok v -> closed e = true.
Proof.
  revert v. induction e as [|i|c|op a IHa b IHb|op a IHa]; intros v; simpl;
    try done.
  - destruct (fad.call a (AMany [])) as [?|va]; simpl; [done|].
    destruct (fad.call b (AMany [])) as [?|vb]; simpl; [done|].
    intros _. by rewrite (IHa va), (IHb vb).
  - destruct (fad.call a (AMany [])) as [?|va]; simpl; [done|].
    intros _. by apply (IHa va).
Qed.

Lemma plain_closed (e : expr) (q : Q) : plain e = ok q -> closed e = true.
Proof.
  unfold plain. destruct (fad.call e (AMany [])) as [?|v] eqn:Hv; [done|].
  intros _. by eapply call_empty_closed.
Qed.

(** X4: a function that does not use its argument (it returns a plain
    number, not a value of the kernel) is refused by both drivers at any
    non-empty point: once its own arithmetic has succeeded, reading the
    tangent, or seeding the gradient, of a plain number raises
    [AttributeError]. *)
Theorem constant_function_rejected (e : expr) (vars : pyvars) (h : rad.store) :
  closed e = true -> array_of_vars vars <> [] ->
  forward_jacobian (FunSeq [e]) vars = (let* _ := plain e in raise AttributeError) /\
  reverse_jacobian (FunSeq [e]) vars h = (let* _ := plain e in raise AttributeError).
Proof.
  intros Hc Hne. split.
  - unfold forward_jacobian, AutoDiff.__init__, AutoDiff._compute. simpl.
    fold (array_of_vars vars). destruct (array_of_vars vars) as [|v [|v' l]];
      [done| |].
    + unfold AutoDiff.compute_one. simpl. rewrite (fad_call_closed e _ Hc).
      by destruct (plain e).
    + unfold AutoDiff.compute_one. cbn [length Nat.eqb AutoDiff.len_var_list
        AutoDiff.trace]. rewrite (fad_call_closed e _ Hc).
      destruct (plain e) as [?|q] eqn:Hq; simpl; [done|].
      unfold AutoDiff.partial_at at 1. simpl.
      rewrite (fad_call_closed e _ Hc), Hq. by simpl.
  - destruct vars as [v|[|v [|v' l]]]; [|done| |].
    + rewrite reverse_jacobian_num. unfold ReverseAD.scalar_pass.
      unfold rad.bind at 1. unfold rad.new at 1. simpl.
      unfold rad.bind at 1. rewrite (rad_call_closed e _ _ Hc).
      unfold rad.lift_res. by destruct (plain e).
    + rewrite reverse_jacobian_seq, init_run_single. simpl.
      unfold rad.bind at 1. unfold ReverseAD.row_single, ReverseAD.scalar_pass.
      unfold rad.bind at 1 2. unfold rad.new at 1. simpl.
      unfold rad.bind at 1. rewrite (rad_call_closed e _ _ Hc).
      unfold rad.lift_res. by destruct (plain e).
    + rewrite reverse_jacobian_seq, init_run_multi by (simpl; lia).
      cbn [rad.mapM]. unfold rad.bind at 1. unfold ReverseAD.row_multi.
      unfold rad.bind at 1. rewrite (rad_call_closed e _ _ Hc).
      unfold rad.lift_res. by destruct (plain e).
Qed.

Lemma constant_function_rejected_witness :
  forward_jacobian (FunSeq [Const 3]) (VarsSeq [1; 2]) = raise AttributeError /\
  reverse_jacobian (FunSeq [Const 3]) (VarsSeq [1; 2]) [] = raise AttributeError.
Proof.
  apply (constant_function_rejected (Const 3) (VarsSeq [1; 2]) []); done.
Defined.

(** ** The forward driver without variables *)

Lemma compute_loop_empty (fs : list expr) (self : AutoDiff.t) :
  AutoDiff.len_var_list self = 0%nat -> AutoDiff.trace self = [] ->
  AutoDiff.compute_loop self fs =
  let* ps := rmap plain fs in
  ok {| AutoDiff.f := AutoDiff.f self;
        AutoDiff.var_list := AutoDiff.var_list self;
        AutoDiff.len_var_list := 0;
        AutoDiff.jacobian := AutoDiff.jacobian self ++ map (fun _ => JRow []) ps;
        AutoDiff.primal := AutoDiff.primal self ++ ps;
        AutoDiff.trace := [] |}.
Proof.
  revert self. induction fs as [|e fs IH]; intros self Hn Ht.
  - destruct self; simpl in *; subst. by rewrite !app_nil_r.
  - cbn [AutoDiff.compute_loop rmap]. unfold AutoDiff.compute_one.
    rewrite Hn, Ht. simpl.
    assert (plain e = let* v := fad.call e (AMany []) in fad.get_real v) as ->
      by done.
    destruct (fad.call e (AMany [])) as [?|v]; simpl; [done|].
    destruct (fad.get_real v) as [?|p]; simpl; [done|].
    rewrite IH by done. simpl.
    destruct (rmap plain fs) as [?|ps]; simpl; [done|].
    by rewrite <- !app_assoc.
Qed.

(** X5: unlike the reverse driver, the forward driver accepts an empty
    list of variables.  Every function is then called with an empty
    list: the primal holds the plain numbers the functions return, every
    row of the Jacobian is empty, and a function that reads its argument
    makes the construction fail. *)
Theorem forward_empty_variables (fs : list expr) :
  forward_primal (FunSeq fs) (VarsSeq []) = rmap plain fs /\
  forall J, forward_jacobian (FunSeq fs) (VarsSeq []) = ok J ->
    J = replicate (length fs) (JRow []) /\
    Forall (fun e => closed e = true) fs.
Proof.
  unfold forward_primal, forward_jacobian, AutoDiff.__init__, AutoDiff._compute.
  cbn [AutoDiff.f]. rewrite compute_loop_empty by done. simpl. split.
  - by destruct (rmap plain fs).
  - intros J. destruct (rmap plain fs) as [?|ps] eqn:Hps; simpl; [done|].
    intros [= <-]. revert ps Hps.
    induction fs as [|e fs IH]; intros ps; simpl.
    + by intros [= <-].
    + destruct (plain e) as [?|p] eqn:Hp; simpl; [done|].
      destruct (rmap plain fs) as [?|ps']; simpl; [done|].
      intros [= <-]. destruct (IH ps' eq_refl) as [Heq Hall]. simpl.
      rewrite Heq. split; [done|]. constructor; [by eapply plain_closed|done].
Qed.

(** ** A number or a one-element list in the reverse driver *)

(** X6: for one function, the reverse driver computes the same
    derivative, or raises the same exception, for the number [v] and
    for the list [[v]]; it returns a float for the first and a list of
    one float for the second.  With a plain number and any other count
    of functions the construction raises the [TypeError] that asks for
    an array. *)
Theorem reverse_number_or_singleton (e : expr) (v : Q) (h : rad.store) :
  reverse_jacobian (FunSeq [e]) (VarsSeq [v]) h =
    (let* r := reverse_jacobian (FunSeq [e]) (VarsNum v) h in
     ok (RList match r with RNum g => [g] | RList l => l end)) /\
  forall fs, length fs <> 1%nat ->
    reverse_jacobian (FunSeq fs) (VarsNum v) h =
    raise (TypeError multiple_functions).
Proof.
  split.
  - rewrite reverse_jacobian_num, reverse_jacobian_seq, init_run_single.
    simpl. unfold rad.bind at 1. unfold ReverseAD.row_single, rad.bind at 1.
    unfold result.
    by destruct (ReverseAD.scalar_pass v e h) as [?|[g h1]].
  - intros fs Hfs. unfold reverse_jacobian, ReverseAD.__init__, ReverseAD._compute.
    simpl. unfold rad.bind, rad.ret, rad.lift_res. simpl.
    by destruct (Nat.eqb_spec (length fs) 1).
Qed.

Lemma reverse_number_or_singleton_witness :
  reverse_jacobian (FunSeq [func1; func2]) (VarsNum 2) [] =
  raise (TypeError multiple_functions).
Proof.
  apply (proj2 (reverse_number_or_singleton scalar_fun 2 []) [func1; func2]).
  simpl. lia.
Defined.

(** ** The reverse pass computes the forward tangents *)

Section Adjoint.
Import rad.

Lemma fold_edge_acc (A : nat -> Q) (l : list (Q * nat)) (acc : Q) :
  fold_left (fun acc wc => acc + fst wc * A (snd wc)) l acc == acc + edge_sum A l.
Proof.
  unfold edge_sum. revert acc. induction l as [|[w c] l IH]; intros acc; simpl.
  - ring.
  - rewrite IH, (IH (0 + w * A c)). ring.
Qed.

Lemma edge_sum_app (A : nat -> Q) (l1 l2 : list (Q * nat)) :
  edge_sum A (l1 ++ l2) == edge_sum A l1 + edge_sum A l2.
Proof. unfold edge_sum at 1. rewrite fold_left_app, fold_edge_acc. reflexivity. Qed.

Lemma edge_sum_one (A : nat -> Q) (w : Q) (c : nat) :
  edge_sum A [(w, c)] == w * A c.
Proof. unfold edge_sum. simpl. ring. Qed.

Lemma edge_sum_ext (A B : nat -> Q) (l : list (Q * nat)) :
  Forall (fun wc => A (snd wc) = B (snd wc)) l -> edge_sum A l = edge_sum B l.
Proof.
  unfold edge_sum. generalize 0. induction l as [|[w c] l IH]; intros acc Hl;
    simpl; [done|].
  inversion Hl as [|? ? Hc Hl']; subst. simpl in Hc. rewrite Hc. by apply IH.
Qed.

(** *** The store after an operation *)

Lemma with_edges_length E G : length (with_edges E G) = length G.
Proof. unfold with_edges. by rewrite length_imap. Qed.

Lemma with_edges_lookup E G u :
  with_edges E G !! u =
  (fun nd => {| real := real nd; child := child nd ++ E u;
                gradient := gradient nd |}) <$> G !! u.
Proof. unfold with_edges. by rewrite list_lookup_imap. Qed.

Lemma with_edges_ext E E' G :
  (forall u, (u < length G)%nat -> E u = E' u) -> with_edges E G = with_edges E' G.
Proof.
  intros HE. apply list_eq. intros u. rewrite !with_edges_lookup.
  destruct (G !! u) as [nd|] eqn:Hu; [|done]. simpl.
  rewrite HE; [done|]. by eapply lookup_lt_Some.
Qed.

Lemma with_edges_nil G : with_edges (fun _ => []) G = G.
Proof.
  apply list_eq. intros u. rewrite with_edges_lookup.
  destruct (G !! u) as [[]|]; [|done]. simpl. by rewrite app_nil_r.
Qed.

Lemma add_child_with_edges E G w r p z :
  (r < length G)%nat ->
  add_child r p z (with_edges E G ++ [w]) =
  ok (tt, with_edges (fun u => E u ++ (if Nat.eqb r u then [(p, z)] else [])) G
          ++ [w]).
Proof.
  intros Hr. destruct (lookup_lt_is_Some_2 G r Hr) as [nd Hnd].
  unfold add_child, update.
  rewrite lookup_app_l by (by rewrite with_edges_length).
  rewrite with_edges_lookup, Hnd. simpl. f_equal. f_equal.
  apply list_eq. intros u. destruct (decide (u = r)) as [->|Hne].
  - rewrite list_lookup_insert_eq
      by (rewrite length_app, with_edges_length; simpl; lia).
    rewrite lookup_app_l by (by rewrite with_edges_length).
    rewrite with_edges_lookup, Hnd. simpl. rewrite Nat.eqb_refl.
    by rewrite app_assoc.
  - rewrite list_lookup_insert_ne by done.
    destruct (decide (u < length G)%nat) as [Hu|Hu].
    + rewrite !lookup_app_l by (by rewrite with_edges_length).
      rewrite !with_edges_lookup. destruct (G !! u) as [nd'|]; [|done]. simpl.
      destruct (Nat.eqb_spec r u) as [->|_]; [done|]. by rewrite app_nil_r.
    + rewrite !lookup_app_r by (rewrite with_edges_length; lia).
      by rewrite !with_edges_length.
Qed.

(** The primal of an operand, read in the store. *)
Lemma apply2_node op va vb G xa xb :
  some_node va vb ->
  match va with VNum y => Some y | VKer r => real <$> G !! r end = Some xa ->
  match vb with VNum y => Some y | VKer r => real <$> G !! r end = Some xb ->
  apply2 op va vb G =
  match local2 op xa xb with
  | inl err => inl err
  | inr (v, pa, pb) =>
      ok (VKer (length G),
          with_edges (fun u => link va pa (length G) u ++ link vb pb (length G) u) G
          ++ [fresh v])
  end.
Proof.
  intros Hnn Ha Hb. destruct va as [ya|ra], vb as [yb|rb]; [done| | |].
  - injection Ha as ->.
    destruct (G !! rb) as [nb|] eqn:Hnb; [|done]. injection Hb as <-.
    pose proof (lookup_lt_Some _ _ _ Hnb) as Hlt.
    unfold apply2. unfold bind at 1. unfold get. rewrite Hnb. unfold ok at 1.
    unfold bind at 1. unfold lift_res.
    destruct (local2 op xa (real nb)) as [?|[[v pa] pb]]; [done|].
    unfold ok at 1. unfold bind at 1. unfold new. unfold ok at 1.
    unfold bind, ret. replace (G ++ [fresh v]) with (with_edges (fun _ => []) G ++ [fresh v])
      by (by rewrite with_edges_nil).
    rewrite add_child_with_edges by done. unfold ok at 1.
    done.
  - injection Hb as ->.
    destruct (G !! ra) as [na|] eqn:Hna; [|done]. injection Ha as <-.
    pose proof (lookup_lt_Some _ _ _ Hna) as Hlt.
    unfold apply2. unfold bind at 1. unfold get. rewrite Hna. unfold ok at 1.
    unfold bind at 1. unfold lift_res.
    destruct (local2 op (real na) xb) as [?|[[v pa] pb]]; [done|].
    unfold ok at 1. unfold bind at 1. unfold new. unfold ok at 1.
    unfold bind, ret. replace (G ++ [fresh v]) with (with_edges (fun _ => []) G ++ [fresh v])
      by (by rewrite with_edges_nil).
    rewrite add_child_with_edges by done. unfold ok at 1.
    do 3 f_equal.
    apply with_edges_ext. intros u _. simpl. by rewrite app_nil_r.
  - destruct (G !! ra) as [na|] eqn:Hna; [|done]. injection Ha as <-.
    destruct (G !! rb) as [nb|] eqn:Hnb; [|done]. injection Hb as <-.
    pose proof (lookup_lt_Some _ _ _ Hna) as Hlta.
    pose proof (lookup_lt_Some _ _ _ Hnb) as Hltb.
    unfold apply2. unfold bind at 1. unfold get at 1. rewrite Hna.
    unfold ok at 1. unfold bind at 1. unfold get at 1. rewrite Hnb.
    unfold ok at 1. unfold bind at 1. unfold lift_res.
    destruct (local2 op (real na) (real nb)) as [?|[[v pa] pb]]; [done|].
    unfold ok at 1. unfold bind at 1. unfold new. unfold ok at 1.
    unfold bind at 1. replace (G ++ [fresh v]) with (with_edges (fun _ => []) G ++ [fresh v])
      by (by rewrite with_edges_nil).
    rewrite add_child_with_edges by done. unfold ok at 1.
    unfold bind, ret. rewrite add_child_with_edges by done. unfold ok at 1.
    done.
Qed.

Lemma apply1_node op ra G xa :
  real <$> G !! ra = Some xa ->
  apply1 op (VKer ra) G =
  match local1 op xa with
  | inl err => inl err
  | inr (v, pa) =>
      ok (VKer (length G),
          with_edges (fun u => link (VKer ra) pa (length G) u) G ++ [fresh v])
  end.
Proof.
  intros Ha. destruct (G !! ra) as [na|] eqn:Hna; [|done]. injection Ha as <-.
  pose proof (lookup_lt_Some _ _ _ Hna) as Hlt.
  unfold apply1. unfold bind at 1. unfold get. rewrite Hna. unfold ok at 1.
  unfold bind at 1. unfold lift_res.
  destruct (local1 op (real na)) as [?|[v pa]]; [done|].
  unfold ok at 1. unfold bind at 1. unfold new. unfold ok at 1.
  unfold bind, ret. replace (G ++ [fresh v]) with (with_edges (fun _ => []) G ++ [fresh v])
      by (by rewrite with_edges_nil).
  rewrite add_child_with_edges by done. unfold ok at 1.
  done.
Qed.

End Adjoint.

Section Accounting.
Import rad.

Lemma keeps_refl G : keeps G G.
Proof. intros u nd Hu. by exists nd. Qed.

Lemma keeps_trans G1 G2 G3 : keeps G1 G2 -> keeps G2 G3 -> keeps G1 G3.
Proof.
  intros H12 H23 u nd Hu.
  destruct (H12 u nd Hu) as (nd2 & Hu2 & Hr2 & Hg2).
  destruct (H23 u nd2 Hu2) as (nd3 & Hu3 & Hr3 & Hg3).
  exists nd3. split; [done|]. split; congruence.
Qed.

Lemma keeps_length G G' : keeps G G' -> (length G <= length G')%nat.
Proof.
  intros Hk. destruct (decide (length G <= length G')%nat) as [|Hlt]; [done|].
  destruct (lookup_lt_is_Some_2 G (length G')) as [nd Hnd]; [lia|].
  destruct (Hk _ _ Hnd) as (nd' & Hnd' & _).
  apply lookup_lt_Some in Hnd'. lia.
Qed.

Lemma grows_refl x G : grows (length G) x G G.
Proof.
  split; [apply keeps_refl|]. split; [done|].
  intros u nd Hu Hnd. apply lookup_lt_Some in Hnd. lia.
Qed.

Lemma grows_trans n0 n1 x G G1 G2 :
  (n0 <= n1 <= length G1)%nat ->
  grows n0 x G G1 -> grows n1 x G1 G2 -> grows n0 x G G2.
Proof.
  intros Hn (Hk1 & Hf1 & Hn1) (Hk2 & Hf2 & Hn2).
  split; [by eapply keeps_trans|]. split.
  - intros u Hu Hx. rewrite Hf2 by (done || lia). by apply Hf1.
  - intros u nd Hu Hnd. destruct (decide (n1 <= u)%nat) as [|Hlt].
    { by eapply Hn2. }
    destruct (lookup_lt_is_Some_2 G1 u) as [nd1 Hnd1]; [lia|].
    destruct (Hk2 _ _ Hnd1) as (nd2 & Hnd2 & _ & Hg).
    rewrite Hnd in Hnd2. injection Hnd2 as <-. rewrite Hg. by eapply Hn1.
Qed.

Lemma seed_pair_keeps s G G' r d :
  keeps G G' -> seed_pair s G r d -> seed_pair s G' r d.
Proof.
  intros Hk (nd & Hnd & Hr & Hd). destruct (Hk _ _ Hnd) as (nd' & Hnd' & Hr' & _).
  exists nd'. split; [done|]. split; congruence.
Qed.

Lemma args_pair_keeps s G G' x xf :
  keeps G G' -> args_pair s G x xf -> args_pair s G' x xf.
Proof.
  intros Hk. destruct x as [r|tr], xf as [d|ds]; simpl; try done.
  - by apply seed_pair_keeps.
  - intros H. eapply Forall2_impl; [done|]. intros r d. by apply seed_pair_keeps.
Qed.

Lemma args_pair_lt s G x xf r :
  args_pair s G x xf -> in_arg x r -> (r < length G)%nat.
Proof.
  destruct x as [r0|tr], xf as [d|ds]; simpl; try done.
  - intros (nd & Hnd & _) ->. by eapply lookup_lt_Some.
  - intros H Hr. apply list_elem_of_lookup in Hr as [i Hi].
    destruct (Forall2_lookup_l _ _ _ _ _ H Hi) as (d & _ & nd & Hnd & _).
    by eapply lookup_lt_Some.
Qed.

Lemma accounted_grows s x G fv v G' :
  accounted s x G fv v G' -> grows (length G) x G G'.
Proof.
  destruct fv as [q|d], v as [q'|r]; simpl; try done.
  - intros [_ ->]. apply grows_refl.
  - intros [(-> & _)|(_ & _ & _ & Hg & _)]; [apply grows_refl|done].
Qed.

Lemma accounted_pos s x G d r G' :
  accounted s x G (VKer d) (VKer r) G' ->
  (in_arg x r /\ G' = G) \/ ((length G <= r)%nat /\ S r = length G').
Proof. intros [(-> & ? & _)|(? & ? & _)]; [by left|by right]. Qed.

(** The primal of an operand after the evaluations that follow its own. *)
Lemma operand_real s x Ga Ga' G2 fv v :
  accounted s x Ga fv v Ga' -> keeps Ga' G2 ->
  match v with VNum y => Some y | VKer r => real <$> G2 !! r end =
  Some (fad.real (fad.lift fv)).
Proof.
  intros Hacc Hk. destruct fv as [q|d], v as [q'|r]; simpl in *; try done.
  - by destruct Hacc as [-> _].
  - destruct Hacc as [(-> & _ & nd & Hnd & Hr & _)|(_ & _ & Hnd & _)].
    + destruct (Hk _ _ Hnd) as (nd' & -> & Hr' & _). simpl. congruence.
    + destruct (Hk _ _ Hnd) as (nd' & -> & Hr' & _). simpl. by rewrite Hr'.
Qed.

(** *** The store after a new node *)

Lemma node_lookup_old E G w u :
  (u < length G)%nat ->
  (with_edges E G ++ [w]) !! u =
  (fun nd => {| real := real nd; child := child nd ++ E u;
                gradient := gradient nd |}) <$> G !! u.
Proof.
  intros Hu. rewrite lookup_app_l by (by rewrite with_edges_length).
  apply with_edges_lookup.
Qed.

Lemma node_lookup_new E G w : (with_edges E G ++ [w]) !! length G = Some w.
Proof.
  rewrite lookup_app_r by (by rewrite with_edges_length).
  by rewrite with_edges_length, Nat.sub_diag.
Qed.

Lemma node_lookup_same E G w u :
  (u < length G)%nat -> E u = [] -> (with_edges E G ++ [w]) !! u = G !! u.
Proof.
  intros Hu HE. rewrite node_lookup_old, HE by done.
  destruct (G !! u) as [[]|]; [|done]. simpl. by rewrite app_nil_r.
Qed.

Lemma node_keeps E G w : keeps G (with_edges E G ++ [w]).
Proof.
  intros u nd Hu. rewrite node_lookup_old by (by eapply lookup_lt_Some).
  rewrite Hu. simpl. by eexists.
Qed.

Lemma node_sum_node A E G w u :
  (u < length G)%nat ->
  node_sum A (with_edges E G ++ [w]) u == node_sum A G u + edge_sum A (E u).
Proof.
  intros Hu. unfold node_sum. rewrite node_lookup_old by done.
  destruct (lookup_lt_is_Some_2 G u Hu) as [nd ->]. simpl.
  apply edge_sum_app.
Qed.

Lemma node_grows n0 x G G2 E v :
  (n0 <= length G)%nat ->
  grows n0 x G G2 ->
  (forall u, (u < n0)%nat -> ~ in_arg x u -> E u = []) ->
  grows n0 x G (with_edges E G2 ++ [fresh v]).
Proof.
  intros Hn0 (Hk & Hf & Hn) HE. pose proof (keeps_length _ _ Hk) as Hlen.
  split; [eapply keeps_trans; [done|apply node_keeps]|]. split.
  - intros u Hu Hx.
    rewrite node_lookup_same by (lia || by apply HE). by apply Hf.
  - intros u nd Hu Hnd. destruct (decide (u < length G2)%nat) as [Hu2|Hu2].
    + rewrite node_lookup_old in Hnd by done.
      destruct (G2 !! u) as [nd2|] eqn:Hnd2; [|done]. injection Hnd as <-.
      simpl. by eapply Hn.
    + apply lookup_app_Some in Hnd as [Hnd|[_ Hnd]].
      { apply lookup_lt_Some in Hnd. rewrite with_edges_length in Hnd. lia. }
      apply list_lookup_singleton_Some in Hnd as [_ <-]. done.
Qed.

End Accounting.

Section Contribution.
Import rad.

Lemma link_nil s x Ga fv v Ga' p z u :
  accounted s x Ga fv v Ga' -> ~ in_arg x u ->
  (u < length Ga \/ length Ga' <= u)%nat ->
  link v p z u = [].
Proof.
  intros Hacc Hx Hu. destruct v as [q|r]; [done|]. destruct fv as [q|d]; [done|].
  simpl. destruct (Nat.eqb_spec r u) as [->|]; [|done].
  destruct (accounted_pos _ _ _ _ _ _ Hacc) as [[? _]|[? ?]]; [done|lia].
Qed.

(** What one operand of a new node contributes to the sum of the
    tracked seed. *)
Lemma input_account s x Ga Ga' G2 E w fv v p A n0 :
  (s < n0)%nat -> (n0 <= length Ga)%nat ->
  (forall r, in_arg x r -> (r < n0)%nat) ->
  accounted s x Ga fv v Ga' ->
  grows (length Ga') x Ga' G2 ->
  (forall u, (length Ga <= u < length Ga')%nat -> E u = link v p (length G2) u) ->
  (forall u nd, (n0 <= u < length G2)%nat ->
     (with_edges E G2 ++ [w]) !! u = Some nd -> A u == edge_sum A (child nd)) ->
  node_sum A Ga' s + edge_sum A (link v p (length G2) s) ==
  node_sum A Ga s + p * fad.dual (fad.lift fv) * A (length G2).
Proof.
  intros Hs Hn0 Hargs Hacc (Hk & Hf & _) HE HA.
  pose proof (keeps_length _ _ Hk) as Hlen.
  destruct fv as [q|d], v as [q'|r]; simpl in Hacc; try done.
  - destruct Hacc as [_ ->]. unfold edge_sum. simpl. ring.
  - destruct Hacc as [(-> & Hin & nd & Hnd & Hr & Hd)|
                      (Hle & HS & Hfresh & Hg & Hacc)].
    + simpl. rewrite Hd. unfold tan. destruct (Nat.eqb_spec r s) as [->|Hne].
      * rewrite edge_sum_one. ring.
      * unfold edge_sum. simpl. ring.
    + assert (~ in_arg x r) as Hnr by (intros Hin%Hargs; lia).
      assert (link (VKer r) p (length G2) s = []) as ->.
      { simpl. destruct (Nat.eqb_spec r s); [lia|done]. }
      assert (A r == p * A (length G2)) as HAr.
      { rewrite (HA r {| real := fad.real d; child := [] ++ [(p, length G2)];
                         gradient := None |}); [|lia|].
        - simpl. apply edge_sum_one.
        - rewrite node_lookup_old, (Hf r), Hfresh by (done || lia). simpl.
          rewrite HE by lia. simpl. by rewrite Nat.eqb_refl. }
      rewrite (Hacc A).
      { simpl. rewrite HAr. unfold edge_sum at 1. simpl. ring. }
      intros u nd Hu Hnd.
      assert (~ in_arg x u) as Hnu by (intros Hin%Hargs; lia).
      rewrite (HA u {| real := real nd; child := child nd ++ [];
                       gradient := gradient nd |}); [|lia|].
      * simpl. by rewrite app_nil_r.
      * rewrite node_lookup_old, (Hf u), Hnd by (done || lia). simpl.
        rewrite HE by lia. simpl. destruct (Nat.eqb_spec r u); [lia|done].
Qed.

Lemma node2_accounted s x xf G G1 G2 op fva va fvb vb :
  (s < length G)%nat -> args_pair s G x xf ->
  accounted s x G fva va G1 -> accounted s x G1 fvb vb G2 ->
  some_node va vb ->
  match (let* d := fad.apply2 op (fad.lift fva) (fad.lift fvb) in ok (VKer d)),
        apply2 op va vb G2 with
  | inl e1, inl e2 => e1 = e2
  | inr fv, inr (v, G3) => accounted s x G fv v G3
  | _, _ => False
  end.
Proof.
  intros Hs Hx Ha Hb Hnn.
  pose proof (accounted_grows _ _ _ _ _ _ Ha) as Hg1.
  pose proof (accounted_grows _ _ _ _ _ _ Hb) as Hg2.
  pose proof (keeps_length _ _ (proj1 Hg1)) as Hlen1.
  pose proof (keeps_length _ _ (proj1 Hg2)) as Hlen2.
  assert (forall r, in_arg x r -> (r < length G)%nat) as Hargs.
  { intros r. by eapply args_pair_lt. }
  rewrite (apply2_node op va vb G2 _ _ Hnn
             (operand_real _ _ _ _ _ _ _ Ha (proj1 Hg2))
             (operand_real _ _ _ _ _ _ _ Hb (keeps_refl _))).
  unfold fad.apply2.
  destruct (local2 op _ _) as [err|[[v pa] pb]]; simpl; [done|].
  right. split; [lia|]. split.
  { rewrite length_app, with_edges_length. simpl. lia. }
  split; [by rewrite node_lookup_new|].
  split.
  { apply node_grows;
      [done|by apply (grows_trans _ (length G1) _ _ G1); [lia|..]|].
    intros u Hu Hnu.
    rewrite (link_nil _ _ _ _ _ _ pa (length G2) u Ha) by (done || lia).
    by rewrite (link_nil _ _ _ _ _ _ pb (length G2) u Hb) by (done || lia). }
  intros A HA. rewrite node_sum_node by lia. rewrite edge_sum_app.
  pose proof (input_account s x G G1 G2
                (fun u => link va pa (length G2) u ++ link vb pb (length G2) u)
                (fresh v) fva va pa A (length G)
                Hs (Nat.le_refl _) Hargs Ha Hg2) as Ia.
  pose proof (input_account s x G1 G2 G2
                (fun u => link va pa (length G2) u ++ link vb pb (length G2) u)
                (fresh v) fvb vb pb A (length G)
                Hs Hlen1 Hargs Hb (grows_refl _ _)) as Ib.
  simpl in Ia, Ib.
  assert (forall u, (length G <= u < length G2)%nat -> ~ in_arg x u) as Hnew.
  { intros u Hu Hin%Hargs. lia. }
  transitivity ((node_sum A G2 s + edge_sum A (link vb pb (length G2) s)) +
                edge_sum A (link va pa (length G2) s)); [ring|].
  rewrite Ib.
  - transitivity ((node_sum A G1 s + edge_sum A (link va pa (length G2) s)) +
                  pb * fad.dual (fad.lift fvb) * A (length G2)); [ring|].
    rewrite Ia.
    + ring.
    + intros u Hu.
      rewrite (link_nil _ _ _ _ _ _ pb (length G2) u Hb)
        by (try apply Hnew; lia).
      by rewrite app_nil_r.
    + intros u nd Hu. apply HA. lia.
  - intros u Hu.
    by rewrite (link_nil _ _ _ _ _ _ pa (length G2) u Ha)
      by (try apply Hnew; lia).
  - intros u nd Hu. apply HA. lia.
Qed.

Lemma bin_accounted s x xf G G1 G2 op fva va fvb vb :
  (s < length G)%nat -> args_pair s G x xf ->
  accounted s x G fva va G1 -> accounted s x G1 fvb vb G2 ->
  match fad.bin op fva fvb, apply2 op va vb G2 with
  | inl e1, inl e2 => e1 = e2
  | inr fv, inr (v, G3) => accounted s x G fv v G3
  | _, _ => False
  end.
Proof.
  intros Hs Hx Ha Hb.
  destruct fva as [qa|da] eqn:Efa, va as [qa'|ra] eqn:Eva;
    try (by simpl in Ha);
    destruct fvb as [qb|db] eqn:Efb, vb as [qb'|rb] eqn:Evb;
    try (by simpl in Hb).
  - destruct Ha as [<- ->], Hb as [<- ->]. simpl.
    unfold bind, lift_res, ret.
    by destruct (native2 op qa qb).
  - by apply (node2_accounted s x xf G G1 G2 op (VNum qa) (VNum qa')
                (VKer db) (VKer rb)).
  - by apply (node2_accounted s x xf G G1 G2 op (VKer da) (VKer ra)
                (VNum qb) (VNum qb')).
  - by apply (node2_accounted s x xf G G1 G2 op (VKer da) (VKer ra)
                (VKer db) (VKer rb)).
Qed.

Lemma un_accounted s x xf G G1 op fva va :
  (s < length G)%nat -> args_pair s G x xf ->
  accounted s x G fva va G1 ->
  match fad.un op fva, apply1 op va G1 with
  | inl e1, inl e2 => e1 = e2
  | inr fv, inr (v, G2) => accounted s x G fv v G2
  | _, _ => False
  end.
Proof.
  intros Hs Hx Ha.
  pose proof (accounted_grows _ _ _ _ _ _ Ha) as Hg1.
  pose proof (keeps_length _ _ (proj1 Hg1)) as Hlen1.
  assert (forall r, in_arg x r -> (r < length G)%nat) as Hargs.
  { intros r. by eapply args_pair_lt. }
  destruct fva as [qa|da] eqn:Efa, va as [qa'|ra] eqn:Eva;
    try (by simpl in Ha).
  - destruct Ha as [<- ->]. simpl. unfold bind, lift_res, ret.
    by destruct (native1 op qa).
  - pose proof (operand_real _ _ _ _ _ _ _ Ha (keeps_refl _)) as Hreal.
    simpl in Hreal. rewrite (apply1_node op ra G1 _ Hreal).
    simpl. unfold fad.apply1.
    destruct (local1 op _) as [err|[v pa]]; simpl; [done|].
    right. split; [lia|]. split.
    { rewrite length_app, with_edges_length. simpl. lia. }
    split; [by rewrite node_lookup_new|].
    split.
    { apply node_grows; [done..|]. intros u Hu Hnu.
      apply (link_nil _ _ _ _ _ _ pa (length G1) u Ha); [done|lia]. }
    intros A HA. rewrite node_sum_node by lia.
    apply (input_account s x G G1 G1 (fun u => link (VKer ra) pa (length G1) u)
             (fresh v) (VKer da) (VKer ra) pa A
             (length G) Hs (Nat.le_refl _) Hargs Ha (grows_refl _ _)); [done|].
    intros u nd Hu. apply HA. lia.
Qed.

(** The forward and the reverse evaluation of a function agree: they
    raise the same exception, or their results are accounted for. *)
Lemma call_accounted s e x xf : forall G,
  (s < length G)%nat -> args_pair s G x xf ->
  match fad.call e xf, call e x G with
  | inl e1, inl e2 => e1 = e2
  | inr fv, inr (v, G') => accounted s x G fv v G'
  | _, _ => False
  end.
Proof.
  induction e as [|i|c|op a IHa b IHb|op a IHa]; intros G Hs Hx.
  - destruct x as [r|tr], xf as [d|ds]; try done; simpl.
    left. by repeat split.
  - destruct x as [r|tr], xf as [d|ds]; try done. simpl in *.
    unfold bind, lift_res, ret.
    destruct (tr !! i) as [r|] eqn:Hr.
    + destruct (Forall2_lookup_l _ _ _ _ _ Hx Hr) as (d & -> & Hp). simpl.
      left. split; [done|]. split; [|done]. by eapply list_elem_of_lookup_2.
    + apply Forall2_length in Hx.
      rewrite (lookup_ge_None_2 ds i); [done|].
      apply lookup_ge_None_1 in Hr. lia.
  - by simpl.
  - assert (call (Bin op a b) x G =
            match call a x G with
            | inl err => inl err
            | inr (va, G1) =>
                match call b x G1 with
                | inl err => inl err
                | inr (vb, G2) => apply2 op va vb G2
                end
            end) as -> by done.
    simpl. specialize (IHa G Hs Hx).
    destruct (fad.call a xf) as [ea|fva], (call a x G) as [ea'|[va G1]];
      simpl; try done.
    pose proof (accounted_grows _ _ _ _ _ _ IHa) as Hg1.
    pose proof (keeps_length _ _ (proj1 Hg1)) as Hlen1.
    assert (s < length G1)%nat as Hs1 by lia.
    specialize (IHb G1 Hs1 (args_pair_keeps _ _ _ _ _ (proj1 Hg1) Hx)).
    destruct (fad.call b xf) as [eb|fvb], (call b x G1) as [eb'|[vb G2]];
      simpl; try done.
    by apply (bin_accounted s x xf G G1 G2 op fva va fvb vb).
  - assert (call (Un op a) x G =
            match call a x G with
            | inl err => inl err
            | inr (va, G1) => apply1 op va G1
            end) as -> by done.
    simpl. specialize (IHa G Hs Hx).
    destruct (fad.call a xf) as [ea|fva], (call a x G) as [ea'|[va G1]];
      simpl; try done.
    by apply (un_accounted s x xf G G1 op fva va).
Qed.

End Contribution.

Section Gradient.
Import rad.

Lemma adj_fuel G : wf G -> forall k1 k2 u,
  (length G - u <= k1)%nat -> (length G - u <= k2)%nat ->
  adj k1 G u = adj k2 G u.
Proof.
  intros Hwf. induction k1 as [|k1 IH]; intros k2 u H1 H2.
  - destruct k2 as [|k2]; simpl; [done|].
    by rewrite (lookup_ge_None_2 G u) by lia.
  - destruct k2 as [|k2]; simpl.
    { by rewrite (lookup_ge_None_2 G u) by lia. }
    destruct (G !! u) as [nd|] eqn:Hnd; [|done].
    destruct (gradient nd); [done|].
    apply edge_sum_ext. eapply Forall_impl; [by apply (Hwf u nd)|].
    intros [w c] Hc. simpl in *. apply IH; lia.
Qed.

Lemma adjoint_unfold G u nd :
  wf G -> G !! u = Some nd ->
  adjoint G u = match gradient nd with
                | Some g => g
                | None => edge_sum (adjoint G) (child nd)
                end.
Proof.
  intros Hwf Hnd. pose proof (lookup_lt_Some _ _ _ Hnd) as Hlt.
  unfold adjoint at 1. destruct (length G) as [|k] eqn:Hlen; [lia|].
  simpl. rewrite Hnd. destruct (gradient nd); [done|].
  apply edge_sum_ext. eapply Forall_impl; [by apply (Hwf u nd)|].
  intros [w c] Hc. simpl in *. unfold adjoint. rewrite Hlen.
  apply adj_fuel; [done|lia..].
Qed.

Lemma memo_refl G : memo G G.
Proof.
  split; [done|]. intros u nd Hnd. exists nd. repeat split; try done. by left.
Qed.

Lemma sum_edges_adjoint G0 k u :
  (forall c G, memo G0 G -> (u < c < length G0)%nat ->
     exists G', grad k c G = ok (adjoint G0 c, G') /\ memo G0 G') ->
  forall l acc G,
    memo G0 G -> Forall (fun wc => (u < snd wc < length G0)%nat) l ->
    exists G',
      sum_edges (grad k) l acc G =
      ok (fold_left (fun acc wc => acc + fst wc * adjoint G0 (snd wc)) l acc, G') /\
      memo G0 G'.
Proof.
  intros Hrec. induction l as [|[w c] l IH]; intros acc G Hm Hl; simpl.
  - by exists G.
  - inversion Hl as [|? ? Hc Hl']; subst. simpl in Hc.
    destruct (Hrec c G Hm Hc) as (G1 & Hg & Hm1).
    unfold bind at 1. rewrite Hg. unfold ok at 1.
    by apply IH.
Qed.

(** [grad] returns the adjoint of the node in the store it was first
    called on, and only caches adjoints. *)
Lemma grad_adjoint G0 : wf G0 -> forall k u G,
  memo G0 G -> (u < length G0)%nat -> (length G0 - u <= k)%nat ->
  exists G', grad k u G = ok (adjoint G0 u, G') /\ memo G0 G'.
Proof.
  intros Hwf. induction k as [|k IH]; intros u G Hm Hu Hk; [lia|].
  destruct (lookup_lt_is_Some_2 G0 u Hu) as [nd0 Hnd0].
  destruct (proj2 Hm u nd0 Hnd0) as (nd & Hnd & Hreal & Hchild & Hgrad).
  pose proof (adjoint_unfold G0 u nd0 Hwf Hnd0) as Hadj.
  simpl. unfold bind at 1. unfold get. rewrite Hnd. unfold ok at 1.
  destruct (gradient nd) as [g|] eqn:Hg.
  - exists G. split; [|done]. unfold ret. do 2 f_equal.
    destruct Hgrad as [Hgrad|Hgrad]; [|congruence].
    rewrite <- Hgrad in Hadj. by rewrite Hadj.
  - destruct Hgrad as [Hgrad|Hgrad]; [|done].
    rewrite <- Hgrad in Hadj.
    destruct (sum_edges_adjoint G0 k u) with (l := child nd) (acc := 0) (G := G)
      as (G1 & Hsum & Hm1); [|done|by rewrite Hchild; apply (Hwf u nd0)|].
    { intros c G' Hm' Hc. apply IH; [done|lia..]. }
    unfold bind at 1. rewrite Hsum. unfold ok at 1.
    destruct (proj2 Hm1 u nd0 Hnd0) as (nd1 & Hnd1 & Hreal1 & Hchild1 & _).
    unfold bind at 1. unfold set_gradient, update. rewrite Hnd1.
    unfold ok at 1. unfold ret.
    assert (fold_left (fun acc wc => acc + fst wc * adjoint G0 (snd wc))
                      (child nd) 0 = adjoint G0 u) as ->.
    { rewrite Hadj, Hchild. done. }
    eexists. split; [done|]. split; [by rewrite length_insert, (proj1 Hm1)|].
    intros u' nd' Hnd'. destruct (decide (u' = u)) as [->|Hne].
    + rewrite list_lookup_insert_eq by (by eapply lookup_lt_Some).
      eexists. split; [done|]. simpl.
      assert (nd' = nd0) as -> by congruence.
      repeat split; [done..|]. by right.
    + rewrite list_lookup_insert_ne by done. by apply (proj2 Hm1).
Qed.

Lemma mapM_grad_top_adjoint G0 : wf G0 -> forall tr G,
  memo G0 G -> Forall (fun r => (r < length G0)%nat) tr ->
  exists G', mapM grad_top tr G = ok (adjoint G0 <$> tr, G') /\ memo G0 G'.
Proof.
  intros Hwf. induction tr as [|r tr IH]; intros G Hm Htr; simpl.
  - by exists G.
  - inversion Htr as [|? ? Hr Htr']; subst.
    destruct (grad_adjoint G0 Hwf (length G) r G Hm Hr) as (G1 & Hg & Hm1).
    { rewrite (proj1 Hm). lia. }
    unfold bind at 1. unfold grad_top at 1. rewrite Hg. unfold ok at 1.
    destruct (IH G1 Hm1 Htr') as (G2 & Hrest & Hm2).
    unfold bind at 1. rewrite Hrest. unfold ok at 1. by exists G2.
Qed.

Lemma mapM_reset_ok tr : forall G,
  Forall (fun r => (r < length G)%nat) tr ->
  exists us G', mapM ReverseAD.reset tr G = ok (us, G').
Proof.
  induction tr as [|r tr IH]; intros G Htr; simpl.
  - by eexists _, _.
  - inversion Htr as [|? ? Hr Htr']; subst.
    destruct (lookup_lt_is_Some_2 G r Hr) as [nd Hnd].
    unfold bind at 1. unfold ReverseAD.reset at 1. unfold bind at 1.
    unfold clear_child, update. rewrite Hnd. unfold ok at 1.
    unfold set_gradient, update.
    rewrite list_lookup_insert_eq by done. unfold ok at 1.
    edestruct IH as (us & G' & Hrest).
    2:{ unfold bind at 1. rewrite Hrest. unfold ok at 1. unfold ret.
        by eexists _, _. }
    rewrite !length_insert. done.
Qed.

(** After the result of a function has been seeded with 1, the adjoint
    of a seed node is the tangent of the forward pass that tracks it. *)
Lemma seeded_adjoint s x H d r H' nd :
  wf H' -> cleared H s ->
  accounted s x H (VKer d) (VKer r) H' ->
  H' !! r = Some nd ->
  wf (<[r := {| real := real nd; child := child nd; gradient := Some 1 |}]> H') /\
  adjoint (<[r := {| real := real nd; child := child nd;
                     gradient := Some 1 |}]> H') s == fad.dual d.
Proof.
  intros Hwf (nds & Hnds & Hcs & Hgs) Hacc Hnd.
  pose proof (lookup_lt_Some _ _ _ Hnds) as Hs.
  pose proof (lookup_lt_Some _ _ _ Hnd) as Hr.
  set (G0 := <[r := _]> H').
  assert (wf G0) as Hwf0.
  { apply wf_insert; [done|]. simpl. by apply (Hwf r nd). }
  split; [done|].
  assert (G0 !! r = Some {| real := real nd; child := child nd;
                            gradient := Some 1 |}) as Hr0.
  { unfold G0. by rewrite list_lookup_insert_eq. }
  assert (adjoint G0 r = 1) as HAr.
  { by rewrite (adjoint_unfold G0 r _ Hwf0 Hr0). }
  destruct Hacc as [(-> & Hin & nd' & Hnd' & _ & Hd)|
                    (Hle & HS & Hfresh & (Hk & Hf & Hn) & Hacc)].
  - rewrite Hd. unfold tan. destruct (Nat.eqb_spec r s) as [->|Hne].
    + by rewrite HAr.
    + assert (G0 !! s = Some nds) as Hs0.
      { unfold G0. by rewrite list_lookup_insert_ne. }
      rewrite (adjoint_unfold G0 s _ Hwf0 Hs0), Hgs, Hcs. done.
  - destruct (Hk _ _ Hnds) as (nds' & Hnds' & _ & Hgs').
    assert (G0 !! s = Some nds') as Hs0.
    { unfold G0. rewrite list_lookup_insert_ne by lia. done. }
    rewrite (adjoint_unfold G0 s _ Hwf0 Hs0), Hgs', Hgs.
    pose proof (Hacc (adjoint G0)) as Hsum.
    unfold node_sum in Hsum. rewrite Hnds', Hnds, Hcs in Hsum.
    rewrite Hsum.
    + rewrite HAr. unfold edge_sum. simpl. ring.
    + intros u ndu Hu Hndu.
      assert (G0 !! u = Some ndu) as Hu0.
      { unfold G0. rewrite list_lookup_insert_ne by lia. done. }
      rewrite (adjoint_unfold G0 u _ Hwf0 Hu0).
      rewrite (Hn u ndu) by (done || lia). reflexivity.
Qed.

End Gradient.

Section Rows.
Import rad ReverseAD.

Lemma one_hot_pair l i :
  Forall2 (seed_pair i (fresh <$> l)) (seq 0 (length l)) (one_hot l i).
Proof.
  apply Forall2_same_length_lookup_2.
  - unfold one_hot. by rewrite length_seq, length_imap.
  - intros k r d Hr Hd. apply lookup_seq in Hr as [-> Hk]. simpl.
    unfold one_hot in Hd. rewrite list_lookup_imap in Hd.
    destruct (l !! k) as [v|] eqn:Hv; [|done]. injection Hd as <-.
    exists (fresh v). by rewrite list_lookup_fmap, Hv.
Qed.

Lemma rmap_seq_first {B} (g : nat -> res B) (n : nat) (err : exn) :
  (0 < n)%nat -> g 0%nat = inl err -> rmap g (seq 0 n) = inl err.
Proof. intros Hn Hg. destruct n as [|n]; [lia|]. simpl. by rewrite Hg. Qed.

Lemma rmap_Qeq (g : nat -> res Q) (A : nat -> Q) (xs : list nat) :
  (forall i, i ∈ xs -> exists y, g i = ok y /\ y == A i) ->
  exists ys, rmap g xs = ok ys /\ Forall2 Qeq ys (A <$> xs).
Proof.
  induction xs as [|x xs IH]; intros Hg; simpl.
  - by exists [].
  - destruct (Hg x) as (y & -> & Hy); [by left|].
    destruct IH as (ys & -> & Hys). { intros i Hi. apply Hg. by right. }
    exists (y :: ys). split; [done|]. by constructor.
Qed.

Lemma rmap_related {X Y Z} (P : Y -> Z -> Prop) (g1 : X -> res Y)
    (g2 : X -> res Z) (fs : list X) :
  (forall e, match g1 e, g2 e with
             | inl e1, inl e2 => e1 = e2
             | inr y, inr z => P y z
             | _, _ => False
             end) ->
  match rmap g1 fs, rmap g2 fs with
  | inl e1, inl e2 => e1 = e2
  | inr ys, inr zs => Forall2 P ys zs
  | _, _ => False
  end.
Proof.
  intros Hg. induction fs as [|e fs IH]; simpl; [constructor|].
  specialize (Hg e). destruct (g1 e) as [?|y], (g2 e) as [?|z]; simpl; try done.
  destruct (rmap g1 fs) as [?|ys], (rmap g2 fs) as [?|zs]; simpl; try done.
  by constructor.
Qed.

(** The row of the reverse driver for several variables is the row of
    the one-hot tangents of the forward kernel at the supplied point. *)
Lemma row_multi_tangents l e :
  l <> [] ->
  match spec_row e l, result (row_multi (seq 0 (length l)) e (fresh <$> l)) with
  | inl e1, inl e2 => e1 = e2
  | inr srow, inr j =>
      match j with JRow row => Forall2 Qeq srow row | JNum _ => False end
  | _, _ => False
  end.
Proof.
  intros Hl. set (H := fresh <$> l). set (tr := seq 0 (length l)).
  assert (wf H) as Hwf by apply (wf_app_seeds [] l wf_nil).
  assert (length H = length l) as HlenH by apply length_fmap.
  assert (0 < length l)%nat as Hpos by (destruct l; simpl; [done|lia]).
  assert (Forall (fun r => (r < length H)%nat) tr) as Htr.
  { apply Forall_forall. intros r Hr%elem_of_seq. lia. }
  assert (forall i, (i < length l)%nat ->
            match fad.call e (AMany (one_hot l i)), call e (AMany tr) H with
            | inl e1, inl e2 => e1 = e2
            | inr fv, inr (v, H') => accounted i (AMany tr) H fv v H'
            | _, _ => False
            end) as Hcall.
  { intros i Hi. apply call_accounted; [lia|apply one_hot_pair]. }
  pose proof (safe_call e (AMany tr) H Hwf Htr) as Hsafe. unfold safe in Hsafe.
  destruct (call e (AMany tr) H) as [err|[z H']] eqn:Hc.
  - assert (result (row_multi tr e H) = inl err) as ->.
    { unfold row_multi, result. unfold bind at 1. by rewrite Hc. }
    specialize (Hcall 0%nat Hpos).
    destruct (fad.call e (AMany (one_hot l 0))) as [err'|fv] eqn:Hf; [|done].
    subst err'. unfold spec_row.
    rewrite (rmap_seq_first _ _ err); [done|done|].
    unfold spec_partial. by rewrite Hf.
  - destruct Hsafe as [Hext Hz]. pose proof (extends_length _ _ Hext) as Hlen.
    destruct Hext as [Hwf' _]. destruct z as [q|r].
    + assert (result (row_multi tr e H) = inl AttributeError) as ->.
      { unfold row_multi, result. unfold bind at 1. by rewrite Hc. }
      specialize (Hcall 0%nat Hpos).
      destruct (fad.call e (AMany (one_hot l 0))) as [err'|fv] eqn:Hf; [done|].
      destruct fv as [q'|d]; [|done]. unfold spec_row.
      rewrite (rmap_seq_first _ _ AttributeError); [done|done|].
      unfold spec_partial. by rewrite Hf.
    + simpl in Hz. destruct (lookup_lt_is_Some_2 H' r Hz) as [nd Hnd].
      set (G0 := <[r := {| real := real nd; child := child nd;
                           gradient := Some 1 |}]> H').
      assert (forall i, (i < length l)%nat ->
                exists y, spec_partial e l i = ok y /\ y == adjoint G0 i) as Hrow.
      { intros i Hi. specialize (Hcall i Hi). unfold spec_partial.
        destruct (fad.call e (AMany (one_hot l i))) as [err'|fv]; [done|].
        destruct fv as [q'|d]; [done|]. simpl. exists (fad.dual d).
        split; [done|]. symmetry.
        apply (seeded_adjoint i (AMany tr) H d r H' nd); try done.
        destruct (lookup_lt_is_Some_2 l i Hi) as [v Hv].
        exists (fresh v). unfold H. by rewrite list_lookup_fmap, Hv. }
      assert (wf G0) as Hwf0.
      { apply wf_insert; [done|]. simpl. by apply (Hwf' r nd). }
      assert (Forall (fun r => (r < length G0)%nat) tr) as Htr0.
      { unfold G0. rewrite length_insert. eapply Forall_impl; [done|].
        simpl. intros; lia. }
      destruct (mapM_grad_top_adjoint G0 Hwf0 tr G0 (memo_refl G0) Htr0)
        as (G1 & Hg & Hm1).
      destruct (mapM_reset_ok tr G1) as (us & G2 & Hreset).
      { by rewrite (proj1 Hm1). }
      assert (result (row_multi tr e H) = ok (JRow (adjoint G0 <$> tr))) as ->.
      { unfold row_multi, result. unfold bind at 1. rewrite Hc. unfold ok at 1.
        unfold bind at 1. unfold seed, set_gradient, update. rewrite Hnd.
        unfold ok at 1. fold G0.
        unfold bind at 1. rewrite Hg. unfold ok at 1.
        unfold bind at 1. rewrite Hreset. done. }
      unfold spec_row.
      destruct (rmap_Qeq (spec_partial e l) (adjoint G0) (seq 0 (length l)))
        as (ys & -> & Hys); [|done].
      intros i Hi%elem_of_seq. apply Hrow. lia.
Qed.

(** The derivative of the reverse driver for one variable is the
    tangent of the forward kernel. *)
Lemma row_single_tangent v e :
  match (let* value := fad.call e (AOne {| fad.real := v; fad.dual := 1 |}) in
         fad.get_dual value),
        result (row_single v e []) with
  | inl e1, inl e2 => e1 = e2
  | inr d, inr j => match j with JNum g => d == g | JRow _ => False end
  | _, _ => False
  end.
Proof.
  set (H := [fresh v]).
  assert (wf H) as Hwf by apply (wf_app_fresh [] v wf_nil).
  pose proof (call_accounted 0 e (AOne 0%nat)
                (AOne {| fad.real := v; fad.dual := 1 |}) H) as Hcall.
  pose proof (safe_call e (AOne 0%nat) H Hwf) as Hsafe. unfold safe in Hsafe.
  assert (result (row_single v e []) =
          result (match call e (AOne 0%nat) H with
                  | inl err => inl err
                  | inr (z, H') =>
                      (let! _ := seed z in
                       let! g := grad_top 0%nat in ret (JNum g)) H'
                  end)) as ->.
  { unfold row_single, scalar_pass, result, bind, new, ret. simpl.
    fold H. destruct (call e (AOne 0%nat) H) as [?|[z H']]; [done|].
    destruct (seed z H') as [?|[[] H1]]; [done|].
    by destruct (grad_top 0%nat H1) as [?|[g H2]]. }
  assert (args_pair 0 H (AOne 0%nat) (AOne {| fad.real := v; fad.dual := 1 |}))
    as Hx by (by exists (fresh v)).
  specialize (Hcall ltac:(simpl; lia) Hx).
  destruct (call e (AOne 0%nat) H) as [err|[z H']] eqn:Hc.
  - by destruct (fad.call e _) as [err'|fv].
  - destruct Hsafe as [Hext Hz]; [simpl; lia|].
    pose proof (extends_length _ _ Hext) as Hlen. destruct Hext as [Hwf' _].
    destruct (fad.call e _) as [err'|fv]; [done|].
    destruct fv as [q'|d], z as [q|r]; try done.
    simpl in Hz. destruct (lookup_lt_is_Some_2 H' r Hz) as [nd Hnd].
    set (G0 := <[r := {| real := real nd; child := child nd;
                         gradient := Some 1 |}]> H').
    destruct (seeded_adjoint 0 (AOne 0%nat) H d r H' nd) as [Hwf0 Hadj];
      try done.
    { by exists (fresh v). }
    fold G0 in Hwf0, Hadj.
    destruct (grad_adjoint G0 Hwf0 (length G0) 0 G0 (memo_refl G0))
      as (G1 & Hg & _).
    { unfold G0. rewrite length_insert. simpl in Hlen. lia. }
    { lia. }
    assert (result ((let! _ := seed (VKer r) in
                     let! g := grad_top 0%nat in ret (JNum g)) H') =
            ok (JNum (adjoint G0 0))) as ->.
    { unfold result. unfold bind at 1. unfold seed, set_gradient, update.
      rewrite Hnd. unfold ok at 1. fold G0. unfold bind at 1.
      unfold grad_top. by rewrite Hg. }
    simpl. by symmetry.
Qed.

End Rows.

Section ForwardSingle.
Import AutoDiff.

Lemma compute_loop_single (fs : list expr) : forall self x0,
  len_var_list self = 1%nat -> trace self = [x0] ->
  (let* ad := compute_loop self fs in ok (jacobian ad)) =
  let* ds := rmap (fun e => let* value := fad.call e (AOne x0) in
                            fad.get_dual value) fs in
  ok (jacobian self ++ map JNum ds).
Proof.
  induction fs as [|e fs IH]; intros self x0 Hn Ht; simpl.
  - by rewrite app_nil_r.
  - unfold compute_one. rewrite Hn, Ht. simpl.
    destruct (fad.call e (AOne x0)) as [?|value]; simpl; [done|].
    destruct value as [q|d]; simpl; [done|].
    rewrite (IH _ x0) by done. simpl.
    destruct (rmap _ fs) as [?|ds]; simpl; [done|].
    by rewrite <- app_assoc.
Qed.

Lemma forward_jacobian_single (fs : list expr) (v : Q) :
  forward_jacobian (FunSeq fs) (VarsSeq [v]) =
  let* ds := rmap (fun e => let* value := fad.call e
                              (AOne {| fad.real := v; fad.dual := 1 |}) in
                            fad.get_dual value) fs in
  ok (map JNum ds).
Proof.
  unfold forward_jacobian, __init__, _compute. simpl.
  set (self0 := {| f := fs |}).
  pose proof (compute_loop_single fs self0 _ eq_refl eq_refl) as Hloop.
  simpl in Hloop. rewrite <- Hloop.
  by destruct (compute_loop self0 fs).
Qed.

End ForwardSingle.

Lemma flatten_nums_Qeq (ds : list Q) (js : list jentry) :
  Forall2 (fun d j => match j with JNum g => d == g | JRow _ => False end) ds js ->
  Forall2 (fun j g => exists d, j = JNum d /\ d == g) (map JNum ds)
          (ReverseAD.flatten js).
Proof.
  unfold ReverseAD.flatten. induction 1 as [|d j ds js Hj _ IH]; simpl.
  - constructor.
  - destruct j as [g|]; [|done]. simpl. constructor; [by exists d|done].
Qed.

Lemma flatten_rows_Qeq (rows : list (list Q)) (js : list jentry) :
  Forall2 (fun row j => match j with
                        | JRow r => Forall2 Qeq row r
                        | JNum _ => False
                        end) rows js ->
  Forall2 Qeq (concat rows) (ReverseAD.flatten js).
Proof.
  unfold ReverseAD.flatten. induction 1 as [|row j rows js Hj _ IH]; simpl.
  - constructor.
  - destruct j as [|r]; [done|]. by apply Forall2_app.
Qed.

(** X7: for one variable the two drivers agree.  Given a list of
    functions and the one-element list [[v]], from any well-formed store,
    the forward and the reverse driver raise the same exception, or
    return Jacobians with the same entries (equal as rationals): the
    derivative [x.grad()] of the reverse pass is the tangent [.dual] of
    the forward pass. *)
Theorem reverse_single_matches_forward (fs : list expr) (v : Q) (h : rad.store) :
  wf h ->
  match forward_jacobian (FunSeq fs) (VarsSeq [v]),
        reverse_jacobian (FunSeq fs) (VarsSeq [v]) h with
  | inl e1, inl e2 => e1 = e2
  | inr J, inr r =>
      match r with
      | RList G => Forall2 (fun j g => exists d, j = JNum d /\ d == g) J G
      | RNum _ => False
      end
  | _, _ => False
  end.
Proof.
  intros Hwf.
  rewrite forward_jacobian_single, reverse_jacobian_seq, init_seq_jacobian by done.
  pose proof (rmap_related _ _ (canon_row [v]) fs (row_single_tangent v)) as Hrel.
  destruct (rmap _ fs) as [?|ds], (rmap (canon_row [v]) fs) as [?|js]; simpl;
    try done.
  by apply flatten_nums_Qeq.
Qed.

Lemma reverse_single_matches_forward_witness :
  wf stale_store /\
  match forward_jacobian (FunSeq [scalar_fun; Un (OPow 3) Arg]) (VarsSeq [2]),
        reverse_jacobian (FunSeq [scalar_fun; Un (OPow 3) Arg]) (VarsSeq [2]) stale_store with
  | inl e1, inl e2 => e1 = e2
  | inr J, inr r =>
      match r with
      | RList G => Forall2 (fun j g => exists d, j = JNum d /\ d == g) J G
      | RNum _ => False
      end
  | _, _ => False
  end.
Proof.
  split; [apply wf_stale_store|].
  apply (reverse_single_matches_forward _ 2 stale_store wf_stale_store).
Defined.

(** X8: for two or more variables the reverse driver computes the
    partial derivatives at the supplied point.  Given a list of functions
    and a list of at least two variables, from any well-formed store, the
    reverse driver raises the exception that the one-hot tangent passes
    of the forward kernel at the supplied point raise, or returns, row
    after row, the tangents those passes compute (equal as rationals). *)
Theorem reverse_rows_are_tangents (fs : list expr) (l : list Q) (h : rad.store) :
  wf h -> (2 <= length l)%nat ->
  match rmap (fun e => spec_row e l) fs,
        reverse_jacobian (FunSeq fs) (VarsSeq l) h with
  | inl e1, inl e2 => e1 = e2
  | inr rows, inr r =>
      match r with
      | RList G => Forall2 Qeq (concat rows) G
      | RNum _ => False
      end
  | _, _ => False
  end.
Proof.
  intros Hwf Hl. assert (l <> []) as Hne by (intros ->; simpl in Hl; lia).
  rewrite reverse_jacobian_seq, init_seq_jacobian by done.
  assert (forall e, canon_row l e =
            result (ReverseAD.row_multi (seq 0 (length l)) e (rad.fresh <$> l)))
    as Hcanon.
  { intros e. destruct l as [|v1 [|v2 l]]; simpl in Hl; [lia..|done]. }
  assert (forall e, match spec_row e l, canon_row l e with
                    | inl e1, inl e2 => e1 = e2
                    | inr srow, inr j =>
                        match j with
                        | JRow row => Forall2 Qeq srow row
                        | JNum _ => False
                        end
                    | _, _ => False
                    end) as Hrow.
  { intros e. rewrite Hcanon. by apply row_multi_tangents. }
  pose proof (rmap_related
                (fun srow j => match j with
                               | JRow row => Forall2 Qeq srow row
                               | JNum _ => False
                               end)
                (fun e => spec_row e l) (canon_row l) fs Hrow) as Hrel.
  destruct (rmap _ fs) as [?|rows], (rmap (canon_row l) fs) as [?|js]; simpl;
    try done.
  by apply flatten_rows_Qeq.
Qed.

Lemma reverse_rows_are_tangents_witness :
  wf stale_store /\
  match rmap (fun e => spec_row e [1; 2]) [func1; func2; prod_fun],
        reverse_jacobian (FunSeq [func1; func2; prod_fun]) (VarsSeq [1; 2])
          stale_store with
  | inl e1, inl e2 => e1 = e2
  | inr rows, inr r =>
      match r with
      | RList G => Forall2 Qeq (concat rows) G
      | RNum _ => False
      end
  | _, _ => False
  end.
Proof.
  split; [apply wf_stale_store|].
  apply (reverse_rows_are_tangents _ [1; 2] stale_store wf_stale_store).
  simpl. lia.
Defined.

(** ** The entries of the forward Jacobian and the exceptions of a pass *)

Lemma rmap_lookup {A B} (g : A -> res B) (xs : list A) (ys : list B)
    (i : nat) (x : A) :
  rmap g xs = ok ys -> xs !! i = Some x ->
  exists y, g x = ok y /\ ys !! i = Some y.
Proof.
  revert ys i. induction xs as [|x0 xs IH]; intros ys i Hys Hi; [done|].
  simpl in Hys. destruct (g x0) as [?|y0] eqn:Hg; simpl in Hys; [done|].
  destruct (rmap g xs) as [?|ys']; simpl in Hys; [done|].
  injection Hys as <-. destruct i as [|i]; simpl in Hi.
  - injection Hi as <-. by exists y0.
  - by apply (IH ys' i).
Qed.

(** The row of one function for a number of variables other than one:
    entry [i] is the tangent of the call [f(y)] in which [y] holds
    variable [i] at position [i] and [DualNumber(0, 0)] elsewhere. *)
Lemma forward_row_passes (e : expr) (l : list Q) (jk : jentry) :
  length l <> 1%nat ->
  forward_jacobian (FunSeq [e]) (VarsSeq l) = ok [jk] ->
  exists row, jk = JRow row /\ length row = length l /\
    forall i x, l !! i = Some x ->
      exists d,
        fad.call e (AMany (<[i := {| fad.real := x; fad.dual := 1 |}]>
                             (replicate (length l)
                                {| fad.real := 0; fad.dual := 0 |})))
          = ok (VKer d) /\
        row !! i = Some (fad.dual d).
Proof.
  intros Hl. rewrite forward_row_at_zeroed_points by done.
  destruct (fad.call e (forward_arg l)) as [?|value]; simpl; [done|].
  destruct (rmap _ (seq 0 (length l))) as [?|row] eqn:Hrow; simpl; [done|].
  intros [= <-]. exists row. split; [done|]. split.
  { apply rmap_length in Hrow. by rewrite length_seq in Hrow. }
  intros i x Hi. pose proof (lookup_lt_Some _ _ _ Hi) as Hlt.
  destruct (rmap_lookup _ _ _ i i Hrow) as (y & Hy & Hri).
  { by rewrite lookup_seq_lt. }
  unfold spec_partial in Hy. rewrite (one_hot_zeroed l i x Hi) in Hy.
  destruct (fad.call e (AMany _)) as [?|[q|d]]; simpl in Hy; try done.
  injection Hy as <-. by exists d.
Qed.



(** X10: the forward Jacobian has one entry per function, in the order
    of the functions.  With one variable [v] the entry of a function is
    the tangent of [f(DualNumber(v, 1))], a plain number.  With any other
    number of variables it is a row with one entry per variable, in the
    order of the variables: entry [i] is the tangent of the call [f(y)]
    in which [y] holds variable [i] with tangent 1 at position [i] and
    [DualNumber(0, 0)] at every other position. *)
Theorem forward_jacobian_entries (fs : list expr) (l : list Q)
    (j : list jentry) :
  forward_jacobian (FunSeq fs) (VarsSeq l) = ok j ->
  length j = length fs /\
  forall k e, fs !! k = Some e ->
    exists jk, j !! k = Some jk /\
      match l with
      | [v] =>
          exists d,
            fad.call e (AOne {| fad.real := v; fad.dual := 1 |}) = ok (VKer d) /\
            jk = JNum (fad.dual d)
      | _ =>
          exists row, jk = JRow row /\ length row = length l /\
            forall i x, l !! i = Some x ->
              exists d,
                fad.call e (AMany (<[i := {| fad.real := x; fad.dual := 1 |}]>
                                     (replicate (length l)
                                        {| fad.real := 0; fad.dual := 0 |})))
                  = ok (VKer d) /\
                row !! i = Some (fad.dual d)
      end.
Proof.
  intros Hj.
  assert (length j = length fs) as Hlen.
  { revert Hj. unfold forward_jacobian, AutoDiff.__init__, AutoDiff._compute.
    simpl. set (self0 := {| AutoDiff.f := fs |}).
    destruct (AutoDiff.compute_loop self0 fs) as [?|self'] eqn:Hrun; simpl;
      [done|].
    intros [= <-].
    apply compute_loop_spec in Hrun as (_ & _ & js & Hjs & Hlen & _).
    simpl in Hjs. unfold AutoDiff.get_jacobian. by rewrite Hjs. }
  unfold forward_jacobian in Hj.
  destruct (AutoDiff.__init__ (FunSeq fs) (VarsSeq l)) as [?|ad] eqn:Hinit;
    simpl in Hj; [done|]. injection Hj as <-.
  split; [done|].
  intros k e Hk.
  destruct (forward_entries_alone fs (VarsSeq l) ad k e Hinit Hk)
    as (pk & jk & _ & Hjk & _ & Hone).
  exists jk. split; [done|].
  assert (length l <> 1%nat ->
          exists row, jk = JRow row /\ length row = length l /\
            forall i x, l !! i = Some x ->
              exists d,
                fad.call e (AMany (<[i := {| fad.real := x; fad.dual := 1 |}]>
                                     (replicate (length l)
                                        {| fad.real := 0; fad.dual := 0 |})))
                  = ok (VKer d) /\
                row !! i = Some (fad.dual d)) as Hmany.
  { intros Hn. by apply forward_row_passes. }
  destruct l as [|v [|v' l]]; [by apply Hmany| |by apply Hmany].
  rewrite forward_jacobian_single in Hone. simpl in Hone.
  destruct (fad.call e (AOne _)) as [?|[q|d]]; simpl in Hone; try done.
  injection Hone as <-. by exists d.
Qed.

Lemma forward_jacobian_entries_witness :
  forward_jacobian (FunSeq [vector_fun; prod_fun]) (VarsSeq [1; 2])
    = ok [JRow [2; 3]; JRow [0; 0]] /\
  exists jk, [JRow [2; 3]; JRow [0; 0]] !! 0%nat = Some jk /\
    exists row, jk = JRow row /\ length row = 2%nat /\
      forall i x, [1; 2] !! i = Some x ->
        exists d,
          fad.call vector_fun
            (AMany (<[i := {| fad.real := x; fad.dual := 1 |}]>
                      [{| fad.real := 0; fad.dual := 0 |};
                       {| fad.real := 0; fad.dual := 0 |}]))
            = ok (VKer d) /\
          row !! i = Some (fad.dual d).
Proof.
  assert (H : forward_jacobian (FunSeq [vector_fun; prod_fun]) (VarsSeq [1; 2])
              = ok [JRow [2; 3]; JRow [0; 0]]) by (vm_compute; reflexivity).
  split; [exact H|].
  exact (proj2 (forward_jacobian_entries _ _ _ H) 0%nat vector_fun eq_refl).
Defined.
